(** * QuickDictate: a shallow embedding of the dictation controller,
      the audio frame encoder, the categorizer and the saved-notes listing.

    Conventions.
    - A JavaScript string is a [string]: a sequence of code units, here the
      8-bit ones (every literal of the program is ASCII).
    - React state cells and refs are fields of one record; an [await] splits
      a handler into segments, the suspended rest being a [task].
    - Platform functions ([btoa], [String.prototype.trim],
      [Array.prototype.sort], [crypto.randomUUID], [new Date]) are modelled
      from their standards or taken as inputs of the handler.
    - A plain object used as a map is the list of its own properties in the
      order of their creation; what it inherits from [Object.prototype] and
      the order in which [Object.keys] lists the keys are written out. *)

From Stdlib Require Import ZArith QArith Qround List String Ascii Bool Lia.
From Stdlib Require Import Permutation Sorted.
Import ListNotations.

Local Open Scope string_scope.
Local Open Scope Z_scope.

(* ================================================================== *)
(** * JavaScript strings *)
(* ================================================================== *)

Module Js.

Definition LF : ascii := Ascii.ascii_of_nat 10.

(** [WhiteSpace] and [LineTerminator] code units below 256: TAB, LF, VT, FF,
    CR, SP and NBSP. *)
Definition is_white_space (c : ascii) : bool :=
  let n := Ascii.nat_of_ascii c in
  ((9 <=? n)%nat && (n <=? 13)%nat) || (n =? 32)%nat || (n =? 160)%nat.

Fixpoint trimStart (s : string) : string :=
  match s with
  | String c rest => if is_white_space c then trimStart rest else s
  | EmptyString => EmptyString
  end.

Fixpoint rev_append (s acc : string) : string :=
  match s with
  | String c rest => rev_append rest (String c acc)
  | EmptyString => acc
  end.

Definition rev (s : string) : string := rev_append s EmptyString.

Definition trimEnd (s : string) : string := rev (trimStart (rev s)).

(** [String.prototype.trim]. *)
Definition trim (s : string) : string := trimEnd (trimStart s).
Arguments trim : simpl never.

(** [Array.prototype.includes] on an array of strings. *)
Fixpoint includes (xs : list string) (x : string) : bool :=
  match xs with
  | [] => false
  | y :: ys => if String.eqb y x then true else includes ys x
  end.

(** [Array.prototype.indexOf] on an array of strings; [-1] when absent. *)
Fixpoint indexOf_from (xs : list string) (x : string) (i : Z) : Z :=
  match xs with
  | [] => -1
  | y :: ys => if String.eqb y x then i else indexOf_from ys x (i + 1)
  end.

Definition indexOf (xs : list string) (x : string) : Z := indexOf_from xs x 0.

(** Truthiness of a string: the empty string is falsy. *)
Definition truthy (s : string) : bool :=
  match s with EmptyString => false | _ => true end.

(** [s.replace(/\. /g, '.\n')]: a left-to-right scan; each match consumes
    the period and the space and the scan resumes after them. *)
Fixpoint replace_dot_space (s : string) : string :=
  match s with
  | String c rest =>
      match rest with
      | String d rest' =>
          if (Ascii.eqb c "." && Ascii.eqb d " ")%bool
          then String "." (String LF (replace_dot_space rest'))
          else String c (replace_dot_space rest)
      | EmptyString => String c EmptyString
      end
  | EmptyString => EmptyString
  end.

(** [s] has the two code units [". "] somewhere. *)
Fixpoint has_dot_space (s : string) : bool :=
  match s with
  | String c rest =>
      match rest with
      | String d _ => (Ascii.eqb c "." && Ascii.eqb d " ") || has_dot_space rest
      | EmptyString => false
      end
  | EmptyString => false
  end.

(** An array index: the canonical decimal text of an integer from 0 to
    2^32 - 2.  Keys of this shape come first, in ascending order, where the
    keys of an object are listed. *)
Definition digit (c : ascii) : option N :=
  let n := N_of_ascii c in
  if ((48 <=? n) && (n <=? 57))%N then Some (n - 48)%N else None.

Fixpoint digits (s : string) (acc : N) : option N :=
  match s with
  | EmptyString => Some acc
  | String c rest =>
      match digit c with
      | Some d => digits rest (10 * acc + d)%N
      | None => None
      end
  end.

Definition array_index (k : string) : option N :=
  match k with
  | EmptyString => None
  | String "0" EmptyString => Some 0%N
  | String "0" _ => None
  | _ =>
      match digits k 0 with
      | Some n => if (n <? 4294967295)%N then Some n else None
      | None => None
      end
  end.

End Js.

(* ================================================================== *)
(** * utils/audioUtils.ts *)
(* ================================================================== *)

Module AudioUtils.

(** An element of a [Float32Array].  A finite binary32 value is a rational;
    its product with [32768] is exact in binary64, so the arithmetic of
    [createBlob] is done in [Q]. *)
Inductive float32 : Type :=
| Finite (q : Q)
| NotFinite.                     (* NaN, +Infinity, -Infinity *)

Definition f32_mul_pow15 (x : float32) : float32 :=
  match x with
  | Finite q => Finite (q * 32768)
  | NotFinite => NotFinite
  end.

(** Truncation toward zero of a rational (the integer part). *)
Definition truncate (q : Q) : Z := Z.quot (Qnum q) (Z.pos (Qden q)).

(** The 16-bit wrap-around of ECMAScript's [ToInt16]:
    [int modulo 2^16], then the upper half goes negative. *)
Definition wrap16 (n : Z) : Z :=
  let m := n mod 65536 in
  if 32768 <=? m then m - 65536 else m.

(** [ToInt16], the conversion applied by a store into an [Int16Array]:
    a non-finite number becomes [0], a finite one is truncated and wrapped. *)
Definition ToInt16 (x : float32) : Z :=
  match x with
  | NotFinite => 0
  | Finite q => wrap16 (truncate q)
  end.

(** A byte of a [Uint8Array] is kept as the code unit
    [String.fromCharCode] makes of it. *)
Definition byte_of_Z (n : Z) : ascii := Ascii.ascii_of_N (Z.to_N (n mod 256)).
Definition Z_of_byte (c : ascii) : Z := Z.of_N (Ascii.N_of_ascii c).

(** [new Uint8Array(int16.buffer)]: two bytes per element, low byte first. *)
Fixpoint bytes_of_int16 (xs : list Z) : string :=
  match xs with
  | [] => EmptyString
  | x :: rest =>
      String (byte_of_Z x) (String (byte_of_Z (x / 256)) (bytes_of_int16 rest))
  end.

(** The base64 alphabet of [btoa]. *)
Definition b64_char (i : Z) : ascii :=
  if i <? 26 then byte_of_Z (65 + i)
  else if i <? 52 then byte_of_Z (97 + (i - 26))
  else if i <? 62 then byte_of_Z (48 + (i - 52))
  else if i =? 62 then "+"%char
  else "/"%char.

(** [btoa]: three bytes give four sextets; a rest of one or two bytes is
    padded with ['=']. *)
Fixpoint btoa (s : string) : string :=
  match s with
  | String a (String b (String c rest)) =>
      let a := Z_of_byte a in let b := Z_of_byte b in let c := Z_of_byte c in
      String (b64_char (a / 4))
        (String (b64_char ((a mod 4) * 16 + b / 16))
          (String (b64_char ((b mod 16) * 4 + c / 64))
            (String (b64_char (c mod 64)) (btoa rest))))
  | String a (String b EmptyString) =>
      let a := Z_of_byte a in let b := Z_of_byte b in
      String (b64_char (a / 4))
        (String (b64_char ((a mod 4) * 16 + b / 16))
          (String (b64_char ((b mod 16) * 4))
            (String "="%char EmptyString)))
  | String a EmptyString =>
      let a := Z_of_byte a in
      String (b64_char (a / 4))
        (String (b64_char ((a mod 4) * 16))
          (String "="%char (String "="%char EmptyString)))
  | EmptyString => EmptyString
  end.

(** [encode]: the loop appends [String.fromCharCode(bytes[i])] for every
    index, which rebuilds the byte sequence as a binary string; then [btoa]. *)
Fixpoint encode_loop (bytes : string) (binary : string) : string :=
  match bytes with
  | EmptyString => binary
  | String b rest => encode_loop rest (binary ++ String b EmptyString)
  end.

Definition encode (bytes : string) : string := btoa (encode_loop bytes "").

Record Blob : Type := { data : string; mimeType : string }.

(** [createBlob]: [int16[i] = data[i] * 32768] for every index. *)
Definition createBlob (samples : list float32) : Blob :=
  let int16 := map (fun x => ToInt16 (f32_mul_pow15 x)) samples in
  {| data := encode (bytes_of_int16 int16);
     mimeType := "audio/pcm;rate=16000" |}.

(** ** The receiving side (not part of the repository): the inverse of
    [btoa] and the reading of little-endian 16-bit samples, used to state
    what a payload decodes to. *)

Definition b64_index (c : ascii) : option Z :=
  let n := Z_of_byte c in
  if (65 <=? n) && (n <=? 90) then Some (n - 65)
  else if (97 <=? n) && (n <=? 122) then Some (n - 97 + 26)
  else if (48 <=? n) && (n <=? 57) then Some (n - 48 + 52)
  else if n =? 43 then Some 62
  else if n =? 47 then Some 63
  else None.

Fixpoint atob (s : string) : option string :=
  match s with
  | EmptyString => Some EmptyString
  | String c0 (String c1 (String c2 (String c3 rest))) =>
      match b64_index c0, b64_index c1 with
      | Some s0, Some s1 =>
          let a := byte_of_Z (s0 * 4 + s1 / 16) in
          if Ascii.eqb c2 "=" then
            if Ascii.eqb c3 "=" then
              match rest with
              | EmptyString => Some (String a EmptyString)
              | _ => None
              end
            else None
          else
            match b64_index c2 with
            | Some s2 =>
                let b := byte_of_Z ((s1 mod 16) * 16 + s2 / 4) in
                if Ascii.eqb c3 "=" then
                  match rest with
                  | EmptyString => Some (String a (String b EmptyString))
                  | _ => None
                  end
                else
                  match b64_index c3, atob rest with
                  | Some s3, Some tl =>
                      Some (String a (String b
                             (String (byte_of_Z ((s2 mod 4) * 64 + s3)) tl)))
                  | _, _ => None
                  end
            | None => None
            end
      | _, _ => None
      end
  | _ => None
  end.

Fixpoint int16_of_bytes (s : string) : option (list Z) :=
  match s with
  | EmptyString => Some []
  | String lo (String hi rest) =>
      match int16_of_bytes rest with
      | Some xs => Some (wrap16 (Z_of_byte lo + 256 * Z_of_byte hi) :: xs)
      | None => None
      end
  | _ => None
  end.

(** The sixty-four sextet values. *)
Definition sextets : list Z := map Z.of_nat (seq 0 64).

Definition decode_pcm (payload : string) : option (list Z) :=
  match atob payload with
  | Some bytes => int16_of_bytes bytes
  | None => None
  end.

(** Rounding to the nearest integer (ties upward, as [Math.round]): the
    conversion the specification names; [createBlob] does not use it. *)
Definition round_nearest (q : Q) : Z := Qfloor (q + (1 # 2)).

Definition spec_pcm_of_sample (q : Q) : Z := wrap16 (round_nearest (q * 32768)).

End AudioUtils.

(* ================================================================== *)
(** * types.ts *)
(* ================================================================== *)

Module Types.

Record Note : Type := {
  id : string;
  text : string;
  category : string;
  timestamp : Z;                 (* a [Date], as milliseconds *)
  emailSent : option bool        (* [emailSent?: boolean] *)
}.

(** [Omit<Note, 'id' | 'timestamp'>], the type of the note under review. *)
Record Draft : Type := {
  draft_text : string;
  draft_category : string;
  draft_emailSent : option bool
}.

Inductive AppState : Type := IDLE | RECORDING | PROCESSING | REVIEW.

Record UserSettings : Type := {
  onboardingComplete : bool;
  defaultEmail : string;
  otherEmails : list string;
  categories : list string
}.

(** [Omit<UserSettings, 'onboardingComplete'>], what the onboarding form
    hands to [onComplete]. *)
Record answers : Type := {
  ans_defaultEmail : string;
  ans_otherEmails : list string;
  ans_categories : list string
}.

Definition AppState_eqb (a b : AppState) : bool :=
  match a, b with
  | IDLE, IDLE | RECORDING, RECORDING
  | PROCESSING, PROCESSING | REVIEW, REVIEW => true
  | _, _ => false
  end.

End Types.

(* ================================================================== *)
(** * services/geminiService.ts *)
(* ================================================================== *)

Module GeminiService.

(** What [await ai.models.generateContent(...)] comes to: a response whose
    [text] is a string or [undefined], or a rejection. *)
Inductive generation : Type :=
| Responded (text : option string)
| Rejected.

(** How a call of an [async] function ends. *)
Inductive outcome (A : Type) : Type :=
| Returned (a : A)
| Thrown (message : string).
Arguments Returned {A} a.
Arguments Thrown {A} message.

Definition DQUOTE : string := String (Ascii.ascii_of_nat 34) EmptyString.
Definition NL : string := String Js.LF EmptyString.

(** [userCategories.map(c => `"${c}"`).join(', ')]. *)
Fixpoint join (sep : string) (xs : list string) : string :=
  match xs with
  | [] => ""
  | [x] => x
  | x :: rest => x ++ sep ++ join sep rest
  end.

Definition categoriesString (userCategories : list string) : string :=
  join ", " (map (fun c => DQUOTE ++ c ++ DQUOTE) userCategories).

Definition prompt (text : string) (userCategories : list string) : string :=
  "Please categorize the following note into ONE of these categories: "
  ++ categoriesString userCategories
  ++ ". If none of the other categories are a good fit, categorize it as "
  ++ DQUOTE ++ "Notes" ++ DQUOTE
  ++ ". Respond with ONLY the category name and nothing else." ++ NL
  ++ "    " ++ NL
  ++ "    Note: " ++ DQUOTE ++ text ++ DQUOTE ++ NL
  ++ "    " ++ NL
  ++ "    Category:".

(** [!process.env.API_KEY]: the variable is undefined or the empty string. *)
Definition key_missing (API_KEY : option string) : bool :=
  match API_KEY with
  | Some k => negb (Js.truthy k)
  | None => true
  end.

(** [categorizeNote].  [backend] is the remote model, from the prompt to
    what the awaited call comes to.  A response without text makes
    [response.text.trim()] raise inside the [try], which the [catch] turns
    into the fallback like a rejection. *)
Definition categorizeNote (API_KEY : option string)
    (backend : string -> generation)
    (text : string) (userCategories : list string) : outcome string :=
  if key_missing API_KEY then Thrown "API_KEY environment variable not set"
  else
    match backend (prompt text userCategories) with
    | Responded (Some t) =>
        let category := Js.trim t in
        if Js.includes userCategories category then Returned category
        else Returned "Notes"
    | Responded None => Returned "Notes"
    | Rejected => Returned "Notes"
    end.

End GeminiService.

(** The second copy of the service (no file name recorded): the fallback is
    ["General Note"], which is itself among the accepted answers. *)
Module GeminiServiceGeneral.

Import GeminiService.

Definition prompt (text : string) (userCategories : list string) : string :=
  "Please categorize the following note into ONE of these categories: "
  ++ categoriesString userCategories
  ++ ", or " ++ DQUOTE ++ "General Note" ++ DQUOTE
  ++ " if none apply. Respond with ONLY the category name and nothing else."
  ++ NL
  ++ "    " ++ NL
  ++ "    Note: " ++ DQUOTE ++ text ++ DQUOTE ++ NL
  ++ "    " ++ NL
  ++ "    Category:".

Definition categorizeNote (API_KEY : option string)
    (backend : string -> generation)
    (text : string) (userCategories : list string) : outcome string :=
  if key_missing API_KEY then Thrown "API_KEY environment variable not set"
  else
    match backend (prompt text userCategories) with
    | Responded (Some t) =>
        let category := Js.trim t in
        let validCategories := (userCategories ++ ["General Note"])%list in
        if Js.includes validCategories category then Returned category
        else Returned "General Note"
    | Responded None => Returned "General Note"
    | Rejected => Returned "General Note"
    end.

End GeminiServiceGeneral.

(* ================================================================== *)
(** * components/SavedNotesList.tsx *)
(* ================================================================== *)

Module SavedNotesList.

Import Types.

Definition categoryOrder : list string :=
  ["To-do"; "Follow ups"; "Ideas"; "Notes"].

(** How the evaluation of the component ends: with a value, or by throwing
    a [TypeError]. *)
Inductive completion (A : Type) : Type :=
| Normal (a : A)
| TypeError.
Arguments Normal {A} a.
Arguments TypeError {A}.

(** The accumulator of the [reduce], a [Record<string, Note[]>] that starts
    as [{}]: its own properties in the order they were created, each with
    its array. *)
Definition groups : Type := list (string * list Note).

(** The properties the accumulator inherits from [Object.prototype]: the
    methods, and the accessor [__proto__].  Read through the accumulator
    each of them is a function or an object, so it is truthy and has no
    [push]. *)
Definition inherited_names : list string :=
  ["constructor"; "hasOwnProperty"; "isPrototypeOf"; "propertyIsEnumerable";
   "toLocaleString"; "toString"; "valueOf"; "__proto__";
   "__defineGetter__"; "__defineSetter__";
   "__lookupGetter__"; "__lookupSetter__"].

Definition inherited (k : string) : bool := Js.includes inherited_names k.

(** The array under an own property. *)
Fixpoint lookup (g : groups) (c : string) : option (list Note) :=
  match g with
  | [] => None
  | (k, ns) :: rest => if String.eqb k c then Some ns else lookup rest c
  end.

(** [acc[category] = []] where there is no such own property, then
    [acc[category].push(note)]. *)
Fixpoint push_own (acc : groups) (note : Note) : groups :=
  match acc with
  | [] => [(category note, [note])]
  | (k, ns) :: rest =>
      if String.eqb k (category note) then (k, (ns ++ [note])%list) :: rest
      else (k, ns) :: push_own rest note
  end.

(** One round of the reducer: [if (!acc[category]) acc[category] = [];
    acc[category].push(note)].  An own array is truthy and is pushed to.
    Without an own property the read goes to the prototype: what is found
    there is truthy, nothing is assigned and the call of [push] throws;
    where nothing is found the array is made. *)
Definition push_note (acc : groups) (note : Note) : completion groups :=
  match lookup acc (category note) with
  | Some _ => Normal (push_own acc note)
  | None =>
      if inherited (category note) then TypeError
      else Normal (push_own acc note)
  end.

(** [notes.reduce(..., {})]. *)
Fixpoint reduce (notes : list Note) (acc : groups) : completion groups :=
  match notes with
  | [] => Normal acc
  | note :: rest =>
      match push_note acc note with
      | Normal acc' => reduce rest acc'
      | TypeError => TypeError
      end
  end.

Definition groupedNotes (notes : list Note) : completion groups :=
  reduce notes [].

(** The own keys in the order of their creation. *)
Definition own_keys (g : groups) : list string := map fst g.

Definition is_index (k : string) : bool :=
  match Js.array_index k with Some _ => true | None => false end.

Definition index_ltb (a b : string) : bool :=
  match Js.array_index a, Js.array_index b with
  | Some i, Some j => (i <? j)%N
  | _, _ => false
  end.

Fixpoint insert_ascending (k : string) (sorted : list string) : list string :=
  match sorted with
  | [] => [k]
  | y :: ys =>
      if index_ltb k y then k :: y :: ys else y :: insert_ascending k ys
  end.

Definition ascending (ks : list string) : list string :=
  fold_right insert_ascending [] ks.

(** [Object.keys]: the keys that are array indices in ascending numeric
    order, then the other keys in the order of their creation. *)
Definition Object_keys (g : groups) : list string :=
  (ascending (filter is_index (own_keys g))
   ++ filter (fun k => negb (is_index k)) (own_keys g))%list.

(** The comparator handed to [sort]. *)
Definition compareCategories (a b : string) : Z :=
  let indexA := Js.indexOf categoryOrder a in
  let indexB := Js.indexOf categoryOrder b in
  if indexA =? -1 then 1
  else if indexB =? -1 then -1
  else indexA - indexB.

(** [Array.prototype.sort(comparefn)], a stable sort: every element in turn
    is inserted into the sorted prefix, after the elements it does not
    precede; only the test [comparefn(x, y) < 0] is consulted. *)
Fixpoint sort_insert {A : Type} (comparefn : A -> A -> Z) (x : A)
    (sorted : list A) : list A :=
  match sorted with
  | [] => [x]
  | y :: ys =>
      if comparefn x y <? 0 then x :: y :: ys
      else y :: sort_insert comparefn x ys
  end.

Definition sort {A : Type} (comparefn : A -> A -> Z) (xs : list A) : list A :=
  fold_left (fun sorted x => sort_insert comparefn x sorted) xs [].

Definition sortedCategories (g : groups) : list string :=
  sort compareCategories (Object_keys g).

(** What the component comes to: [null] for no notes, else the groups in the
    sorted order, each with its notes; a [TypeError] of the reducer is not
    caught. *)
Definition render (notes : list Note)
  : completion (option (list (string * list Note))) :=
  match notes with
  | [] => Normal None
  | _ =>
      match groupedNotes notes with
      | TypeError => TypeError
      | Normal g =>
          Normal
            (Some (map (fun c => (c, match lookup g c with
                                     | Some ns => ns
                                     | None => []
                                     end))
                       (sortedCategories g)))
      end
  end.

(** ** Vocabulary for what the listing guarantees *)

(** Is the category in the priority list, and at which place. *)
Definition listed (c : string) : bool := Js.includes categoryOrder c.
Definition rank (c : string) : Z := Js.indexOf categoryOrder c.
Definition by_rank (a b : string) : Prop := rank a <= rank b.



Definition in_category (c : string) (n : Note) : bool :=
  String.eqb (category n) c.

(** The array under a key after more notes were pushed. *)
Definition grown (old : option (list Note)) (more : list Note)
  : option (list Note) :=
  match old, more with
  | None, [] => None
  | None, _ => Some more
  | Some ns, _ => Some (ns ++ more)%list
  end.

End SavedNotesList.

(** The listing of the second copy (no file name recorded): no groups, the
    notes one after the other as they are in the sequence. *)
Module SavedNotesListFlat.

Import Types.

Definition render (notes : list Note) : option (list Note) :=
  match notes with
  | [] => None
  | _ => Some notes
  end.

End SavedNotesListFlat.

(* ================================================================== *)
(** * App.tsx: the recording session controller and the note lifecycle *)
(* ================================================================== *)

Module App.

Import Types.
Import GeminiService.

(** The repository holds two copies of the application.  [QuickNotes] is the
    documented one (it stores the category in the text of a saved note, mails
    with [handleEmailNote] and falls back to ["Notes"]); [QuickDictate] keeps
    text and category apart, shares with [handleShareNote] and falls back to
    ["General Note"].  [handleToggleRecording] is the same in both. *)
Inductive variant : Type := QuickNotes | QuickDictate.

(** What the page is given from outside. *)
Record Env : Type := {
  app : variant;
  API_KEY : option string;                  (* [process.env.API_KEY] *)
  navigator_share : bool;                   (* is [navigator.share] there *)
  encodeURIComponent : string -> string
}.

(** ** The cells of [useState] *)

Record react : Type := {
  appState : AppState;
  currentTranscription : string;
  currentNote : option Draft;
  savedNotes : list Note;
  error : option string;
  settings : UserSettings;
  justEmailed : bool
}.

Definition setAppState (v : AppState) (r : react) : react :=
  {| appState := v; currentTranscription := currentTranscription r;
     currentNote := currentNote r; savedNotes := savedNotes r;
     error := error r; settings := settings r; justEmailed := justEmailed r |}.

Definition setCurrentTranscription (f : string -> string) (r : react) : react :=
  {| appState := appState r; currentTranscription := f (currentTranscription r);
     currentNote := currentNote r; savedNotes := savedNotes r;
     error := error r; settings := settings r; justEmailed := justEmailed r |}.

Definition setCurrentNote (v : option Draft) (r : react) : react :=
  {| appState := appState r; currentTranscription := currentTranscription r;
     currentNote := v; savedNotes := savedNotes r;
     error := error r; settings := settings r; justEmailed := justEmailed r |}.

Definition setSavedNotes (f : list Note -> list Note) (r : react) : react :=
  {| appState := appState r; currentTranscription := currentTranscription r;
     currentNote := currentNote r; savedNotes := f (savedNotes r);
     error := error r; settings := settings r; justEmailed := justEmailed r |}.

Definition setError (v : option string) (r : react) : react :=
  {| appState := appState r; currentTranscription := currentTranscription r;
     currentNote := currentNote r; savedNotes := savedNotes r;
     error := v; settings := settings r; justEmailed := justEmailed r |}.

Definition setJustEmailed (v : bool) (r : react) : react :=
  {| appState := appState r; currentTranscription := currentTranscription r;
     currentNote := currentNote r; savedNotes := savedNotes r;
     error := error r; settings := settings r; justEmailed := v |}.

(** ** The cells of [useRef]; a session, an audio context and an audio node
    are named by the number under which the world keeps them. *)

Record handles : Type := {
  sessionPromiseRef : option nat;
  audioContextRef : option nat;
  scriptProcessorRef : option nat;
  mediaStreamSourceRef : option nat
}.

(** ** The world the handlers act on *)

Inductive session_status : Type :=
| Connecting          (* [ai.live.connect] called, the promise is pending *)
| Open                (* [onopen] delivered, the promise is resolved *)
| Closing             (* [session.close()] called by the page *)
| Closed.             (* [onclose] delivered *)

Record session : Type := {
  status : session_status;
  resolved : bool;              (* has the promise of the session resolved *)
  microphone_live : bool;       (* the [stream] its callbacks hold is live *)
  close_when_resolved : bool    (* a [.then(session => session.close())] waits *)
}.

Inductive effect : Type :=
| Alert (message : string)
| Navigate (href : string)                  (* [window.location.href = ...] *)
| NativeShare (title text : string)         (* [navigator.share({...})] *)
| ConsoleError (message : string)
| ConsoleLog (message : string).

(** The rest of a call of [handleToggleRecording] that waits at an [await].
    The stop branch keeps the transcription and the categories of the render
    it was created in. *)
Inductive task : Type :=
| StartAwaitMicrophone
| StopAwaitSession (sid : nat) (transcription : string) (cats : list string)
| StopAwaitContextClose (ctx : nat) (transcription : string)
    (cats : list string)
| StopAwaitCategorize (transcription : string) (cats : list string).

Record state : Type := {
  ui : react;
  refs : handles;
  sessions : list session;
  contexts : list bool;          (* per audio context: is it closed *)
  nodes : list bool;             (* per audio node: is it connected *)
  pending : list task;
  effects : list effect;         (* outward actions, latest first *)
  mounted : bool
}.

Definition on_ui (f : react -> react) (s : state) : state :=
  {| ui := f (ui s); refs := refs s; sessions := sessions s;
     contexts := contexts s; nodes := nodes s; pending := pending s;
     effects := effects s; mounted := mounted s |}.

Definition set_refs (h : handles) (s : state) : state :=
  {| ui := ui s; refs := h; sessions := sessions s;
     contexts := contexts s; nodes := nodes s; pending := pending s;
     effects := effects s; mounted := mounted s |}.

Definition set_sessions (l : list session) (s : state) : state :=
  {| ui := ui s; refs := refs s; sessions := l;
     contexts := contexts s; nodes := nodes s; pending := pending s;
     effects := effects s; mounted := mounted s |}.

Definition set_contexts (l : list bool) (s : state) : state :=
  {| ui := ui s; refs := refs s; sessions := sessions s;
     contexts := l; nodes := nodes s; pending := pending s;
     effects := effects s; mounted := mounted s |}.

Definition set_nodes (l : list bool) (s : state) : state :=
  {| ui := ui s; refs := refs s; sessions := sessions s;
     contexts := contexts s; nodes := l; pending := pending s;
     effects := effects s; mounted := mounted s |}.

Definition set_pending (l : list task) (s : state) : state :=
  {| ui := ui s; refs := refs s; sessions := sessions s;
     contexts := contexts s; nodes := nodes s; pending := l;
     effects := effects s; mounted := mounted s |}.

Definition emit (e : effect) (s : state) : state :=
  {| ui := ui s; refs := refs s; sessions := sessions s;
     contexts := contexts s; nodes := nodes s; pending := pending s;
     effects := e :: effects s; mounted := mounted s |}.

Definition set_mounted (b : bool) (s : state) : state :=
  {| ui := ui s; refs := refs s; sessions := sessions s;
     contexts := contexts s; nodes := nodes s; pending := pending s;
     effects := effects s; mounted := b |}.

Definition suspend (t : task) (s : state) : state :=
  set_pending (pending s ++ [t])%list s.

Definition set_sessionPromiseRef (v : option nat) (s : state) : state :=
  set_refs {| sessionPromiseRef := v;
              audioContextRef := audioContextRef (refs s);
              scriptProcessorRef := scriptProcessorRef (refs s);
              mediaStreamSourceRef := mediaStreamSourceRef (refs s) |} s.

Definition set_audioContextRef (v : option nat) (s : state) : state :=
  set_refs {| sessionPromiseRef := sessionPromiseRef (refs s);
              audioContextRef := v;
              scriptProcessorRef := scriptProcessorRef (refs s);
              mediaStreamSourceRef := mediaStreamSourceRef (refs s) |} s.

Definition set_scriptProcessorRef (v : option nat) (s : state) : state :=
  set_refs {| sessionPromiseRef := sessionPromiseRef (refs s);
              audioContextRef := audioContextRef (refs s);
              scriptProcessorRef := v;
              mediaStreamSourceRef := mediaStreamSourceRef (refs s) |} s.

Definition set_mediaStreamSourceRef (v : option nat) (s : state) : state :=
  set_refs {| sessionPromiseRef := sessionPromiseRef (refs s);
              audioContextRef := audioContextRef (refs s);
              scriptProcessorRef := scriptProcessorRef (refs s);
              mediaStreamSourceRef := v |} s.

(** [l] with its [n]-th element replaced by [f] of it. *)
Fixpoint update_nth {A : Type} (n : nat) (f : A -> A) (l : list A) : list A :=
  match l, n with
  | [], _ => []
  | x :: rest, O => f x :: rest
  | x :: rest, S k => x :: update_nth k f rest
  end.

Fixpoint remove_nth {A : Type} (n : nat) (l : list A) : list A :=
  match l, n with
  | [], _ => []
  | _ :: rest, O => rest
  | x :: rest, S k => x :: remove_nth k rest
  end.

Definition session_at (s : state) (sid : nat) : option session :=
  nth_error (sessions s) sid.

Definition context_closed (s : state) (c : nat) : bool :=
  nth c (contexts s) true.

Definition defaultSettings : UserSettings :=
  {| onboardingComplete := false; defaultEmail := ""; otherEmails := [];
     categories := ["Work"; "Podcast Notes"; "Ideas"; "To-Do"; "Follow-ups"] |}.

(** The component as it is mounted, with the settings it has loaded. *)
Definition initial (st : UserSettings) (notes : list Note) : state :=
  {| ui := {| appState := IDLE; currentTranscription := "";
              currentNote := None; savedNotes := notes; error := None;
              settings := st; justEmailed := false |};
     refs := {| sessionPromiseRef := None; audioContextRef := None;
                scriptProcessorRef := None; mediaStreamSourceRef := None |};
     sessions := []; contexts := []; nodes := []; pending := [];
     effects := []; mounted := true |}.

(** ** The callbacks of the live session *)

(** [prev + text]: a missing [text] is appended as ["undefined"]. *)
Definition text_or_undefined (text : option string) : string :=
  match text with Some t => t | None => "undefined" end.

(** [onmessage].  [inputTranscription] is [message.serverContent
    ?.inputTranscription]: absent, or an object with an optional [text]. *)
Definition onmessage (inputTranscription : option (option string))
    (s : state) : state :=
  match inputTranscription with
  | Some text =>
      on_ui (setCurrentTranscription
               (fun prev => Js.replace_dot_space (prev ++ text_or_undefined text)))
            s
  | None => s
  end.

(** [onopen]: a source node and a script processor are made on the context
    of [audioContextRef], kept in the two refs and connected.  Without a
    context the non-null assertion fails and nothing is assigned. *)
Definition onopen (s : state) : state :=
  match audioContextRef (refs s) with
  | Some _ =>
      let source := List.length (nodes s) in
      let processor := S source in
      set_nodes (nodes s ++ [true; true])%list
        (set_scriptProcessorRef (Some processor)
          (set_mediaStreamSourceRef (Some source) s))
  | None => s
  end.

(** [onerror]. *)
Definition onerror (s : state) : state :=
  on_ui (fun r => setAppState IDLE
                    (setError (Some "An error occurred during dictation.") r))
        (emit (ConsoleError "Gemini Live API Error:") s).

(** [onclose] of the session [sid]: the tracks of its stream are stopped. *)
Definition stop_tracks (x : session) : session :=
  {| status := Closed; resolved := resolved x; microphone_live := false;
     close_when_resolved := close_when_resolved x |}.

(** [session.close()]. *)
Definition close_session (x : session) : session :=
  {| status := match status x with Closed => Closed | _ => Closing end;
     resolved := resolved x; microphone_live := microphone_live x;
     close_when_resolved := close_when_resolved x |}.

Definition open_session (x : session) : session :=
  {| status := Open; resolved := true; microphone_live := microphone_live x;
     close_when_resolved := close_when_resolved x |}.

Definition new_session : session :=
  {| status := Connecting; resolved := false; microphone_live := true;
     close_when_resolved := false |}.

(** ** [handleToggleRecording], the start branch *)

(** Up to [await navigator.mediaDevices.getUserMedia(...)]. *)
Definition start_begin (s : state) : state :=
  suspend StartAwaitMicrophone
    (on_ui (fun r => setAppState RECORDING
                       (setCurrentTranscription (fun _ => "")
                          (setCurrentNote None (setError None r)))) s).

(** The stream is there: a new audio context goes into [audioContextRef]
    and the promise of [ai.live.connect] into [sessionPromiseRef]. *)
Definition start_with_stream (s : state) : state :=
  let ctx := List.length (contexts s) in
  let sid := List.length (sessions s) in
  set_sessionPromiseRef (Some sid)
    (set_sessions (sessions s ++ [new_session])%list
       (set_audioContextRef (Some ctx)
          (set_contexts (contexts s ++ [false])%list s))).

(** The [catch] of the start branch. *)
Definition start_failed (s : state) : state :=
  on_ui (fun r =>
           setAppState IDLE
             (setError (Some "Could not access microphone. Please grant permission and try again.") r))
        (emit (ConsoleError "Failed to start recording:") s).

(** ** [handleToggleRecording], the stop branch *)

(** The [try] / [catch] / [finally] around the awaited [categorizeNote]. *)
Definition stop_finish (r : outcome string) (transcription : string)
    (s : state) : state :=
  match r with
  | Returned category =>
      on_ui (fun r =>
               setCurrentTranscription (fun _ => "")
                 (setAppState REVIEW
                    (setCurrentNote
                       (Some {| draft_text := transcription;
                                draft_category := category;
                                draft_emailSent := None |}) r))) s
  | Thrown _ =>
      on_ui (fun r =>
               setCurrentTranscription (fun _ => "")
                 (setAppState IDLE
                    (setError (Some "Failed to categorize note. Please try again.") r))) s
  end.

(** [if (currentTranscription.trim().length > 0)]: [categorizeNote] is
    called and awaited, or the machine goes back to [IDLE]. *)
Definition stop_evaluate (transcription : string) (cats : list string)
    (s : state) : state :=
  if (0 <? String.length (Js.trim transcription))%nat
  then suspend (StopAwaitCategorize transcription cats) s
  else on_ui (fun r => setAppState IDLE
                         (setCurrentTranscription (fun _ => "") r)) s.

(** The second block: with all three audio refs set, the two nodes are
    disconnected and the context, unless closed, is closed and awaited. *)
Definition stop_release_audio (transcription : string) (cats : list string)
    (s : state) : state :=
  match audioContextRef (refs s), scriptProcessorRef (refs s),
        mediaStreamSourceRef (refs s) with
  | Some ctx, Some processor, Some source =>
      let s1 :=
        set_nodes (update_nth source (fun _ => false)
                     (update_nth processor (fun _ => false) (nodes s))) s in
      if context_closed s1 ctx then stop_evaluate transcription cats s1
      else suspend (StopAwaitContextClose ctx transcription cats) s1
  | _, _, _ => stop_evaluate transcription cats s
  end.

(** After [await sessionPromiseRef.current]: [session.close()], then
    [sessionPromiseRef.current = null]. *)
Definition stop_close_session (sid : nat) (transcription : string)
    (cats : list string) (s : state) : state :=
  stop_release_audio transcription cats
    (set_sessionPromiseRef None
       (set_sessions (update_nth sid close_session (sessions s)) s)).

(** Up to the first [await]. *)
Definition stop_begin (s : state) : state :=
  let transcription := currentTranscription (ui s) in
  let cats := categories (settings (ui s)) in
  let s1 := on_ui (setAppState PROCESSING) s in
  match sessionPromiseRef (refs s1) with
  | Some sid => suspend (StopAwaitSession sid transcription cats) s1
  | None => stop_release_audio transcription cats s1
  end.

Definition handleToggleRecording (s : state) : state :=
  if AppState_eqb (appState (ui s)) RECORDING then stop_begin s
  else start_begin s.

(** The service each copy of the application imports. *)
Definition categorize (env : Env) (g : generation) (transcription : string)
    (cats : list string) : outcome string :=
  match app env with
  | QuickNotes =>
      GeminiService.categorizeNote (API_KEY env) (fun _ => g) transcription cats
  | QuickDictate =>
      GeminiServiceGeneral.categorizeNote (API_KEY env) (fun _ => g)
        transcription cats
  end.

(** ** The note lifecycle *)

Definition resetCurrentNote (r : react) : react :=
  setJustEmailed false (setAppState IDLE (setCurrentNote None r)).

(** The text both copies mail and [QuickNotes] stores:
    [`${category}:\n\n${text}`]. *)
Definition prefixed (note : Draft) : string :=
  draft_category note ++ ":" ++ NL ++ NL ++ draft_text note.

(** [handleSaveNote]; [uuid] is what [crypto.randomUUID()] returns and [now]
    what [new Date()] reads. *)
Definition handleSaveNote (v : variant) (uuid : string) (now : Z)
    (s : state) : state :=
  match currentNote (ui s) with
  | Some note =>
      let newNote :=
        {| id := uuid;
           text := match v with
                   | QuickNotes => prefixed note
                   | QuickDictate => draft_text note
                   end;
           category := draft_category note;
           timestamp := now;
           emailSent := Some (justEmailed (ui s)) |} in
      on_ui (fun r => resetCurrentNote
                        (setSavedNotes (fun prev => newNote :: prev) r)) s
  | None => s
  end.

Definition truthy_opt (x : option string) : bool :=
  match x with Some v => Js.truthy v | None => false end.

Definition mailto (env : Env) (recipient subject body : string) : string :=
  "mailto:" ++ recipient ++ "?subject=" ++ encodeURIComponent env subject
  ++ "&body=" ++ encodeURIComponent env body.

(** [handleEmailNote] of [QuickNotes]. *)
Definition handleEmailNote (env : Env) (email : option string)
    (s : state) : state :=
  match currentNote (ui s) with
  | None => s
  | Some note =>
      let s1 := on_ui (setJustEmailed true) s in
      let subject := "Note: " ++ draft_category note in
      let body := prefixed note in
      let recipient :=
        if truthy_opt email then text_or_undefined email
        else defaultEmail (settings (ui s)) in
      if Js.truthy recipient
      then emit (Navigate (mailto env recipient subject body)) s1
      else emit (Alert "Please set a default email in your settings.") s1
  end.

(** [handleShareNote] of [QuickDictate]; [shared] tells whether the awaited
    [navigator.share] resolves (else its rejection is logged). *)
Definition handleShareNote (env : Env) (email : option string) (shared : bool)
    (s : state) : state :=
  match currentNote (ui s) with
  | None => s
  | Some note =>
      let s1 := on_ui (setJustEmailed true) s in
      let subject := "Note: " ++ draft_category note in
      let body := draft_text note in
      if truthy_opt email
      then emit (Navigate (mailto env (text_or_undefined email) subject body)) s1
      else if navigator_share env
      then
        let s2 := emit (NativeShare subject body) s1 in
        if shared then s2 else emit (ConsoleLog "Error sharing:") s2
      else
        let defaultEmail := defaultEmail (settings (ui s)) in
        if Js.truthy defaultEmail
        then emit (Navigate (mailto env defaultEmail subject body)) s1
        else emit (Alert "Please set a default email in settings to use this feature on desktop.") s1
  end.

Definition share (env : Env) (email : option string) (shared : bool)
    (s : state) : state :=
  match app env with
  | QuickNotes => handleEmailNote env email s
  | QuickDictate => handleShareNote env email shared s
  end.

Definition handleDeleteSavedNote (id0 : string) (s : state) : state :=
  on_ui (setSavedNotes
           (filter (fun note => negb (String.eqb (id note) id0)))) s.

(** The cleanup of the last effect, run when the component unmounts. *)
Definition unmount (s : state) : state :=
  let s1 :=
    match sessionPromiseRef (refs s) with
    | Some sid =>
        set_sessions
          (update_nth sid
             (fun x =>
                if resolved x then close_session x
                else {| status := status x; resolved := resolved x;
                        microphone_live := microphone_live x;
                        close_when_resolved := true |})
             (sessions s)) s
    | None => s
    end in
  let s2 :=
    match audioContextRef (refs s1) with
    | Some ctx =>
        if context_closed s1 ctx then s1
        else set_contexts (update_nth ctx (fun _ => true) (contexts s1)) s1
    | None => s1
    end in
  set_mounted false s2.

(** ** Onboarding *)

Definition setSettings (v : UserSettings) (r : react) : react :=
  {| appState := appState r; currentTranscription := currentTranscription r;
     currentNote := currentNote r; savedNotes := savedNotes r;
     error := error r; settings := v; justEmailed := justEmailed r |}.

(** [{ ...newSettings, onboardingComplete: true }]. *)
Definition finalSettings (a : answers) : UserSettings :=
  {| onboardingComplete := true;
     defaultEmail := ans_defaultEmail a;
     otherEmails := ans_otherEmails a;
     categories := ans_categories a |}.

(** [handleOnboardingComplete]: the settings are put into the state, then
    written to [localStorage]; the pair is the state and what was stored
    ([None] when [setItem] throws, which is logged). *)
Definition handleOnboardingComplete (a : answers)
    (storage_works : bool) (s : state) : state * option UserSettings :=
  let s1 := on_ui (setSettings (finalSettings a)) s in
  if storage_works then (s1, Some (finalSettings a))
  else (emit (ConsoleError "Failed to save settings to localStorage") s1, None).

(** ** Events and the step function *)

(** How an awaited promise settles. *)
Inductive settlement : Type :=
| GotStream                       (* [getUserMedia] resolves *)
| NoStream                        (* [getUserMedia] rejects *)
| SessionReady                    (* the promise of the session is resolved *)
| ContextClosed                   (* [audioContext.close()] resolves *)
| Categorized (g : generation).   (* the remote call of [categorizeNote] ends *)

Inductive event : Type :=
| Click                                       (* the dictation button *)
| Resume (n : nat) (r : settlement)           (* the [n]-th waiting call goes on *)
| SessionOpen (sid : nat)
| Message (sid : nat) (inputTranscription : option (option string))
| SessionError (sid : nat)
| SessionClose (sid : nat)
| SaveNote (uuid : string) (now : Z)
| ShareNote (email : option string) (shared : bool)
| Discard
| DeleteSavedNote (id0 : string)
| OnboardingComplete (newSettings : answers) (storage_works : bool)
| Unmount.

Definition resume (env : Env) (t : task) (r : settlement) (s : state)
  : option state :=
  match t, r with
  | StartAwaitMicrophone, GotStream => Some (start_with_stream s)
  | StartAwaitMicrophone, NoStream => Some (start_failed s)
  | StopAwaitSession sid transcription cats, SessionReady =>
      match session_at s sid with
      | Some x =>
          if resolved x then Some (stop_close_session sid transcription cats s)
          else None
      | None => None
      end
  | StopAwaitContextClose ctx transcription cats, ContextClosed =>
      Some (stop_evaluate transcription cats
              (set_contexts (update_nth ctx (fun _ => true) (contexts s)) s))
  | StopAwaitCategorize transcription cats, Categorized g =>
      Some (stop_finish (categorize env g transcription cats) transcription s)
  | _, _ => None
  end.

(** The page shows its controls once onboarding is complete (before that
    it renders the onboarding form alone). *)
Definition shown (s : state) : bool := onboardingComplete (settings (ui s)).

(** The note card is rendered in [REVIEW] with a note under review. *)
Definition reviewing (s : state) : bool :=
  shown s
  && AppState_eqb (appState (ui s)) REVIEW
  && match currentNote (ui s) with Some _ => true | None => false end.

(** The events that come from the rendered page; the others are awaited
    promises settling and callbacks of a session, which the unmounting
    neither cancels nor unregisters. *)
Definition from_page (e : event) : bool :=
  match e with
  | Resume _ _ | SessionOpen _ | Message _ _ | SessionError _
  | SessionClose _ => false
  | _ => true
  end.

(** The promise of a session resolves as the session opens; a [then] the
    unmounting has hung on the promise closes the session at once. *)
Definition resolve_session (x : session) : session :=
  if close_when_resolved x then close_session (open_session x)
  else open_session x.

(** One event; [None] when the event cannot happen in [s]: the page is
    gone, the controls or the form are not rendered, the button is disabled
    while [PROCESSING], the card is not shown, the promise is not settled, a
    session that is not open delivers no message.  After the unmounting the
    cells are rendered nowhere; they are kept as the setters leave them. *)
Definition step (env : Env) (e : event) (s : state) : option state :=
  if from_page e && negb (mounted s) then None else
  match e with
  | Click =>
      if shown s && negb (AppState_eqb (appState (ui s)) PROCESSING)
      then Some (handleToggleRecording s)
      else None
  | Resume n r =>
      match nth_error (pending s) n with
      | Some t => resume env t r (set_pending (remove_nth n (pending s)) s)
      | None => None
      end
  | SessionOpen sid =>
      match session_at s sid with
      | Some x =>
          match status x with
          | Connecting =>
              Some (onopen (set_sessions
                              (update_nth sid resolve_session (sessions s)) s))
          | _ => None
          end
      | None => None
      end
  | Message sid m =>
      match session_at s sid with
      | Some x =>
          match status x with
          | Open => Some (onmessage m s)
          | _ => None
          end
      | None => None
      end
  | SessionError sid =>
      match session_at s sid with
      | Some x =>
          match status x with
          | Connecting | Open => Some (onerror s)
          | _ => None
          end
      | None => None
      end
  | SessionClose sid =>
      match session_at s sid with
      | Some x =>
          match status x with
          | Closed => None
          | _ => Some (set_sessions
                         (update_nth sid stop_tracks (sessions s)) s)
          end
      | None => None
      end
  | SaveNote uuid now =>
      if reviewing s then Some (handleSaveNote (app env) uuid now s) else None
  | ShareNote email shared =>
      if reviewing s then Some (share env email shared s) else None
  | Discard =>
      if reviewing s then Some (on_ui resetCurrentNote s) else None
  | DeleteSavedNote id0 =>
      if shown s then Some (handleDeleteSavedNote id0 s) else None
  | OnboardingComplete newSettings storage_works =>
      if shown s then None
      else Some (fst (handleOnboardingComplete newSettings storage_works s))
  | Unmount => Some (unmount s)
  end.

(** A run: the events in order; [None] as soon as one cannot happen. *)
Fixpoint run (env : Env) (es : list event) (s : state) : option state :=
  match es with
  | [] => Some s
  | e :: rest =>
      match step env e s with
      | Some s' => run env rest s'
      | None => None
      end
  end.

(** ** Vocabulary for what the controller guarantees *)

Definition node_connected (s : state) (n : nat) : bool := nth n (nodes s) false.

(** The transcript a waiting call of the stop branch works on. *)
Definition task_transcription (t : task) : option string :=
  match t with
  | StartAwaitMicrophone => None
  | StopAwaitSession _ transcription _
  | StopAwaitContextClose _ transcription _
  | StopAwaitCategorize transcription _ => Some transcription
  end.

(** A session neither the page nor the server has closed. *)
Definition session_open (x : session) : bool :=
  match status x with
  | Connecting | Open => true
  | Closing | Closed => false
  end.

Definition quiescent (s : state) : bool :=
  match pending s with [] => true | _ => false end.

(** The events of a stop whose awaited promises settle one after the other,
    up to the call of the categorizer: the click, then the call going on at
    each [await].  The call waits behind the calls that waited before. *)
Definition stop_cleanup_events (s : state) : list event :=
  let me := List.length (pending s) in
  (Click ::
   match sessionPromiseRef (refs s) with
   | Some _ => [Resume me SessionReady]
   | None => []
   end ++
   match audioContextRef (refs s), scriptProcessorRef (refs s),
         mediaStreamSourceRef (refs s) with
   | Some ctx, Some _, Some _ =>
       if context_closed s ctx then [] else [Resume me ContextClosed]
   | _, _, _ => []
   end)%list.

(** What the two cleanup blocks of a stop make of [s], once the awaited
    promises have settled: the handle is null and its session closed; with
    the three audio refs set, the nodes are disconnected and the context is
    closed. *)
Definition close_handle (s : state) : state :=
  match sessionPromiseRef (refs s) with
  | Some sid =>
      set_sessionPromiseRef None
        (set_sessions (update_nth sid close_session (sessions s)) s)
  | None => s
  end.

Definition release_audio (s : state) : state :=
  match audioContextRef (refs s), scriptProcessorRef (refs s),
        mediaStreamSourceRef (refs s) with
  | Some ctx, Some processor, Some source =>
      let s1 :=
        set_nodes (update_nth source (fun _ => false)
                     (update_nth processor (fun _ => false) (nodes s))) s in
      if context_closed s1 ctx then s1
      else set_contexts (update_nth ctx (fun _ => true) (contexts s1)) s1
  | _, _, _ => s
  end.

Definition released (s : state) : state :=
  release_audio (close_handle (on_ui (setAppState PROCESSING) s)).

(** The two cleanup blocks of the stop have acted on what [s] held. *)
Definition cleanup_done (s s1 : state) : Prop :=
  sessionPromiseRef (refs s1) = None
  /\ (forall sid, sessionPromiseRef (refs s) = Some sid ->
        exists x, session_at s1 sid = Some x /\ session_open x = false)
  /\ (forall ctx processor source,
        audioContextRef (refs s) = Some ctx ->
        scriptProcessorRef (refs s) = Some processor ->
        mediaStreamSourceRef (refs s) = Some source ->
        node_connected s1 processor = false
        /\ node_connected s1 source = false
        /\ context_closed s1 ctx = true).

Definition resources (s : state)
  : handles * list session * list bool * list bool :=
  (refs s, sessions s, contexts s, nodes s).

(** No session is open but the one the handle names. *)
Definition only_open_at (l : list session) (handle : option nat) : Prop :=
  forall sid x, nth_error l sid = Some x -> session_open x = true ->
                handle = Some sid.

(** Where a call of the handler may wait, and what then holds of the state
    and the handle. *)
Definition waiting_agrees (s : state) : Prop :=
  match pending s with
  | [] => sessionPromiseRef (refs s) <> None <-> appState (ui s) = RECORDING
  | [StartAwaitMicrophone] =>
      appState (ui s) = RECORDING /\ sessionPromiseRef (refs s) = None
  | [StopAwaitSession sid _ _] =>
      appState (ui s) = PROCESSING /\ sessionPromiseRef (refs s) = Some sid
  | [StopAwaitContextClose _ _ _] | [StopAwaitCategorize _ _] =>
      appState (ui s) = PROCESSING /\ sessionPromiseRef (refs s) = None
  | _ => False
  end.

Definition handle_agrees (s : state) : Prop :=
  only_open_at (sessions s) (sessionPromiseRef (refs s)) /\ waiting_agrees s.

(** The discipline under which handle and state agree: the button is
    pressed only while no call of the handler waits at an [await], and the
    live session reports no error. *)
Definition orderly (s : state) (e : event) : bool :=
  match e with
  | Click => quiescent s
  | SessionError _ => false
  | _ => true
  end.

Fixpoint orderly_run (env : Env) (es : list event) (s : state)
  : option state :=
  match es with
  | [] => Some s
  | e :: rest =>
      if orderly s e then
        match step env e s with
        | Some s' => orderly_run env rest s'
        | None => None
        end
      else None
  end.

End App.

(* ================================================================== *)
(** * Sample environments and states *)
(* ================================================================== *)

Module Scenario.

Import Types App.

Definition notes_env : Env :=
  {| app := QuickNotes; API_KEY := Some "key"; navigator_share := false;
     encodeURIComponent := fun u => u |}.

Definition dictate_env : Env :=
  {| app := QuickDictate; API_KEY := Some "key"; navigator_share := false;
     encodeURIComponent := fun u => u |}.

Definition dictate_share_env : Env :=
  {| app := QuickDictate; API_KEY := Some "key"; navigator_share := true;
     encodeURIComponent := fun u => u |}.

Definition no_key_env : Env :=
  {| app := QuickNotes; API_KEY := None; navigator_share := false;
     encodeURIComponent := fun u => u |}.

(** Settings as they are stored after onboarding. *)
Definition onboarded : UserSettings :=
  {| onboardingComplete := true; defaultEmail := "me@example.com";
     otherEmails := [];
     categories := ["Ideas"; "Follow ups"; "To-do"; "Notes"] |}.

(** Stored settings that lack the default address. *)
Definition no_address : UserSettings :=
  {| onboardingComplete := true; defaultEmail := "";
     otherEmails := [];
     categories := ["Ideas"; "Follow ups"; "To-do"; "Notes"] |}.

(** The component just mounted, nothing saved. *)
Definition fresh : state := initial onboarded [].

(** A recording whose session is open and has delivered ["buy milk"]. *)
Definition recording_milk : state :=
  on_ui (setCurrentTranscription (fun _ => "buy milk"))
    (onopen (set_sessions [open_session new_session]
               (start_with_stream (on_ui (setAppState RECORDING) fresh)))).

Definition milk : Draft :=
  {| draft_text := "buy milk"; draft_category := "To-do";
     draft_emailSent := None |}.

Definition idea : Note :=
  {| id := "id-1"; text := "Ideas:"; category := "Ideas";
     timestamp := 1600000000000; emailSent := Some false |}.

Definition saved (i c : string) (t : Z) : Note :=
  {| id := i; text := c ++ ":"; category := c; timestamp := t;
     emailSent := Some false |}.


(** A note under review, no default address configured. *)
Definition review_milk : state :=
  on_ui (fun r => setAppState REVIEW (setCurrentNote (Some milk) r))
        (initial no_address []).

(** The same with one saved note and the note already mailed. *)
Definition review_milk_mailed : state :=
  on_ui (fun r => setJustEmailed true
                    (setAppState REVIEW (setCurrentNote (Some milk) r)))
        (initial onboarded [idea]).

End Scenario.

(* ================================================================== *)
(** * Regular expressions, as [RegExp.prototype.test] decides them *)
(* ================================================================== *)

Module Regex.

(** The patterns of the program are anchored at both ends ([^...$]), so a
    test decides whether the whole string is in the language. *)
Inductive regex : Type :=
| Never
| Empty
| Class (p : ascii -> bool)
| Seq (r1 r2 : regex)
| Alt (r1 r2 : regex)
| Star (r : regex).

Definition Plus (r : regex) : regex := Seq r (Star r).

Fixpoint nullable (r : regex) : bool :=
  match r with
  | Never => false
  | Empty => true
  | Class _ => false
  | Seq r1 r2 => nullable r1 && nullable r2
  | Alt r1 r2 => nullable r1 || nullable r2
  | Star _ => true
  end.

(** What is left of [r] after the code unit [c]. *)
Fixpoint deriv (c : ascii) (r : regex) : regex :=
  match r with
  | Never => Never
  | Empty => Never
  | Class p => if p c then Empty else Never
  | Seq r1 r2 =>
      if nullable r1 then Alt (Seq (deriv c r1) r2) (deriv c r2)
      else Seq (deriv c r1) r2
  | Alt r1 r2 => Alt (deriv c r1) (deriv c r2)
  | Star r1 => Seq (deriv c r1) (Star r1)
  end.

Fixpoint test (r : regex) (s : string) : bool :=
  match s with
  | EmptyString => nullable r
  | String c rest => test (deriv c r) rest
  end.

(** The language of a pattern. *)
Inductive matches : regex -> string -> Prop :=
| MEmpty : matches Empty ""
| MClass p c : p c = true -> matches (Class p) (String c "")
| MSeq r1 r2 s1 s2 :
    matches r1 s1 -> matches r2 s2 -> matches (Seq r1 r2) (s1 ++ s2)
| MAltL r1 r2 s : matches r1 s -> matches (Alt r1 r2) s
| MAltR r1 r2 s : matches r2 s -> matches (Alt r1 r2) s
| MStarNil r : matches (Star r) ""
| MStarCons r s1 s2 :
    matches r s1 -> matches (Star r) s2 -> matches (Star r) (s1 ++ s2).

(** [\S]: any code unit that is not white space. *)
Definition NonSpace : regex := Class (fun c => negb (Js.is_white_space c)).

Definition Char (a : ascii) : regex := Class (Ascii.eqb a).

End Regex.

(* ================================================================== *)
(** * components/Onboarding.tsx *)
(* ================================================================== *)

Module Onboarding.

Import Types.

(** The pattern of [handleSubmit]: [/^\S+@\S+\.\S+$/]. *)
Definition email_pattern : Regex.regex :=
  Regex.Seq (Regex.Plus Regex.NonSpace)
    (Regex.Seq (Regex.Char "@")
       (Regex.Seq (Regex.Plus Regex.NonSpace)
          (Regex.Seq (Regex.Char ".") (Regex.Plus Regex.NonSpace)))).

(** [s.split(',')]: the pieces between the commas; always at least one. *)
Fixpoint split_comma (s : string) : list string :=
  match s with
  | EmptyString => [EmptyString]
  | String c rest =>
      if Ascii.eqb c "," then EmptyString :: split_comma rest
      else match split_comma rest with
           | piece :: pieces => String c piece :: pieces
           | [] => [String c EmptyString]
           end
  end.

(** [otherEmails.split(',').map(e => e.trim()).filter(Boolean)]. *)
Definition parse_otherEmails (otherEmails : string) : list string :=
  filter Js.truthy (map Js.trim (split_comma otherEmails)).

(** The cells of the form.  [selectedCategories] is a cell of the copy with
    the category buttons only. *)
Record form : Type := {
  form_defaultEmail : string;
  form_otherEmails : string;
  form_selectedCategories : list string;
  form_error : string
}.

Definition setError (e : string) (f : form) : form :=
  {| form_defaultEmail := form_defaultEmail f;
     form_otherEmails := form_otherEmails f;
     form_selectedCategories := form_selectedCategories f;
     form_error := e |}.

Definition setSelectedCategories (g : list string -> list string) (f : form)
  : form :=
  {| form_defaultEmail := form_defaultEmail f;
     form_otherEmails := form_otherEmails f;
     form_selectedCategories := g (form_selectedCategories f);
     form_error := form_error f |}.

(** [defaultCategories] of the two copies. *)
Definition defaultCategories (v : App.variant) : list string :=
  match v with
  | App.QuickNotes => ["Ideas"; "Follow ups"; "To-do"; "Notes"]
  | App.QuickDictate =>
      ["Work"; "Podcast Notes"; "Ideas"; "To-Do"; "Follow-ups";
       "Personal Reminder"]
  end.

(** [!defaultEmail || !/^\S+@\S+\.\S+$/.test(defaultEmail)]. *)
Definition email_refused (defaultEmail : string) : bool :=
  negb (Js.truthy defaultEmail)
  || negb (Regex.test email_pattern defaultEmail).

(** [handleSubmit]: the form afterwards, and the argument [onComplete] is
    called with, if it is called.  [QuickNotes] hands on its four default
    categories; [QuickDictate] asks for at least one selected category and
    hands on the selection. *)
Definition handleSubmit (v : App.variant) (f : form) : form * option answers :=
  if email_refused (form_defaultEmail f)
  then (setError "Please enter a valid default email address." f, None)
  else
    match v with
    | App.QuickNotes =>
        (setError "" f,
         Some {| ans_defaultEmail := form_defaultEmail f;
                 ans_otherEmails := parse_otherEmails (form_otherEmails f);
                 ans_categories := defaultCategories App.QuickNotes |})
    | App.QuickDictate =>
        match form_selectedCategories f with
        | [] => (setError "Please select at least one category." f, None)
        | _ =>
            (setError "" f,
             Some {| ans_defaultEmail := form_defaultEmail f;
                     ans_otherEmails := parse_otherEmails (form_otherEmails f);
                     ans_categories := form_selectedCategories f |})
        end
    end.

(** [handleCategoryToggle] of [QuickDictate]. *)
Definition toggle (category : string) (prev : list string) : list string :=
  if Js.includes prev category
  then filter (fun c => negb (String.eqb c category)) prev
  else (prev ++ [category])%list.

Definition handleCategoryToggle (category : string) (f : form) : form :=
  setSelectedCategories (toggle category) f.

End Onboarding.

(* ================================================================== *)
(** * App.tsx: the address menu and the audio callback *)
(* ================================================================== *)

Module AppShell.

Import Types App.

(** [[settings.defaultEmail, ...settings.otherEmails].filter(Boolean)], the
    addresses of the menu of the note card. *)
Definition allEmails (st : UserSettings) : list string :=
  filter Js.truthy (defaultEmail st :: otherEmails st).

(** What the note card can ask for: the main button calls [onEmail()], an
    entry of the menu calls [onEmail(email)]. *)
Definition card_requests (st : UserSettings) : list (option string) :=
  None :: map Some (allEmails st).

(** [onaudioprocess]: with a handle, the encoded frame is sent to the session
    of the handle once its promise has resolved; without one, nothing. *)
Definition onaudioprocess (inputData : list AudioUtils.float32) (s : state)
  : option (nat * AudioUtils.Blob) :=
  match sessionPromiseRef (refs s) with
  | Some sid => Some (sid, AudioUtils.createBlob inputData)
  | None => None
  end.

End AppShell.

(* ================================================================== *)
(** * Vocabulary for further properties *)
(* ================================================================== *)

Module Vocabulary.

Import Types App.

(** Every code unit of [s] satisfies [p]. *)
Fixpoint every (p : ascii -> bool) (s : string) : bool :=
  match s with
  | EmptyString => true
  | String c rest => p c && every p rest
  end.

(** A string that does not begin with white space. *)
Definition starts_clean (s : string) : bool :=
  match s with
  | EmptyString => true
  | String c _ => negb (Js.is_white_space c)
  end.

Definition non_space (c : ascii) : bool := negb (Js.is_white_space c).

(** A piece of an address: at least one code unit, none of them white
    space. *)
Definition solid (s : string) : Prop :=
  s <> EmptyString /\ every non_space s = true.

Definition not_comma (c : ascii) : bool := negb (Ascii.eqb c ",").

(** The events that change the saved notes, and those that move the "just
    emailed" flag. *)
Definition edits_notes (e : event) : bool :=
  match e with
  | SaveNote _ _ | DeleteSavedNote _ => true
  | _ => false
  end.

Definition onboards (e : event) : bool :=
  match e with
  | OnboardingComplete _ _ => true
  | _ => false
  end.

Definition moves_flag (e : event) : bool :=
  match e with
  | ShareNote _ _ | SaveNote _ _ | Discard => true
  | _ => false
  end.

(** [s'] is [s] but for the transcript buffer. *)
Definition same_but_buffer (s s' : state) : Prop :=
  appState (ui s') = appState (ui s)
  /\ currentNote (ui s') = currentNote (ui s)
  /\ savedNotes (ui s') = savedNotes (ui s)
  /\ error (ui s') = error (ui s)
  /\ settings (ui s') = settings (ui s)
  /\ justEmailed (ui s') = justEmailed (ui s)
  /\ refs s' = refs s
  /\ sessions s' = sessions s
  /\ contexts s' = contexts s
  /\ nodes s' = nodes s
  /\ pending s' = pending s
  /\ effects s' = effects s
  /\ mounted s' = mounted s.

(** The fragments of a list of messages, one after the other. *)
Definition heard (texts : list (option string)) : string :=
  String.concat "" (map text_or_undefined texts).

(** A character of base64 text: one of the alphabet, or the padding. *)
Definition b64_symbol (c : ascii) : bool :=
  match AudioUtils.b64_index c with
  | Some _ => true
  | None => Ascii.eqb c "="
  end.

(** The 16-bit value [createBlob] stores for a finite sample. *)
Definition pcm (q : Q) : Z :=
  AudioUtils.ToInt16 (AudioUtils.f32_mul_pow15 (AudioUtils.Finite q)).

(** What [s] has become when a click has started a recording, the
    microphone was granted and the session has opened. *)
Definition started (s : state) : state :=
  let s1 :=
    on_ui (fun r => setAppState RECORDING
                      (setCurrentTranscription (fun _ => "")
                         (setCurrentNote None (setError None r)))) s in
  let sw := start_with_stream s1 in
  onopen (set_sessions
            (update_nth (List.length (sessions s)) open_session (sessions sw))
            sw).

(** The identifiers [crypto.randomUUID()] hands out in a run, the latest
    first. *)
Fixpoint drawn (es : list event) : list string :=
  match es with
  | [] => []
  | SaveNote uuid _ :: rest => (drawn rest ++ [uuid])%list
  | _ :: rest => drawn rest
  end.

Definition ids (s : state) : list string := map id (savedNotes (ui s)).

Definition is_alert (e : effect) : bool :=
  match e with Alert _ => true | _ => false end.

(** Is the code unit before place [i] of [s] a period. *)
Definition after_period (s : string) (i : nat) : bool :=
  match i with
  | O => false
  | S j => match String.get j s with
           | Some c => Ascii.eqb c "."
           | None => false
           end
  end.

(** The text a copy of the application mails, shares and saves for a note
    under review. *)
Definition outgoing (v : variant) (note : Draft) : string :=
  match v with
  | QuickNotes => prefixed note
  | QuickDictate => draft_text note
  end.

(** The event is [onclose] of the session [sid]. *)
Definition closes (sid : nat) (e : event) : bool :=
  match e with
  | SessionClose i => Nat.eqb i sid
  | _ => false
  end.

End Vocabulary.

(* ================================================================== *)
(** * Properties of the string operations *)
(* ================================================================== *)

Section Normalization.

Import Js.

(** A strong induction on strings that lets a proof step over two code
    units at once, as [replace_dot_space] does. *)
Lemma string_ind2 (P : string -> Prop) :
  P EmptyString ->
  (forall c, P (String c EmptyString)) ->
  (forall c d s, P s -> P (String d s) -> P (String c (String d s))) ->
  forall s, P s.
Proof.
  intros H0 H1 H2.
  assert (H : forall s, P s /\ forall c, P (String c s)).
  { induction s as [|d s [IHs IHc]]; split; auto. }
  intro s; apply H.
Qed.

Lemma replace_dot_space_cons2 (c d : ascii) (s : string) :
  replace_dot_space (String c (String d s)) =
  if (Ascii.eqb c "." && Ascii.eqb d " ")%bool
  then String "." (String LF (replace_dot_space s))
  else String c (replace_dot_space (String d s)).
Proof. reflexivity. Qed.

Lemma has_dot_space_cons2 (c d : ascii) (s : string) :
  has_dot_space (String c (String d s)) =
  ((Ascii.eqb c "." && Ascii.eqb d " ") || has_dot_space (String d s))%bool.
Proof. reflexivity. Qed.

Lemma replace_dot_space_head (s : string) :
  match replace_dot_space s with
  | String c _ => exists t, s = String c t
  | EmptyString => s = EmptyString
  end.
Proof.
  destruct s as [|c [|d s]]; simpl; eauto.
  destruct (Ascii.eqb c "." && Ascii.eqb d " ")%bool eqn:E; eauto.
  apply andb_true_iff in E as [E _]. apply Ascii.eqb_eq in E. subst. eauto.
Qed.

Lemma replace_dot_space_clean (s : string) :
  has_dot_space (replace_dot_space s) = false.
Proof.
  induction s as [| c | c d s IH1 IH2] using string_ind2; try reflexivity.
  rewrite replace_dot_space_cons2.
  destruct (Ascii.eqb c "." && Ascii.eqb d " ")%bool eqn:E.
  - rewrite has_dot_space_cons2.
    replace (Ascii.eqb LF " ") with false by reflexivity.
    rewrite andb_false_r, orb_false_l.
    destruct (replace_dot_space s) as [|e t]; [reflexivity|].
    rewrite has_dot_space_cons2, IH1. reflexivity.
  - pose proof (replace_dot_space_head (String d s)) as Hh.
    destruct (replace_dot_space (String d s)) as [|d' t] eqn:Er.
    + discriminate Hh.
    + destruct Hh as [t' Ht]. injection Ht as Hd _. subst d'.
      rewrite has_dot_space_cons2, E. simpl. exact IH2.
Qed.

Lemma replace_dot_space_fixed (s : string) :
  has_dot_space s = false -> replace_dot_space s = s.
Proof.
  induction s as [| c | c d s IH1 IH2] using string_ind2; try reflexivity.
  rewrite has_dot_space_cons2, replace_dot_space_cons2. intros H.
  apply orb_false_iff in H as [E H]. rewrite E. f_equal. auto.
Qed.

(** [has_dot_space] decides the occurrence of [". "] as a substring. *)
Lemma has_dot_space_spec (s : string) :
  has_dot_space s = true <-> exists pre post, s = pre ++ ". " ++ post.
Proof.
  split.
  - induction s as [| c | c d s IH1 IH2] using string_ind2; try discriminate.
    rewrite has_dot_space_cons2. intros H. apply orb_true_iff in H as [H|H].
    + apply andb_true_iff in H as [Hc Hd].
      apply Ascii.eqb_eq in Hc, Hd. subst. exists "", s. reflexivity.
    + destruct (IH2 H) as (pre & post & E).
      exists (String c pre), post. simpl. now rewrite E.
  - intros (pre & post & ->). induction pre as [|c pre IH].
    + simpl. reflexivity.
    + change (String c pre ++ ". " ++ post) with (String c (pre ++ ". " ++ post)).
      destruct (pre ++ ". " ++ post) as [|d t] eqn:E.
      * destruct pre; discriminate.
      * rewrite has_dot_space_cons2, IH. apply orb_true_r.
Qed.

Lemma includes_In (xs : list string) (x : string) :
  includes xs x = true <-> In x xs.
Proof.
  induction xs as [|y ys IH]; simpl.
  - split; [discriminate | tauto].
  - destruct (String.eqb y x) eqn:E.
    + apply String.eqb_eq in E. tauto.
    + apply String.eqb_neq in E. rewrite IH. split; [tauto|].
      intros [H|H]; [contradiction | exact H].
Qed.

Lemma includes_not_In (xs : list string) (x : string) :
  includes xs x = false <-> ~ In x xs.
Proof.
  rewrite <- includes_In. destruct (includes xs x); split; congruence.
Qed.

End Normalization.

(* ================================================================== *)
(** * Properties of the audio frame encoder *)
(* ================================================================== *)

Section AudioFacts.

Import AudioUtils.

Lemma Z_of_byte_range (c : ascii) : 0 <= Z_of_byte c < 256.
Proof.
  unfold Z_of_byte. pose proof (Ascii.N_ascii_bounded c). lia.
Qed.

Lemma byte_of_Z_of_byte (c : ascii) : byte_of_Z (Z_of_byte c) = c.
Proof.
  unfold byte_of_Z. pose proof (Z_of_byte_range c) as H.
  rewrite Z.mod_small by exact H. unfold Z_of_byte.
  rewrite N2Z.id. apply Ascii.ascii_N_embedding.
Qed.

Lemma Z_of_byte_of_Z (n : Z) : Z_of_byte (byte_of_Z n) = n mod 256.
Proof.
  unfold byte_of_Z, Z_of_byte.
  pose proof (Z.mod_pos_bound n 256 ltac:(lia)) as H.
  rewrite Ascii.N_ascii_embedding by lia. lia.
Qed.

Lemma byte_of_Z_small (n : Z) :
  0 <= n < 256 -> Z_of_byte (byte_of_Z n) = n.
Proof. intros H. rewrite Z_of_byte_of_Z. now apply Z.mod_small. Qed.

Lemma sextets_complete (i : Z) : 0 <= i < 64 -> In i sextets.
Proof.
  intros H. unfold sextets. apply in_map_iff. exists (Z.to_nat i).
  split; [lia | apply in_seq; lia].
Qed.

Lemma b64_index_char (i : Z) :
  0 <= i < 64 ->
  b64_index (b64_char i) = Some i /\ Ascii.eqb (b64_char i) "=" = false.
Proof.
  intros H. apply sextets_complete in H. revert i H.
  apply Forall_forall. unfold sextets.
  repeat (apply Forall_cons; [split; vm_compute; reflexivity|]).
  apply Forall_nil.
Qed.

Lemma encode_loop_app (bytes binary : string) :
  encode_loop bytes binary = binary ++ bytes.
Proof.
  revert binary. induction bytes as [|b rest IH]; intros binary; simpl.
  - induction binary; simpl; congruence.
  - rewrite IH. induction binary; simpl; congruence.
Qed.

Lemma encode_is_btoa (bytes : string) : encode bytes = btoa bytes.
Proof. unfold encode. now rewrite encode_loop_app. Qed.

(** One group of three bytes survives the trip through four sextets. *)
Lemma triple_round_trip (a b c : Z) :
  0 <= a < 256 -> 0 <= b < 256 -> 0 <= c < 256 ->
  (0 <= a / 4 < 64 /\ 0 <= (a mod 4) * 16 + b / 16 < 64 /\
   0 <= (b mod 16) * 4 + c / 64 < 64 /\ 0 <= c mod 64 < 64) /\
  (a / 4) * 4 + ((a mod 4) * 16 + b / 16) / 16 = a /\
  (((a mod 4) * 16 + b / 16) mod 16) * 16 + ((b mod 16) * 4 + c / 64) / 4 = b /\
  (((b mod 16) * 4 + c / 64) mod 4) * 64 + c mod 64 = c.
Proof.
  intros Ha Hb Hc.
  repeat split; Z.div_mod_to_equations; lia.
Qed.

Lemma string_ind3 (P : string -> Prop) :
  P EmptyString ->
  (forall a, P (String a EmptyString)) ->
  (forall a b, P (String a (String b EmptyString))) ->
  (forall a b c s, P s -> P (String a (String b (String c s)))) ->
  forall s, P s.
Proof.
  intros H0 H1 H2 H3.
  assert (H : forall s, P s /\ (forall a, P (String a s)) /\
                        (forall a b, P (String a (String b s)))).
  { induction s as [|c s (IH0 & IH1 & IH2)]; repeat split; auto. }
  intro s; apply H.
Qed.

Ltac sextet_facts a b c :=
  let R := fresh "R" in
  destruct (triple_round_trip a b c) as [(R & ? & ? & ?) (? & ? & ?)];
  [ try apply Z_of_byte_range; lia .. | ].

Ltac use_index i :=
  let Hi := fresh "Hi" in let Hp := fresh "Hp" in
  destruct (b64_index_char i) as [Hi Hp]; [ assumption || lia | ];
  rewrite ?Hi, ?Hp.

Theorem atob_btoa (s : string) : atob (btoa s) = Some s.
Proof.
  induction s as [| a | a b | a b c s IH] using string_ind3.
  - reflexivity.
  - pose proof (Z_of_byte_range a) as Ha.
    sextet_facts (Z_of_byte a) 0 0.
    cbn [btoa atob].
    replace ((Z_of_byte a mod 4) * 16) with ((Z_of_byte a mod 4) * 16 + 0 / 16)
      by (change (0 / 16) with 0; lia).
    use_index (Z_of_byte a / 4).
    use_index ((Z_of_byte a mod 4) * 16 + 0 / 16).
    replace (Ascii.eqb "=" "=") with true by reflexivity.
    rewrite H2. now rewrite byte_of_Z_of_byte.
  - pose proof (Z_of_byte_range a) as Ha. pose proof (Z_of_byte_range b) as Hb.
    sextet_facts (Z_of_byte a) (Z_of_byte b) 0.
    cbn [btoa atob].
    replace ((Z_of_byte b mod 16) * 4) with ((Z_of_byte b mod 16) * 4 + 0 / 64)
      by (change (0 / 64) with 0; lia).
    use_index (Z_of_byte a / 4).
    use_index ((Z_of_byte a mod 4) * 16 + Z_of_byte b / 16).
    use_index ((Z_of_byte b mod 16) * 4 + 0 / 64).
    replace (Ascii.eqb "=" "=") with true by reflexivity.
    rewrite H2, H3. now rewrite !byte_of_Z_of_byte.
  - pose proof (Z_of_byte_range a) as Ha. pose proof (Z_of_byte_range b) as Hb.
    pose proof (Z_of_byte_range c) as Hc.
    sextet_facts (Z_of_byte a) (Z_of_byte b) (Z_of_byte c).
    cbn [btoa atob]. cbv zeta.
    use_index (Z_of_byte a / 4).
    use_index ((Z_of_byte a mod 4) * 16 + Z_of_byte b / 16).
    use_index ((Z_of_byte b mod 16) * 4 + Z_of_byte c / 64).
    use_index (Z_of_byte c mod 64).
    rewrite IH, H2, H3, H4. now rewrite !byte_of_Z_of_byte.
Qed.

(** The vectors of RFC 4648. *)
Example btoa_vectors :
  btoa "" = "" /\ btoa "f" = "Zg==" /\ btoa "fo" = "Zm8="
  /\ btoa "foo" = "Zm9v" /\ btoa "foob" = "Zm9vYg=="
  /\ btoa "fooba" = "Zm9vYmE=" /\ btoa "foobar" = "Zm9vYmFy".
Proof. repeat split; vm_compute; reflexivity. Qed.

Lemma wrap16_range (n : Z) : -32768 <= wrap16 n <= 32767.
Proof.
  unfold wrap16. pose proof (Z.mod_pos_bound n 65536 ltac:(lia)).
  destruct (32768 <=? n mod 65536) eqn:E;
    [apply Z.leb_le in E | apply Z.leb_gt in E]; lia.
Qed.

Lemma wrap16_small (n : Z) : -32768 <= n <= 32767 -> wrap16 n = n.
Proof.
  intros H. unfold wrap16.
  destruct (32768 <=? n mod 65536) eqn:E;
    [apply Z.leb_le in E | apply Z.leb_gt in E];
    Z.div_mod_to_equations; lia.
Qed.

Lemma wrap16_idem (n : Z) : wrap16 (wrap16 n) = wrap16 n.
Proof. apply wrap16_small, wrap16_range. Qed.

(** The two bytes of an element, read low byte first, give the element back
    (up to the wrap-around a 16-bit cell applies anyway). *)
Lemma int16_bytes_round_trip (x : Z) :
  wrap16 (Z_of_byte (byte_of_Z x) + 256 * Z_of_byte (byte_of_Z (x / 256)))
  = wrap16 x.
Proof.
  rewrite !Z_of_byte_of_Z. unfold wrap16.
  replace ((x mod 256 + 256 * ((x / 256) mod 256)) mod 65536)
    with (x mod 65536); [reflexivity|].
  Z.div_mod_to_equations; lia.
Qed.

Lemma int16_of_bytes_of_int16 (xs : list Z) :
  int16_of_bytes (bytes_of_int16 xs) = Some (map wrap16 xs).
Proof.
  induction xs as [|x xs IH]; [reflexivity|].
  cbn [bytes_of_int16 int16_of_bytes map].
  now rewrite IH, int16_bytes_round_trip.
Qed.

Lemma ToInt16_range (x : float32) : -32768 <= ToInt16 x <= 32767.
Proof. destruct x; simpl; [apply wrap16_range | lia]. Qed.

(** What a payload decodes to: the elements stored into the [Int16Array]. *)
Lemma decode_createBlob (samples : list float32) :
  decode_pcm (data (createBlob samples))
  = Some (map (fun x => ToInt16 (f32_mul_pow15 x)) samples).
Proof.
  unfold decode_pcm, createBlob; cbn [data].
  rewrite encode_is_btoa, atob_btoa, int16_of_bytes_of_int16, map_map.
  f_equal. apply map_ext. intros x. apply wrap16_small, ToInt16_range.
Qed.

Lemma truncate_in_range (q : Q) :
  (-1 <= q)%Q -> (q < 1)%Q -> -32768 <= truncate (q * 32768) <= 32767.
Proof.
  destruct q as [a d]. unfold Qle, Qlt, truncate. cbn. intros Hlo Hhi.
  rewrite Pos.mul_1_r.
  pose proof (Z.quot_rem' (a * 32768) (Z.pos d)) as E.
  pose proof (Z.rem_bound_abs (a * 32768) (Z.pos d) ltac:(lia)) as B.
  change (Z.abs (Z.pos d)) with (Z.pos d) in B.
  destruct (Z.nonpos_pos_cases (a * 32768)) as [Hn|Hn].
  - pose proof (Z.rem_nonpos (a * 32768) (Z.pos d) ltac:(lia) ltac:(lia)).
    nia.
  - pose proof (Z.rem_nonneg (a * 32768) (Z.pos d) ltac:(lia) ltac:(lia)).
    nia.
Qed.

Lemma truncate_top (q : Q) :
  (32767 # 32768 <= q)%Q -> (q < 1)%Q -> truncate (q * 32768) = 32767.
Proof.
  destruct q as [a d]. unfold Qle, Qlt, truncate. cbn. intros Hlo Hhi.
  rewrite Pos.mul_1_r.
  pose proof (Z.quot_rem' (a * 32768) (Z.pos d)) as E.
  pose proof (Z.rem_nonneg (a * 32768) (Z.pos d) ltac:(lia) ltac:(lia)).
  pose proof (Z.rem_bound_pos (a * 32768) (Z.pos d) ltac:(lia) ltac:(lia)).
  nia.
Qed.

End AudioFacts.

(* ================================================================== *)
(** * Properties of the controller *)
(* ================================================================== *)

(** Case analysis on everything a handler branches on. *)
Ltac split_match_in H :=
  match type of H with
  | context [match ?x with _ => _ end] => destruct x eqn:?
  | context [if ?b then _ else _] => destruct b eqn:?
  end.

Ltac handler_unfold H :=
  unfold App.step, App.resume, App.reviewing, App.shown,
    App.handleToggleRecording, App.stop_begin,
    App.start_begin, App.stop_close_session, App.stop_release_audio,
    App.stop_evaluate, App.stop_finish, App.start_with_stream,
    App.start_failed, App.share, App.handleEmailNote, App.handleShareNote,
    App.handleSaveNote, App.handleDeleteSavedNote, App.unmount, App.onopen,
    App.onmessage, App.onerror, App.suspend,
    App.handleOnboardingComplete in H.

Ltac step_cases H :=
  handler_unfold H;
  repeat (first [ discriminate H
                | split_match_in H ]);
  try (injection H as H); try (subst).

Section ControllerFacts.

Import Types GeminiService App.

(** After an event the buffer is the old one, empty, or a normalized one. *)
Lemma step_transcription (env : Env) (e : event) (s s' : state) :
  step env e s = Some s' ->
  currentTranscription (ui s') = currentTranscription (ui s)
  \/ currentTranscription (ui s') = ""
  \/ exists t, currentTranscription (ui s') = Js.replace_dot_space t.
Proof.
  intros H. step_cases H; cbn; eauto.
Qed.

Lemma run_app (env : Env) (es1 es2 : list event) (s : state) :
  run env (es1 ++ es2)%list s =
  match run env es1 s with
  | Some s1 => run env es2 s1
  | None => None
  end.
Proof.
  revert s. induction es1 as [|e es1 IH]; intros s; [reflexivity|].
  cbn [run List.app]. destruct (step env e s); auto.
Qed.

(** An invariant of the steps holds after every run. *)
Lemma run_invariant (env : Env) (P : state -> Prop) :
  (forall e s s', step env e s = Some s' -> P s -> P s') ->
  forall es s s', run env es s = Some s' -> P s -> P s'.
Proof.
  intros Hstep es. induction es as [|e es IH]; intros s s' H Hs.
  - injection H as <-. exact Hs.
  - cbn [run] in H. destruct (step env e s) as [s1|] eqn:E; [|discriminate].
    eapply IH; eauto.
Qed.

Lemma run_transcription_clean (env : Env) (es : list event) (s s' : state) :
  run env es s = Some s' ->
  Js.has_dot_space (currentTranscription (ui s)) = false ->
  Js.has_dot_space (currentTranscription (ui s')) = false.
Proof.
  apply (run_invariant env
           (fun s => Js.has_dot_space (currentTranscription (ui s)) = false)).
  intros e s1 s2 H Hs.
  destruct (step_transcription env e s1 s2 H) as [E|[E|[t E]]]; rewrite E.
  - exact Hs.
  - reflexivity.
  - apply replace_dot_space_clean.
Qed.

Lemma nth_error_update_nth {A : Type} (f : A -> A) (l : list A) (n i : nat) :
  nth_error (update_nth n f l) i =
  if Nat.eqb i n then option_map f (nth_error l i) else nth_error l i.
Proof.
  revert n i. induction l as [|x l IH]; intros [|n] [|i]; cbn; auto;
    try (destruct (Nat.eqb _ _); reflexivity).
Qed.

Lemma nth_update_nth_same {A : Type} (v d : A) (l : list A) (n : nat) :
  (n < List.length l)%nat -> nth n (update_nth n (fun _ => v) l) d = v.
Proof.
  revert n. induction l as [|x l IH]; intros [|n] H; cbn in *; try lia; auto.
  apply IH. lia.
Qed.

Lemma nth_update_nth_const {A : Type} (v : A) (l : list A) (n i : nat) :
  nth i (update_nth n (fun _ => v) l) v = v \/
  nth i (update_nth n (fun _ => v) l) v = nth i l v.
Proof.
  revert n i. induction l as [|x l IH]; intros [|n] [|i]; cbn; auto.
Qed.

Lemma length_update_nth {A : Type} (f : A -> A) (l : list A) (n : nat) :
  List.length (update_nth n f l) = List.length l.
Proof.
  revert n. induction l as [|x l IH]; intros [|n]; cbn; auto.
Qed.

(** A cell set to its default reads as the default, in range or not. *)
Lemma nth_update_nth_default {A : Type} (d : A) (l : list A) (n : nat) :
  nth n (update_nth n (fun _ => d) l) d = d.
Proof.
  revert n. induction l as [|x l IH]; intros [|n]; cbn; auto.
Qed.

Lemma nth_update_nth_default_other {A : Type} (d : A) (l : list A) (n i : nat) :
  nth i l d = d -> nth i (update_nth n (fun _ => d) l) d = d.
Proof.
  revert n i. induction l as [|x l IH]; intros [|n] [|i]; cbn; auto.
Qed.

Lemma nth_error_snoc {A : Type} (l : list A) (x : A) :
  nth_error (l ++ [x]) (List.length l) = Some x.
Proof. induction l as [|y l IH]; cbn; auto. Qed.

Lemma remove_nth_snoc {A : Type} (l : list A) (x : A) :
  remove_nth (List.length l) (l ++ [x]) = l.
Proof. induction l as [|y l IH]; cbn; congruence. Qed.

Lemma In_remove_nth {A : Type} (x : A) (l : list A) (n : nat) :
  In x (remove_nth n l) -> In x l.
Proof.
  revert n. induction l as [|y l IH]; intros [|n]; cbn; auto.
  intros [H|H]; eauto.
Qed.

(** A call that goes on hands its transcript on to what it waits for next. *)
Lemma resume_keeps_transcription (env : Env) (s s' : state) (n : nat)
    (r : settlement) (t t' : task) :
  nth_error (pending s) n = Some t ->
  step env (Resume n r) s = Some s' ->
  In t' (pending s') ->
  In t' (pending s) \/ task_transcription t' = task_transcription t.
Proof.
  intros Hn H Hin. unfold step in H. cbn [from_page andb] in H.
  rewrite Hn in H.
  assert (Hold : forall q, In t' (remove_nth n (pending s) ++ q)%list ->
                           In t' (pending s) \/ In t' q).
  { intros q Hq. apply in_app_or in Hq as [Hq|Hq]; [left|right; exact Hq].
    eapply In_remove_nth; eauto. }
  destruct t, r; cbn [resume] in H; try discriminate.
  - injection H as <-. cbn in Hin. left. eapply In_remove_nth; eauto.
  - injection H as <-. cbn in Hin. left. eapply In_remove_nth; eauto.
  - destruct (session_at _ sid) as [x|]; [|discriminate].
    destruct (resolved x); [|discriminate]. injection H as <-.
    unfold stop_close_session, stop_release_audio, stop_evaluate, suspend in Hin.
    cbn in Hin.
    repeat match type of Hin with
           | context [match ?o with Some _ => _ | None => _ end] => destruct o
           | context [if ?b then _ else _] => destruct b
           end; cbn in Hin;
      try (apply Hold in Hin as [Hin|[<-|[]]]; auto);
      left; eapply In_remove_nth; eauto.
  - injection H as <-. unfold stop_evaluate, suspend in Hin.
    destruct (0 <? String.length (Js.trim transcription))%nat; cbn in Hin;
      try (apply Hold in Hin as [Hin|[<-|[]]]; auto);
      left; eapply In_remove_nth; eauto.
  - injection H as <-. unfold stop_finish in Hin.
    destruct (categorize env g transcription cats); cbn in Hin;
      left; eapply In_remove_nth; eauto.
Qed.

(** ** The stop, one await after the other *)

Lemma step_click_stop (env : Env) (s : state) :
  mounted s = true -> shown s = true -> appState (ui s) = RECORDING ->
  step env Click s = Some (stop_begin s).
Proof.
  intros Hm Hs Ha. unfold step, handleToggleRecording. now rewrite Hm, Hs, Ha.
Qed.

(** The call that was suspended last goes on where it waited. *)
Lemma step_resume_suspended (env : Env) (t : task) (r : settlement)
    (s : state) :
  mounted s = true ->
  step env (Resume (List.length (pending s)) r) (suspend t s)
  = resume env t r s.
Proof.
  intros Hm. destruct s as [u h ss cs ns p fx mt]. cbn in Hm. subst mt.
  unfold step, suspend, set_pending. cbn.
  now rewrite nth_error_snoc, remove_nth_snoc.
Qed.

Lemma stop_evaluate_nonblank (tr : string) (cats : list string) (s : state) :
  (0 < String.length (Js.trim tr))%nat ->
  stop_evaluate tr cats s = suspend (StopAwaitCategorize tr cats) s.
Proof.
  intros H. apply Nat.ltb_lt in H. unfold stop_evaluate. now rewrite H.
Qed.

Lemma run_release_audio (env : Env) (tr : string) (cats : list string)
    (s : state) :
  mounted s = true ->
  (0 < String.length (Js.trim tr))%nat ->
  run env
    match audioContextRef (refs s), scriptProcessorRef (refs s),
          mediaStreamSourceRef (refs s) with
    | Some ctx, Some _, Some _ =>
        if context_closed s ctx then []
        else [Resume (List.length (pending s)) ContextClosed]
    | _, _, _ => []
    end
    (stop_release_audio tr cats s)
  = Some (suspend (StopAwaitCategorize tr cats) (release_audio s)).
Proof.
  intros Hm Hnb. unfold stop_release_audio, release_audio.
  destruct (audioContextRef (refs s)) as [c|];
    [|cbn [run]; now rewrite stop_evaluate_nonblank].
  destruct (scriptProcessorRef (refs s)) as [pn|];
    [|cbn [run]; now rewrite stop_evaluate_nonblank].
  destruct (mediaStreamSourceRef (refs s)) as [mn|];
    [|cbn [run]; now rewrite stop_evaluate_nonblank].
  cbv zeta.
  set (s1 := set_nodes _ s).
  change (context_closed s1 c) with (context_closed s c).
  destruct (context_closed s c).
  - cbn [run]. now rewrite stop_evaluate_nonblank.
  - cbn [run].
    change (List.length (pending s)) with (List.length (pending s1)).
    rewrite step_resume_suspended by exact Hm.
    cbn [resume]. now rewrite stop_evaluate_nonblank.
Qed.

Lemma run_stop_cleanup (env : Env) (s : state) :
  mounted s = true ->
  shown s = true ->
  appState (ui s) = RECORDING ->
  (forall sid, sessionPromiseRef (refs s) = Some sid ->
     exists x, session_at s sid = Some x /\ resolved x = true) ->
  (0 < String.length (Js.trim (currentTranscription (ui s))))%nat ->
  run env (stop_cleanup_events s) s
  = Some (suspend (StopAwaitCategorize (currentTranscription (ui s))
                     (categories (settings (ui s))))
            (released s)).
Proof.
  intros Hm Hsh Ha Hres Hnb.
  unfold stop_cleanup_events, released. cbv zeta. cbn [run].
  rewrite (step_click_stop env s Hm Hsh Ha). unfold stop_begin. cbv zeta.
  set (s1 := on_ui (setAppState PROCESSING) s).
  set (tr := currentTranscription (ui s)) in *.
  set (cats := categories (settings (ui s))).
  unfold close_handle.
  change (sessionPromiseRef (refs s1)) with (sessionPromiseRef (refs s)).
  destruct (sessionPromiseRef (refs s)) as [sid|] eqn:Es.
  - destruct (Hres sid eq_refl) as (x & Hx & Hr).
    cbn [List.app run].
    change (List.length (pending s)) with (List.length (pending s1)).
    rewrite step_resume_suspended by exact Hm.
    cbn [resume]. change (session_at s1 sid) with (session_at s sid).
    rewrite Hx, Hr. unfold stop_close_session.
    exact (run_release_audio env tr cats
             (set_sessionPromiseRef None
                (set_sessions (update_nth sid close_session (sessions s1)) s1))
             Hm Hnb).
  - cbn [List.app]. exact (run_release_audio env tr cats s1 Hm Hnb).
Qed.

Lemma released_frame (s : state) :
  pending (released s) = pending s
  /\ mounted (released s) = mounted s
  /\ ui (released s) = setAppState PROCESSING (ui s)
  /\ effects (released s) = effects s.
Proof.
  unfold released, release_audio, close_handle.
  destruct s as [u [sp ac pr ms] ss cs ns p fx mt]. cbn.
  destruct sp as [sid|], ac as [c|], pr, ms; cbn; auto;
    destruct (nth c cs true); cbn; auto.
Qed.

Lemma released_cleanup_done (s : state) :
  (forall sid, sessionPromiseRef (refs s) = Some sid ->
     exists x, session_at s sid = Some x) ->
  cleanup_done s (released s).
Proof.
  intros Hres. unfold cleanup_done, released, release_audio, close_handle.
  destruct s as [u [sp ac pr ms] ss cs ns p fx mt].
  unfold node_connected, session_at, context_closed in *. cbn in Hres |- *.
  assert (Hclosed : forall sid, sp = Some sid ->
             exists x0,
               nth_error (update_nth sid close_session ss) sid = Some x0
               /\ session_open x0 = false).
  { intros sid E. destruct (Hres sid E) as [x Hx].
    rewrite nth_error_update_nth, Nat.eqb_refl, Hx. cbn.
    eexists. split; [reflexivity|].
    unfold session_open. cbn. destruct (status x); reflexivity. }
  destruct sp as [sid|], ac as [c|], pr as [pn|], ms as [mn|]; cbn;
    try (destruct (nth c cs true) eqn:Hc; cbn);
    (split; [reflexivity|]);
    (split; [intros ? [= <-]; auto|]);
    try (intros ? ? ? [= <-] [= <-] [= <-]);
    try (intros; discriminate);
    repeat split;
    auto using nth_update_nth_default_other, nth_update_nth_default.
Qed.

(** ** Sessions and the handle *)

Lemma only_open_update (f : session -> session) (l : list session)
    (n : nat) (k : option nat) :
  only_open_at l k ->
  (forall x, nth_error l n = Some x ->
             session_open (f x) = true -> session_open x = true) ->
  only_open_at (update_nth n f l) k.
Proof.
  intros H Hf sid x Hx Ho. rewrite nth_error_update_nth in Hx.
  destruct (Nat.eqb_spec sid n) as [->|Hne].
  - destruct (nth_error l n) as [y|] eqn:Ey; [|discriminate].
    injection Hx as <-. eapply H; eauto.
  - eapply H; eauto.
Qed.

Lemma only_open_close (l : list session) (n : nat) (k : option nat) :
  only_open_at l (Some n) ->
  only_open_at (update_nth n close_session l) k.
Proof.
  intros H sid x Hx Ho. rewrite nth_error_update_nth in Hx.
  destruct (Nat.eqb_spec sid n) as [->|Hne].
  - destruct (nth_error l n) as [y|]; [|discriminate].
    injection Hx as <-. unfold session_open, close_session in Ho. cbn in Ho.
    destruct (status y); discriminate.
  - specialize (H sid x Hx Ho). congruence.
Qed.

Lemma only_open_new (l : list session) :
  only_open_at l None ->
  only_open_at (l ++ [new_session]) (Some (List.length l)).
Proof.
  intros H sid x Hx Ho.
  destruct (Nat.lt_ge_cases sid (List.length l)) as [Hlt|Hge].
  - rewrite nth_error_app1 in Hx by exact Hlt. discriminate (H sid x Hx Ho).
  - rewrite nth_error_app2 in Hx by exact Hge.
    destruct (sid - List.length l)%nat as [|d] eqn:E.
    + f_equal. lia.
    + destruct d; discriminate.
Qed.

Lemma only_open_none (l : list session) (k k' : option nat) :
  only_open_at l k -> k = None -> only_open_at l k'.
Proof. intros H -> sid x Hx Ho. discriminate (H sid x Hx Ho). Qed.

Lemma stop_tracks_not_open (x : session) :
  session_open (stop_tracks x) = true -> session_open x = true.
Proof. discriminate. Qed.

Lemma resolve_session_was_open (x : session) :
  status x = Connecting -> session_open (resolve_session x) = true ->
  session_open x = true.
Proof. intros E _. unfold session_open. now rewrite E. Qed.

Lemma close_or_mark_not_opening (x : session) :
  session_open
    (if resolved x then close_session x
     else {| status := status x; resolved := resolved x;
             microphone_live := microphone_live x;
             close_when_resolved := true |}) = true ->
  session_open x = true.
Proof.
  destruct (resolved x); unfold session_open, close_session; cbn;
    destruct (status x); auto.
Qed.

Lemma AppState_eqb_eq (a b : AppState) : AppState_eqb a b = true <-> a = b.
Proof. destruct a, b; cbn; split; congruence. Qed.

Lemma step_handle_agrees (env : Env) (e : event) (s s' : state) :
  orderly s e = true -> step env e s = Some s' ->
  handle_agrees s -> handle_agrees s'.
Proof.
  intros Ho H [Hopen Hwait].
  destruct s as [u r ss cs ns p fx mt]. destruct u as [a tr cn sn er st je].
  destruct r as [sp ac pr ms].
  unfold handle_agrees, waiting_agrees, quiescent in *. cbn in Hopen, Hwait.
  destruct e; cbn in Ho; try discriminate Ho.
  - (* Click *)
    destruct p; [|discriminate]. clear Ho.
    step_cases H; cbn in *; split; cbn; auto; try tauto.
    all: try (split; congruence).
    split; [reflexivity|]. destruct sp; [|reflexivity].
    assert (a = RECORDING) by (apply Hwait; discriminate). subst. discriminate.
  - (* Resume *)
    unfold step in H. cbn in H.
    destruct p as [|t [|t' p]];
      [destruct n; discriminate | | destruct t; contradiction].
    destruct n as [|n]; [|destruct n; discriminate]. cbn in H.
    destruct t, r; cbn in H; try discriminate; destruct Hwait as [Ha Hs]; subst.
    + injection H as <-. cbn. split; [apply only_open_new; exact Hopen|].
      split; [reflexivity | discriminate].
    + injection H as <-. cbn. split; [exact Hopen|].
      split; [congruence | discriminate].
    + step_cases H; cbn; (split; [apply only_open_close; exact Hopen|]);
        cbn; auto; split; congruence.
    + step_cases H; cbn; (split; [exact Hopen|]); cbn; auto; split; congruence.
    + injection H as <-. unfold stop_finish.
      destruct (categorize env g transcription cats); cbn;
        (split; [exact Hopen|]); split; congruence.
  - (* SessionOpen *)
    step_cases H; cbn in *; unfold session_at in *; cbn in *;
      (split; [|exact Hwait]);
      (apply only_open_update; [exact Hopen|]);
      intros x Hx; rewrite Hx in *;
      match goal with E : Some _ = Some _ |- _ => injection E as -> end;
      now apply resolve_session_was_open.
  - (* Message *)
    step_cases H; cbn in *; (split; [exact Hopen | exact Hwait]).
  - (* SessionClose *)
    step_cases H; cbn in *; (split; [|exact Hwait]);
      (apply only_open_update; [exact Hopen|]);
      intros x Hx; apply stop_tracks_not_open.
  - (* SaveNote *)
    unfold step, reviewing, shown in H. cbn in H.
    destruct (negb mt); [discriminate|].
    destruct (onboardingComplete st); [|discriminate].
    destruct (AppState_eqb a REVIEW) eqn:Ea; [|discriminate].
    apply AppState_eqb_eq in Ea. subst a.
    destruct cn as [note|]; [|discriminate]. injection H as <-.
    unfold handleSaveNote. cbn. split; [exact Hopen|].
    destruct p as [|t [|t' p]]; try (destruct t; cbn in Hwait; intuition congruence).
    split; [intros N; apply Hwait in N; discriminate | discriminate].
  - (* ShareNote *)
    unfold step, reviewing, shown in H. cbn in H.
    destruct (negb mt); [discriminate|].
    destruct (onboardingComplete st); [|discriminate].
    destruct (AppState_eqb a REVIEW) eqn:Ea; [|discriminate].
    destruct cn as [note|]; [|discriminate]. injection H as <-.
    unfold share, handleEmailNote, handleShareNote. cbn.
    destruct (app env); cbn;
      repeat match goal with |- context [if ?b then _ else _] => destruct b end;
      cbn; (split; [exact Hopen | exact Hwait]).
  - (* Discard *)
    unfold step, reviewing, shown in H. cbn in H.
    destruct (negb mt); [discriminate|].
    destruct (onboardingComplete st); [|discriminate].
    destruct (AppState_eqb a REVIEW) eqn:Ea; [|discriminate].
    apply AppState_eqb_eq in Ea. subst a.
    destruct cn as [note|]; [|discriminate]. injection H as <-.
    cbn. split; [exact Hopen|].
    destruct p as [|t [|t' p]]; try (destruct t; cbn in Hwait; intuition congruence).
    split; [intros N; apply Hwait in N; discriminate | discriminate].
  - (* DeleteSavedNote *)
    step_cases H; cbn in *; (split; [exact Hopen | exact Hwait]).
  - (* OnboardingComplete *)
    step_cases H; cbn in *; (split; [exact Hopen | exact Hwait]).
  - (* Unmount *)
    unfold step in H. cbn in H. destruct (negb mt); [discriminate|].
    injection H as <-. unfold unmount. cbn.
    destruct sp as [sid|], ac as [c|]; cbn;
      try destruct (nth c cs true); cbn;
      (split; [|exact Hwait]); try exact Hopen;
      (apply only_open_update; [exact Hopen|]);
      intros x _; apply close_or_mark_not_opening.
Qed.

Lemma orderly_run_handle_agrees (env : Env) (es : list event) (s s' : state) :
  orderly_run env es s = Some s' -> handle_agrees s -> handle_agrees s'.
Proof.
  revert s. induction es as [|e es IH]; intros s H Hs.
  - injection H as <-. exact Hs.
  - cbn [orderly_run] in H. destruct (orderly s e) eqn:Ho; [|discriminate].
    destruct (step env e s) as [s1|] eqn:E; [|discriminate].
    eapply IH; eauto using step_handle_agrees.
Qed.

Lemma initial_handle_agrees (st : UserSettings) (notes : list Note) :
  handle_agrees (initial st notes).
Proof.
  split.
  - intros [|sid] x Hx; discriminate Hx.
  - cbn. split; [congruence | discriminate].
Qed.

(** An orderly run is a run. *)
Lemma orderly_run_is_run (env : Env) (es : list event) (s s' : state) :
  orderly_run env es s = Some s' -> run env es s = Some s'.
Proof.
  revert s. induction es as [|e es IH]; intros s H; [exact H|].
  cbn [orderly_run run] in *. destruct (orderly s e); [|discriminate].
  destruct (step env e s); [auto | discriminate].
Qed.

(** The copy that keeps text and category apart saves the text of the note
    under review as it is. *)
Lemma handleSaveNote_QuickDictate_text (s : state) (note : Draft)
    (uuid : string) (now : Z) :
  currentNote (ui s) = Some note ->
  exists saved,
    savedNotes (ui (handleSaveNote QuickDictate uuid now s))
    = saved :: savedNotes (ui s)
    /\ text saved = draft_text note
    /\ category saved = draft_category note.
Proof.
  intros Hn. unfold handleSaveNote. rewrite Hn. eexists. cbn. repeat split.
Qed.

(** Deleting an identifier no saved note has leaves the sequence as it is. *)
Lemma handleDeleteSavedNote_absent (s : state) (id0 : string) :
  ~ In id0 (map id (savedNotes (ui s))) ->
  savedNotes (ui (handleDeleteSavedNote id0 s)) = savedNotes (ui s).
Proof.
  intros H. unfold handleDeleteSavedNote. cbn.
  induction (savedNotes (ui s)) as [|n l IH]; [reflexivity|].
  cbn in H |- *. destruct (String.eqb (id n) id0) eqn:E.
  - apply String.eqb_eq in E. tauto.
  - cbn. rewrite IH; tauto.
Qed.

End ControllerFacts.

(* ================================================================== *)
(** * Properties of the grouping and of the sort *)
(* ================================================================== *)

Section GroupingFacts.

Import Types SavedNotesList.

Lemma lookup_push_own (acc : groups) (note : Note) (c : string) :
  lookup (push_own acc note) c =
  if in_category c note then grown (lookup acc c) [note] else lookup acc c.
Proof.
  unfold in_category.
  induction acc as [|[k ns] rest IH]; cbn [push_own lookup].
  - destruct (String.eqb (category note) c); reflexivity.
  - destruct (String.eqb k (category note)) eqn:Ek; cbn [lookup].
    + apply String.eqb_eq in Ek. subst k.
      destruct (String.eqb (category note) c); reflexivity.
    + destruct (String.eqb k c) eqn:Ec; [|exact IH].
      apply String.eqb_eq in Ec. subst k. now rewrite String.eqb_sym, Ek.
Qed.

Lemma grown_grown (old : option (list Note)) (a b : list Note) :
  grown (grown old a) b = grown old (a ++ b).
Proof.
  destruct old as [ns|], a as [|x a], b as [|y b]; cbn;
    rewrite ?app_nil_r, <- ?app_assoc; reflexivity.
Qed.

Lemma lookup_fold_push (notes : list Note) (acc : groups) (c : string) :
  lookup (fold_left push_own notes acc) c
  = grown (lookup acc c) (filter (in_category c) notes).
Proof.
  revert acc. induction notes as [|n notes IH]; intros acc; cbn [fold_left filter].
  - destruct (lookup acc c); cbn; now rewrite ?app_nil_r.
  - rewrite IH, lookup_push_own.
    destruct (in_category c n).
    + rewrite grown_grown. reflexivity.
    + reflexivity.
Qed.

Lemma lookup_keys (g : groups) (c : string) :
  In c (own_keys g) <-> lookup g c <> None.
Proof.
  unfold own_keys. induction g as [|[k ns] rest IH]; cbn [map lookup In fst].
  - tauto.
  - destruct (String.eqb k c) eqn:E.
    + apply String.eqb_eq in E. split; [discriminate | now left].
    + apply String.eqb_neq in E. rewrite <- IH. tauto.
Qed.

Lemma keys_push_own (acc : groups) (note : Note) :
  own_keys (push_own acc note) =
  if Js.includes (own_keys acc) (category note) then own_keys acc
  else (own_keys acc ++ [category note])%list.
Proof.
  unfold own_keys. induction acc as [|[k ns] rest IH]; [reflexivity|].
  cbn [push_own map fst Js.includes].
  destruct (String.eqb k (category note)); [reflexivity|].
  cbn [map fst]. rewrite IH.
  destruct (Js.includes (map fst rest) (category note)); reflexivity.
Qed.

Lemma keys_fold_NoDup (notes : list Note) (acc : groups) :
  NoDup (own_keys acc) ->
  NoDup (own_keys (fold_left push_own notes acc)).
Proof.
  revert acc. induction notes as [|n notes IH]; intros acc H; [exact H|].
  cbn [fold_left]. apply IH. rewrite keys_push_own.
  destruct (Js.includes (own_keys acc) (category n)) eqn:E; [exact H|].
  apply includes_not_In in E.
  apply NoDup_app; [exact H | repeat constructor; intros [] |].
  intros x Hx [<-|[]]. contradiction.
Qed.


(** ** The reducer and the prototype *)

(** Without a category that names an inherited property the reducer never
    throws, and only pushes. *)
Lemma reduce_plain (notes : list Note) (acc : groups) :
  Forall (fun n => inherited (category n) = false) notes ->
  reduce notes acc = Normal (fold_left push_own notes acc).
Proof.
  intros H. revert acc. induction H as [|n notes Hn _ IH]; intros acc.
  - reflexivity.
  - cbn [reduce fold_left]. unfold push_note. rewrite Hn.
    destruct (lookup acc (category n)); apply IH.
Qed.

Lemma push_own_keeps_plain (acc : groups) (n : Note) :
  inherited (category n) = false ->
  Forall (fun k => inherited k = false) (own_keys acc) ->
  Forall (fun k => inherited k = false) (own_keys (push_own acc n)).
Proof.
  intros Hn H. rewrite keys_push_own.
  destruct (Js.includes (own_keys acc) (category n)); [exact H|].
  apply Forall_app. split; [exact H | repeat constructor; exact Hn].
Qed.

(** With such a category it throws: the name is never made an own
    property, so the read always reaches the prototype. *)
Lemma reduce_throws (notes : list Note) (acc : groups) :
  Forall (fun k => inherited k = false) (own_keys acc) ->
  Exists (fun n => inherited (category n) = true) notes ->
  reduce notes acc = TypeError.
Proof.
  intros Hacc H. revert acc Hacc.
  induction notes as [|n notes IH]; intros acc Hacc; [inversion H|].
  cbn [reduce]. unfold push_note.
  destruct (inherited (category n)) eqn:Hn.
  - destruct (lookup acc (category n)) eqn:El; [|reflexivity].
    exfalso. assert (Hin : In (category n) (own_keys acc)).
    { apply lookup_keys. congruence. }
    rewrite Forall_forall in Hacc. apply Hacc in Hin. congruence.
  - assert (Hrest : Exists (fun n => inherited (category n) = true) notes).
    { inversion H; subst; [congruence | assumption]. }
    destruct (lookup acc (category n));
      apply IH; auto using push_own_keeps_plain.
Qed.

(** ** The order of the keys *)

Lemma insert_ascending_perm (k : string) (l : list string) :
  Permutation (insert_ascending k l) (k :: l).
Proof.
  induction l as [|y l IH]; cbn [insert_ascending]; [apply Permutation_refl|].
  destruct (index_ltb k y); [apply Permutation_refl|].
  eapply Permutation_trans; [apply perm_skip, IH | apply perm_swap].
Qed.

Lemma ascending_perm (ks : list string) : Permutation (ascending ks) ks.
Proof.
  induction ks as [|k ks IH]; cbn; [constructor|].
  eapply Permutation_trans; [apply insert_ascending_perm|].
  now apply perm_skip.
Qed.

Lemma Object_keys_perm (g : groups) : Permutation (Object_keys g) (own_keys g).
Proof.
  unfold Object_keys.
  eapply Permutation_trans;
    [apply Permutation_app_tail, ascending_perm|].
  induction (own_keys g) as [|k ks IH]; [constructor|].
  cbn [filter]. destruct (is_index k); cbn [negb List.app].
  - now apply perm_skip.
  - rewrite <- Permutation_middle. now apply perm_skip.
Qed.




Lemma filter_in_category_nonempty (notes : list Note) (c : string) :
  filter (in_category c) notes <> [] <-> In c (map category notes).
Proof.
  induction notes as [|n notes IH]; cbn [filter map In].
  - tauto.
  - unfold in_category at 1. destruct (String.eqb (category n) c) eqn:E.
    + apply String.eqb_eq in E. split; [now left | discriminate].
    + apply String.eqb_neq in E. rewrite IH. tauto.
Qed.

(** ** The sort *)

Lemma indexOf_from_absent (xs : list string) (x : string) (i : Z) :
  0 <= i ->
  (Js.indexOf_from xs x i = -1 <-> Js.includes xs x = false)
  /\ (Js.indexOf_from xs x i = -1 \/ i <= Js.indexOf_from xs x i).
Proof.
  revert i. induction xs as [|y ys IH]; intros i Hi; cbn.
  - intuition.
  - destruct (String.eqb y x).
    + split; [split; [lia | discriminate] | right; lia].
    + destruct (IH (i + 1) ltac:(lia)) as [H1 H2]. split; [exact H1 | lia].
Qed.

Lemma rank_listed (c : string) :
  (rank c = -1 <-> listed c = false) /\ (rank c = -1 \/ 0 <= rank c).
Proof. apply indexOf_from_absent. lia. Qed.

Lemma compare_unlisted (x y : string) :
  listed x = false -> (compareCategories x y <? 0) = false.
Proof.
  intros H. apply rank_listed in H. unfold compareCategories.
  fold (rank x). rewrite H. reflexivity.
Qed.

Lemma compare_listed_unlisted (x y : string) :
  listed x = true -> listed y = false -> (compareCategories x y <? 0) = true.
Proof.
  intros Hx Hy. apply rank_listed in Hy. unfold compareCategories.
  fold (rank x) (rank y). rewrite Hy.
  destruct (rank x =? -1) eqn:E; [|reflexivity].
  apply Z.eqb_eq, rank_listed in E. congruence.
Qed.

Lemma compare_listed (x y : string) :
  listed x = true -> listed y = true ->
  (compareCategories x y <? 0) = (rank x <? rank y).
Proof.
  intros Hx Hy. unfold compareCategories. fold (rank x) (rank y).
  destruct (rank x =? -1) eqn:Ex.
  { apply Z.eqb_eq, rank_listed in Ex. congruence. }
  destruct (rank y =? -1) eqn:Ey.
  { apply Z.eqb_eq, rank_listed in Ey. congruence. }
  destruct (rank x <? rank y) eqn:E;
    [apply Z.ltb_lt in E; apply Z.ltb_lt | apply Z.ltb_ge in E; apply Z.ltb_ge];
    lia.
Qed.

Lemma sort_insert_unlisted (x : string) (l : list string) :
  listed x = false -> sort_insert compareCategories x l = (l ++ [x])%list.
Proof.
  intros H. induction l as [|y l IH]; [reflexivity|].
  cbn [sort_insert List.app]. rewrite (compare_unlisted x y H). now rewrite IH.
Qed.

Lemma sort_insert_listed (x : string) (L U : list string) :
  listed x = true ->
  Forall (fun c => listed c = true) L ->
  Forall (fun c => listed c = false) U ->
  StronglySorted by_rank L ->
  exists L',
    sort_insert compareCategories x (L ++ U) = (L' ++ U)%list
    /\ Forall (fun c => listed c = true) L'
    /\ StronglySorted by_rank L'
    /\ Permutation L' (L ++ [x])%list.
Proof.
  intros Hx HL HU HS. induction L as [|y L IH].
  - exists [x]. repeat split; auto using SSorted_cons, SSorted_nil.
    cbn [List.app]. destruct U as [|u U]; [reflexivity|].
    cbn [sort_insert]. inversion HU; subst.
    now rewrite compare_listed_unlisted.
  - inversion HL as [|? ? Hy HL']; subst.
    inversion HS as [|? ? HS' Hle]; subst.
    cbn [List.app sort_insert]. rewrite (compare_listed x y Hx Hy).
    destruct (rank x <? rank y) eqn:E.
    + apply Z.ltb_lt in E. exists (x :: y :: L). repeat split; auto.
      * apply SSorted_cons; [exact HS|].
        constructor; [unfold by_rank; lia|].
        eapply Forall_impl; [|exact Hle]. unfold by_rank. intros; lia.
      * change (x :: y :: L) with ([x] ++ (y :: L))%list.
        apply Permutation_app_comm.
    + apply Z.ltb_ge in E.
      destruct (IH HL' HS') as (L' & E' & HL'' & HS'' & HP).
      exists (y :: L'). rewrite E'. repeat split; auto.
      * apply SSorted_cons; [exact HS''|].
        apply Forall_forall. intros z Hz.
        apply (Permutation_in _ HP) in Hz. apply in_app_or in Hz.
        destruct Hz as [Hz|[<-|[]]]; [|exact E].
        rewrite Forall_forall in Hle. now apply Hle.
Qed.

Lemma sort_fold_shape (xs L U : list string) :
  Forall (fun c => listed c = true) L ->
  Forall (fun c => listed c = false) U ->
  StronglySorted by_rank L ->
  exists L',
    fold_left (fun sorted x => sort_insert compareCategories x sorted) xs
      (L ++ U)%list
    = (L' ++ U ++ filter (fun c => negb (listed c)) xs)%list
    /\ Forall (fun c => listed c = true) L'
    /\ StronglySorted by_rank L'
    /\ Permutation L' (L ++ filter listed xs)%list.
Proof.
  revert L U. induction xs as [|x xs IH]; intros L U HL HU HS.
  - exists L. cbn. rewrite !app_nil_r. auto.
  - cbn [fold_left filter]. destruct (listed x) eqn:Hx; cbn [negb].
    + destruct (sort_insert_listed x L U Hx HL HU HS)
        as (L1 & E1 & HL1 & HS1 & HP1).
      rewrite E1. destruct (IH L1 U HL1 HU HS1) as (L' & E' & HL' & HS' & HP').
      exists L'. repeat split; auto.
      rewrite HP'. rewrite HP1. rewrite <- app_assoc. reflexivity.
    + rewrite sort_insert_unlisted by exact Hx. rewrite <- app_assoc.
      destruct (IH L (U ++ [x])%list HL) as (L' & E' & HL' & HS' & HP'); auto.
      { apply Forall_app. split; [exact HU | repeat constructor; exact Hx]. }
      exists L'. rewrite E', <- app_assoc. auto.
Qed.

Lemma sort_shape (xs : list string) :
  exists L,
    sort compareCategories xs
    = (L ++ filter (fun c => negb (listed c)) xs)%list
    /\ Forall (fun c => listed c = true) L
    /\ StronglySorted by_rank L
    /\ Permutation L (filter listed xs).
Proof.
  destruct (sort_fold_shape xs [] [] (Forall_nil _) (Forall_nil _)
              (SSorted_nil _)) as (L & E & H).
  exists L. split; [exact E | exact H].
Qed.

Lemma filter_partition_perm {A : Type} (f : A -> bool) (l : list A) :
  Permutation (filter f l ++ filter (fun x => negb (f x)) l)%list l.
Proof.
  induction l as [|x l IH]; [constructor|].
  cbn [filter]. destruct (f x); cbn [negb List.app].
  - now apply perm_skip.
  - rewrite <- Permutation_middle. now apply perm_skip.
Qed.




End GroupingFacts.

(* ================================================================== *)
(** * The audio frame encoder: what a payload carries *)
(* ================================================================== *)

Section EncoderClaims.

Import AudioUtils.

(** C6, as the code has it.  A frame of zeros decodes to zeros; every frame
    decodes to its samples converted one by one, a finite sample [s] giving
    [s * 32768] truncated toward zero (not rounded) and wrapped to 16 bits,
    a non-finite one giving [0]; the payload is the base64 text of the
    little-endian bytes and is tagged [audio/pcm;rate=16000].  For
    [-1 <= q < 1] nothing wraps and the value is the truncation itself, and
    from [32767/32768] up to (excluding) [1] it is [32767], the largest
    16-bit value. *)
Theorem createBlob_truncates_then_wraps
    (samples : list float32) (n : nat) (q : Q) :
  (-1 <= q)%Q -> (q < 1)%Q ->
  decode_pcm (data (createBlob (repeat (Finite 0) n))) = Some (repeat 0 n)
  /\ decode_pcm (data (createBlob samples))
     = Some (map (fun x => match x with
                           | Finite s => wrap16 (truncate (s * 32768))
                           | NotFinite => 0
                           end) samples)
  /\ data (createBlob samples)
     = btoa (bytes_of_int16 (map (fun x => ToInt16 (f32_mul_pow15 x)) samples))
  /\ mimeType (createBlob samples) = "audio/pcm;rate=16000"
  /\ ToInt16 (f32_mul_pow15 (Finite q)) = truncate (q * 32768)
  /\ -32768 <= truncate (q * 32768) <= 32767
  /\ ((32767 # 32768 <= q)%Q -> ToInt16 (f32_mul_pow15 (Finite q)) = 32767).
Proof.
  intros Hlo Hhi.
  pose proof (truncate_in_range q Hlo Hhi) as Hr.
  repeat split; try apply Hr.
  - rewrite decode_createBlob. f_equal.
    induction n as [|n IH]; [reflexivity|]. cbn [repeat map]. now rewrite IH.
  - rewrite decode_createBlob. f_equal. apply map_ext. now intros [s|].
  - unfold createBlob; cbn [data]. apply encode_is_btoa.
  - cbn [f32_mul_pow15 ToInt16]. now apply wrap16_small.
  - intros Htop. cbn [f32_mul_pow15 ToInt16].
    rewrite (truncate_top q Htop Hhi). reflexivity.
Qed.

Lemma createBlob_truncates_then_wraps_witness :
  decode_pcm (data (createBlob [Finite (1 # 2); Finite (-1); NotFinite]))
  = Some [16384; -32768; 0]
  /\ ToInt16 (f32_mul_pow15 (Finite (32767 # 32768))) = 32767.
Proof.
  destruct (createBlob_truncates_then_wraps
              [Finite (1 # 2); Finite (-1); NotFinite] 3 (32767 # 32768))
    as (_ & Hd & _ & _ & _ & _ & Htop).
  - unfold Qle; simpl; lia.
  - unfold Qlt; simpl; lia.
  - split.
    + rewrite Hd. reflexivity.
    + apply Htop. unfold Qle; simpl; lia.
Defined.

(** C6, as stated, fails: the sample [1.0] is stored as [-32768], the
    smallest 16-bit value, and [3/65536] (that is [1.5] after scaling) is
    stored as [1] where rounding gives [2]. *)
Lemma createBlob_full_scale_wraps :
  decode_pcm (data (createBlob [Finite 1])) = Some [-32768]
  /\ ToInt16 (f32_mul_pow15 (Finite 1)) <> 32767
  /\ ToInt16 (f32_mul_pow15 (Finite (3 # 65536))) = 1
  /\ spec_pcm_of_sample (3 # 65536) = 2.
Proof.
  repeat split; try (vm_compute; reflexivity).
  vm_compute. discriminate.
Qed.

End EncoderClaims.

(* ================================================================== *)
(** * The transcript buffer *)
(* ================================================================== *)

Section TranscriptClaims.

Import Types App.

(** C5.  After a fragment is taken in, and after every run of the
    application from its mounting, the transcript buffer has no period
    followed by a space; the rewrite leaves a text without such a pair as it
    is, so applying it twice is applying it once; and ["Hello. World"]
    becomes ["Hello."], a line feed, ["World"]. *)
Theorem transcript_normalized :
  (forall (s : state) (text : option string) (pre post : string),
      currentTranscription (ui (onmessage (Some text) s))
      <> pre ++ ". " ++ post)
  /\ (forall (env : Env) (st : UserSettings) (notes : list Note)
             (es : list event) (s : state) (pre post : string),
         run env es (initial st notes) = Some s ->
         currentTranscription (ui s) <> pre ++ ". " ++ post)
  /\ (forall t : string,
         (forall pre post, t <> pre ++ ". " ++ post) ->
         Js.replace_dot_space t = t)
  /\ (forall t : string,
         Js.replace_dot_space (Js.replace_dot_space t) = Js.replace_dot_space t)
  /\ Js.replace_dot_space "Hello. World"
     = "Hello." ++ String Js.LF "World".
Proof.
  assert (clean : forall t, Js.has_dot_space t = false ->
                            forall pre post, t <> pre ++ ". " ++ post).
  { intros t Ht pre post E.
    assert (Js.has_dot_space t = true) by (apply has_dot_space_spec; eauto).
    congruence. }
  assert (fixed : forall t, (forall pre post, t <> pre ++ ". " ++ post) ->
                            Js.has_dot_space t = false).
  { intros t Ht. destruct (Js.has_dot_space t) eqn:E; [|reflexivity].
    apply has_dot_space_spec in E as (pre & post & E). now destruct (Ht pre post). }
  repeat split.
  - intros s text. apply clean. cbn. apply replace_dot_space_clean.
  - intros env st notes es s pre post H. apply clean.
    apply (run_transcription_clean env es _ _ H). reflexivity.
  - intros t Ht. apply replace_dot_space_fixed, fixed, Ht.
  - intros t. apply replace_dot_space_fixed, replace_dot_space_clean.
Qed.

Lemma transcript_normalized_witness :
  ~ exists pre post : string,
      "one." ++ String Js.LF "two." ++ String Js.LF "three"
      = pre ++ ". " ++ post.
Proof.
  intros (pre & post & E). revert E.
  destruct transcript_normalized as (_ & Hrun & _).
  apply (Hrun Scenario.notes_env Scenario.onboarded []
              [Click; Resume 0 GotStream; SessionOpen 0;
               Message 0 (Some (Some "one. two"));
               Message 0 None;
               Message 0 (Some (Some ". three"))]
              (on_ui (setCurrentTranscription
                        (fun _ => "one." ++ String Js.LF "two."
                                  ++ String Js.LF "three"))
                 (onopen (set_sessions [open_session new_session]
                            (start_with_stream
                               (on_ui (setAppState RECORDING)
                                  (initial Scenario.onboarded []))))))).
  vm_compute. reflexivity.
Defined.

End TranscriptClaims.

(* ================================================================== *)
(** * The categorizer *)
(* ================================================================== *)

Section CategorizerClaims.

Import Types GeminiService App.

(** C8.  Whatever the backend answers, a category [categorizeNote] returns
    is one of the user's categories or the fallback; the trimmed answer is
    returned as it is exactly when it is among the accepted names, and an
    answer that is not among the user's categories gives the fallback
    (["Notes"]; in the second copy ["General Note"], itself accepted). *)
Theorem categorizeNote_falls_back
    (key : option string) (backend : string -> generation)
    (text : string) (cats : list string) (c : string) :
  (GeminiService.categorizeNote key backend text cats = Returned c ->
     (In c cats \/ c = "Notes")
     /\ forall raw,
          backend (GeminiService.prompt text cats) = Responded (Some raw) ->
          (In (Js.trim raw) cats -> c = Js.trim raw)
          /\ (~ In (Js.trim raw) cats -> c = "Notes"))
  /\ (GeminiServiceGeneral.categorizeNote key backend text cats = Returned c ->
     (In c cats \/ c = "General Note")
     /\ forall raw,
          backend (GeminiServiceGeneral.prompt text cats)
          = Responded (Some raw) ->
          (In (Js.trim raw) cats \/ Js.trim raw = "General Note" ->
           c = Js.trim raw)
          /\ (~ In (Js.trim raw) cats -> c = "General Note")).
Proof.
  split.
  - unfold GeminiService.categorizeNote.
    destruct (key_missing key); [discriminate|].
    destruct (backend (GeminiService.prompt text cats)) as [[t|]|].
    + cbv zeta. destruct (Js.includes cats (Js.trim t)) eqn:E.
      * apply includes_In in E. intros [= <-]. split; [now left|].
        intros raw [= <-]. tauto.
      * apply includes_not_In in E. intros [= <-]. split; [now right|].
        intros raw [= <-]. tauto.
    + intros [= <-]. split; [now right | discriminate].
    + intros [= <-]. split; [now right | discriminate].
  - unfold GeminiServiceGeneral.categorizeNote.
    destruct (key_missing key); [discriminate|].
    destruct (backend (GeminiServiceGeneral.prompt text cats)) as [[t|]|].
    + cbv zeta.
      destruct (Js.includes (cats ++ ["General Note"])%list (Js.trim t)) eqn:E.
      * apply includes_In, in_app_or in E. intros [= <-].
        split.
        -- destruct E as [E|[E|[]]]; [now left | now right].
        -- intros raw [= <-]. split; [reflexivity|].
           intros Hn. destruct E as [E|[E|[]]]; [contradiction | now symmetry].
      * apply includes_not_In in E. intros [= <-]. split; [now right|].
        intros raw [= <-]. split; [|reflexivity].
        intros H. destruct E. apply in_or_app. simpl. intuition.
    + intros [= <-]. split; [now right | discriminate].
    + intros [= <-]. split; [now right | discriminate].
Qed.

Lemma categorizeNote_falls_back_witness :
  GeminiService.categorizeNote (Some "key")
    (fun _ => Responded (Some " Shopping ")) "buy milk" (categories Scenario.onboarded)
  = Returned "Notes"
  /\ (In "Notes" (categories Scenario.onboarded) \/ "Notes" = "Notes")
  /\ GeminiServiceGeneral.categorizeNote (Some "key")
       (fun _ => Responded (Some "General Note")) "buy milk" ["Work"]
     = Returned "General Note".
Proof.
  split; [reflexivity|]. split; [|reflexivity].
  apply (proj1 (categorizeNote_falls_back (Some "key")
                  (fun _ => Responded (Some " Shopping ")) "buy milk"
                  (categories Scenario.onboarded) "Notes")).
  reflexivity.
Defined.

(** C10.  [categorizeNote] throws exactly when the API key is missing; with
    the key it returns, and a rejected call or a response without text gives
    the fallback.  So a stop that waits for the categorizer ends in [IDLE]
    with the categorization error exactly when the key is missing, and in
    [REVIEW] with a note under review otherwise. *)
Theorem categorizeNote_throws_only_without_key :
  (forall key backend text cats,
      ((exists m, GeminiService.categorizeNote key backend text cats
                  = Thrown m) <-> key_missing key = true)
      /\ ((exists m, GeminiServiceGeneral.categorizeNote key backend text cats
                     = Thrown m) <-> key_missing key = true))
  /\ (forall key backend text cats,
         key_missing key = false ->
         (exists c, GeminiService.categorizeNote key backend text cats
                    = Returned c
                    /\ (backend (GeminiService.prompt text cats) = Rejected ->
                        c = "Notes"))
         /\ (exists c, GeminiServiceGeneral.categorizeNote key backend text cats
                       = Returned c
                       /\ (backend (GeminiServiceGeneral.prompt text cats)
                           = Rejected -> c = "General Note")))
  /\ (forall env s n g text cats s',
         nth_error (pending s) n = Some (StopAwaitCategorize text cats) ->
         step env (Resume n (Categorized g)) s = Some s' ->
         (key_missing (API_KEY env) = true ->
          appState (ui s') = IDLE
          /\ error (ui s') = Some "Failed to categorize note. Please try again."
          /\ currentNote (ui s') = currentNote (ui s))
         /\ (key_missing (API_KEY env) = false ->
             appState (ui s') = REVIEW
             /\ error (ui s') = error (ui s)
             /\ exists c, currentNote (ui s')
                          = Some {| draft_text := text; draft_category := c;
                                    draft_emailSent := None |})).
Proof.
  split; [|split].
  - intros key backend text cats.
    unfold GeminiService.categorizeNote, GeminiServiceGeneral.categorizeNote.
    destruct (key_missing key).
    + split; split; eauto.
    + split; split; try discriminate; intros [m H]; exfalso; revert H.
      * destruct (backend _) as [[t|]|]; cbv zeta;
          try destruct (Js.includes _ _); discriminate.
      * destruct (backend _) as [[t|]|]; cbv zeta;
          try destruct (Js.includes _ _); discriminate.
  - intros key backend text cats Hk.
    unfold GeminiService.categorizeNote, GeminiServiceGeneral.categorizeNote.
    rewrite Hk. split.
    + destruct (backend _) as [[t|]|]; cbv zeta;
        try destruct (Js.includes _ _); eexists; split;
        try reflexivity; try discriminate; auto.
    + destruct (backend _) as [[t|]|]; cbv zeta;
        try destruct (Js.includes _ _); eexists; split;
        try reflexivity; try discriminate; auto.
  - intros env s n g text cats s' Hn H.
    unfold step in H. cbn [from_page andb] in H.
    rewrite Hn in H. cbn [resume] in H. injection H as <-.
    unfold categorize, GeminiService.categorizeNote,
      GeminiServiceGeneral.categorizeNote.
    split; intros Hk; rewrite Hk.
    + destruct (app env); cbn; auto.
    + destruct (app env), g as [[t|]|]; cbv zeta;
        try destruct (Js.includes _ _); cbn; eauto.
Qed.

Lemma categorizeNote_throws_only_without_key_witness :
  GeminiService.categorizeNote (Some "key") (fun _ => Rejected) "buy milk"
    ["Work"] = Returned "Notes".
Proof.
  destruct categorizeNote_throws_only_without_key as (_ & H & _).
  destruct (H (Some "key") (fun _ => Rejected) "buy milk" ["Work"] eq_refl)
    as [(c & Hc & Hr) _].
  rewrite Hc. f_equal. apply Hr. reflexivity.
Defined.

End CategorizerClaims.

(* ================================================================== *)
(** * The saved-notes listing *)
(* ================================================================== *)

Section ListingClaims.

Import Types SavedNotesList.





End ListingClaims.

(* ================================================================== *)
(** * The note lifecycle *)
(* ================================================================== *)

Section LifecycleClaims.

Import Types GeminiService App.




(** C7, as the code has it.  With a note under review every call of the
    share (or email) handler turns the "just emailed" flag on: with a
    recipient, with a native share that succeeds or is cancelled, with the
    default address, and also when nothing is configured, where the alert
    asking for a default address is raised after the flag was set.  Without
    a note under review the call changes nothing. *)
Theorem share_always_marks_emailed
    (env : Env) (email : option string) (shared : bool) (s : state) :
  (forall note, currentNote (ui s) = Some note ->
     justEmailed (ui (handleShareNote env email shared s)) = true
     /\ justEmailed (ui (handleEmailNote env email s)) = true
     /\ (truthy_opt email = false -> navigator_share env = false ->
         Js.truthy (defaultEmail (settings (ui s))) = false ->
         effects (handleShareNote env email shared s)
         = Alert "Please set a default email in settings to use this feature on desktop."
           :: effects s)
     /\ (truthy_opt email = false ->
         Js.truthy (defaultEmail (settings (ui s))) = false ->
         effects (handleEmailNote env email s)
         = Alert "Please set a default email in your settings." :: effects s))
  /\ (currentNote (ui s) = None ->
      handleShareNote env email shared s = s
      /\ handleEmailNote env email s = s).
Proof.
  split.
  - intros note Hn. unfold handleShareNote, handleEmailNote. rewrite Hn.
    repeat split.
    + destruct (truthy_opt email), (navigator_share env), shared,
        (Js.truthy (defaultEmail (settings (ui s)))); reflexivity.
    + destruct (truthy_opt email); cbv zeta;
        match goal with |- context [if ?b then _ else _] => destruct b end;
        reflexivity.
    + intros -> -> ->. reflexivity.
    + intros -> ->. reflexivity.
  - intros Hn. unfold handleShareNote, handleEmailNote. rewrite Hn. auto.
Qed.

Lemma share_always_marks_emailed_witness :
  justEmailed
    (ui (handleShareNote Scenario.dictate_share_env None false
           Scenario.review_milk)) = true.
Proof.
  refine (proj1 (proj1 (share_always_marks_emailed _ None false _) _ _)).
  reflexivity.
Defined.

(** C7, as stated, fails: with a note under review, no recipient, no native
    share and no default address, the handler raises the alert and the flag,
    off before, is on afterwards -- in both copies. *)
Lemma share_without_configuration_marks_emailed :
  justEmailed (ui Scenario.review_milk) = false
  /\ (exists s',
        step Scenario.dictate_env (ShareNote None true) Scenario.review_milk
        = Some s'
        /\ effects s' = [Alert "Please set a default email in settings to use this feature on desktop."]
        /\ justEmailed (ui s') = true
        /\ justEmailed (ui s') <> justEmailed (ui Scenario.review_milk))
  /\ (exists s',
        step Scenario.notes_env (ShareNote None true) Scenario.review_milk
        = Some s'
        /\ effects s' = [Alert "Please set a default email in your settings."]
        /\ justEmailed (ui s') = true
        /\ justEmailed (ui s') <> justEmailed (ui Scenario.review_milk)).
Proof.
  split; [reflexivity|].
  split; eexists; (split; [vm_compute; reflexivity|]);
    cbn; repeat split; discriminate.
Qed.

End LifecycleClaims.

(* ================================================================== *)
(** * The stop protocol *)
(* ================================================================== *)

Section StopClaims.

Import Types GeminiService App.

(** C3.  Take the click that stops a recording whose transcript is not
    blank and whose session (if the handle holds one) has its promise
    resolved, and let the call go on at each of its awaits.  When the
    cleanup is through the handle is null, its session is closed, and with
    the three audio refs set both nodes are disconnected and the context is
    closed; only then is the categorizer waited for.  When its call throws,
    the state is [IDLE] with the categorization error shown, the buffer is
    empty, and the note under review and the saved notes are what they were;
    and whatever the call comes to, its end touches no ref, session, context
    or node. *)
Theorem stop_categorization_failure
    (env : Env) (s : state) (g : generation) (m : string) :
  mounted s = true ->
  shown s = true ->
  appState (ui s) = RECORDING ->
  (forall sid, sessionPromiseRef (refs s) = Some sid ->
     exists x, session_at s sid = Some x /\ resolved x = true) ->
  (0 < String.length (Js.trim (currentTranscription (ui s))))%nat ->
  categorize env g (currentTranscription (ui s))
    (categories (settings (ui s))) = Thrown m ->
  exists s1 s',
    run env (stop_cleanup_events s) s = Some s1
    /\ pending s1
       = (pending s ++ [StopAwaitCategorize (currentTranscription (ui s))
                          (categories (settings (ui s)))])%list
    /\ appState (ui s1) = PROCESSING
    /\ cleanup_done s s1
    /\ (forall g' s'',
          step env (Resume (List.length (pending s)) (Categorized g')) s1
          = Some s'' ->
          resources s'' = resources s1)
    /\ step env (Resume (List.length (pending s)) (Categorized g)) s1 = Some s'
    /\ error (ui s') = Some "Failed to categorize note. Please try again."
    /\ appState (ui s') = IDLE
    /\ currentTranscription (ui s') = ""
    /\ currentNote (ui s') = currentNote (ui s)
    /\ savedNotes (ui s') = savedNotes (ui s)
    /\ pending s' = pending s.
Proof.
  intros Hm Hsh Hst Hres Hlen Hcat.
  destruct (released_frame s) as (Hp & Hmr & Hu & _).
  exists (suspend (StopAwaitCategorize (currentTranscription (ui s))
                     (categories (settings (ui s)))) (released s)).
  exists (stop_finish (Thrown m) (currentTranscription (ui s)) (released s)).
  assert (Hstep : forall g',
             step env (Resume (List.length (pending s)) (Categorized g'))
               (suspend (StopAwaitCategorize (currentTranscription (ui s))
                           (categories (settings (ui s)))) (released s))
             = Some (stop_finish
                       (categorize env g' (currentTranscription (ui s))
                          (categories (settings (ui s))))
                       (currentTranscription (ui s)) (released s))).
  { intros g'. rewrite <- Hp.
    rewrite step_resume_suspended by (now rewrite Hmr). reflexivity. }
  split; [now apply run_stop_cleanup|].
  split; [cbn; now rewrite Hp|].
  split; [cbn; now rewrite Hu|].
  split.
  { apply released_cleanup_done. intros sid E.
    destruct (Hres sid E) as (x & Hx & _). eauto. }
  split.
  { intros g' s'' E. rewrite Hstep in E. injection E as <-.
    unfold stop_finish.
    destruct (categorize env g' _ _); reflexivity. }
  split; [now rewrite Hstep, Hcat|].
  unfold stop_finish. cbn. rewrite Hp, Hu. cbn. repeat split.
Qed.

Lemma stop_categorization_failure_witness :
  exists s',
    run Scenario.no_key_env
      [Click; Resume 0 SessionReady; Resume 0 ContextClosed;
       Resume 0 (Categorized Rejected)] Scenario.recording_milk = Some s'
    /\ appState (ui s') = IDLE
    /\ error (ui s') = Some "Failed to categorize note. Please try again."
    /\ currentNote (ui s') = None.
Proof.
  destruct (stop_categorization_failure Scenario.no_key_env
              Scenario.recording_milk Rejected
              "API_KEY environment variable not set")
    as (s1 & s' & Hrun & _ & _ & _ & _ & Hstep & He & Ha & _ & Hn & _).
  - reflexivity.
  - reflexivity.
  - reflexivity.
  - intros sid [= <-]. eexists. split; reflexivity.
  - apply Nat.ltb_lt. reflexivity.
  - reflexivity.
  - exists s'. repeat split; try assumption.
    change [Click; Resume 0 SessionReady; Resume 0 ContextClosed;
            Resume 0 (Categorized Rejected)]
      with (stop_cleanup_events Scenario.recording_milk
            ++ [Resume 0 (Categorized Rejected)])%list.
    change (List.length (pending Scenario.recording_milk)) with 0%nat in Hstep.
    rewrite run_app, Hrun. cbn [run]. now rewrite Hstep.
Defined.

End StopClaims.

(* ================================================================== *)
(** * The session handle *)
(* ================================================================== *)

Section HandleClaims.

Import Types GeminiService App.

(** C1, as the code has it.  The click that stops a recording sets the state
    to [PROCESSING] and leaves the session handle as it is while the call
    waits for the promise of the session; the handle is set to null when
    that promise has resolved, after the session was closed, and until then
    the call cannot go on.  [onmessage] has no guard: a fragment an open
    session delivers is appended and the buffer normalized whatever the
    state and the handle are, and the calls that wait are not touched.  The
    stop works on the transcript of its click: the waiting call carries it
    from one await to the next, and a note it puts under review has that
    text. *)
Theorem stop_keeps_handle_until_closed :
  (forall s sid,
      appState (ui s) = RECORDING ->
      sessionPromiseRef (refs s) = Some sid ->
      appState (ui (handleToggleRecording s)) = PROCESSING
      /\ sessionPromiseRef (refs (handleToggleRecording s)) = Some sid
      /\ sessions (handleToggleRecording s) = sessions s
      /\ pending (handleToggleRecording s)
         = (pending s ++ [StopAwaitSession sid (currentTranscription (ui s))
                            (categories (settings (ui s)))])%list)
  /\ (forall env s n sid text cats x,
         mounted s = true ->
         nth_error (pending s) n = Some (StopAwaitSession sid text cats) ->
         session_at s sid = Some x ->
         (resolved x = false -> step env (Resume n SessionReady) s = None)
         /\ (resolved x = true ->
             exists s' x',
               step env (Resume n SessionReady) s = Some s'
               /\ sessionPromiseRef (refs s') = None
               /\ session_at s' sid = Some x'
               /\ session_open x' = false))
  /\ (forall env s sid x text,
         mounted s = true ->
         session_at s sid = Some x -> status x = Open ->
         exists s',
           step env (Message sid (Some text)) s = Some s'
           /\ currentTranscription (ui s')
              = Js.replace_dot_space
                  (currentTranscription (ui s) ++ text_or_undefined text)
           /\ appState (ui s') = appState (ui s)
           /\ refs s' = refs s
           /\ pending s' = pending s)
  /\ (forall env s n r t s' t',
         nth_error (pending s) n = Some t ->
         step env (Resume n r) s = Some s' ->
         In t' (pending s') ->
         In t' (pending s) \/ task_transcription t' = task_transcription t)
  /\ (forall env s n g text cats s' note,
         nth_error (pending s) n = Some (StopAwaitCategorize text cats) ->
         step env (Resume n (Categorized g)) s = Some s' ->
         appState (ui s') = REVIEW ->
         currentNote (ui s') = Some note ->
         draft_text note = text).
Proof.
  split; [|split; [|split; [|split]]].
  - intros s sid Ha Hs. unfold handleToggleRecording, stop_begin.
    rewrite Ha. cbn. rewrite Hs. cbn. auto.
  - intros env s n sid text cats x Hm Hn Hx. unfold step.
    rewrite Hm, Hn. cbn [negb resume].
    unfold session_at in *. cbn [sessions set_pending]. rewrite Hx.
    split; intros Hr; rewrite Hr; [reflexivity|].
    assert (Hc : exists x',
               nth_error (update_nth sid close_session (sessions s)) sid
               = Some x' /\ session_open x' = false).
    { rewrite nth_error_update_nth, Nat.eqb_refl, Hx. cbn.
      eexists. split; [reflexivity|]. unfold session_open. cbn.
      destruct (status x); reflexivity. }
    destruct Hc as (x' & Hx' & Ho). eexists. exists x'.
    split; [reflexivity|].
    unfold stop_close_session, stop_release_audio, stop_evaluate. cbn.
    repeat match goal with
           | |- context [match ?o with Some _ => _ | None => _ end] =>
               destruct o
           | |- context [if ?b then _ else _] => destruct b
           end; cbn; auto.
  - intros env s sid x text Hm Hx Ho. unfold step.
    rewrite Hm, Hx, Ho. cbn. eauto 6.
  - intros env s n r t s' t'. apply resume_keeps_transcription.
  - intros env s n g text cats s' note Hn H Ha Hc.
    unfold step in H. cbn [from_page andb] in H.
    rewrite Hn in H. cbn [resume] in H. injection H as <-.
    unfold stop_finish in *.
    destruct (categorize env g text cats); cbn in *; [|discriminate].
    injection Hc as <-. reflexivity.
Qed.

Lemma stop_keeps_handle_until_closed_witness :
  appState (ui (handleToggleRecording Scenario.recording_milk)) = PROCESSING
  /\ sessionPromiseRef (refs (handleToggleRecording Scenario.recording_milk))
     = Some 0%nat.
Proof.
  destruct (proj1 stop_keeps_handle_until_closed
              Scenario.recording_milk 0%nat eq_refl eq_refl)
    as (Ha & Hs & _).
  split; [exact Ha | exact Hs].
Defined.

(** C1, as stated, fails.  After the click that stops a recording whose
    session is still connecting, the state is [PROCESSING] and the handle
    still names the session.  And when the stop is clicked while the
    microphone is still being asked for, the stop finds nothing to close and
    ends in [IDLE]; the session that the start then opens delivers ["late"],
    which is appended to the buffer. *)
Lemma handle_kept_and_late_fragment_appended :
  (exists s,
      run Scenario.notes_env [Click; Resume 0 GotStream; Click] Scenario.fresh
      = Some s
      /\ appState (ui s) = PROCESSING
      /\ sessionPromiseRef (refs s) = Some 0%nat
      /\ map status (sessions s) = [Connecting])
  /\ (exists s1 s2,
         run Scenario.notes_env [Click; Click] Scenario.fresh = Some s1
         /\ appState (ui s1) = IDLE
         /\ currentTranscription (ui s1) = ""
         /\ run Scenario.notes_env
              [Resume 0 GotStream; SessionOpen 0;
               Message 0 (Some (Some "late"))] s1 = Some s2
         /\ appState (ui s2) = IDLE
         /\ currentTranscription (ui s2) = "late").
Proof.
  split.
  - eexists. split; [vm_compute; reflexivity|]. cbn. auto.
  - do 2 eexists. split; [vm_compute; reflexivity|].
    split; [reflexivity|]. split; [reflexivity|].
    split; [vm_compute; reflexivity|]. cbn. auto.
Qed.

(** C2, as the code has it.  Take a run from the mounting in which the
    button is clicked only while no call of the handler waits at an [await],
    and in which the live session reports no error.  Then, while no call
    waits, the session handle is set exactly when the state is [RECORDING];
    while a start waits for the microphone the state is already [RECORDING]
    and the handle is null, and while a stop waits for the session the state
    is already [PROCESSING] and the handle still names it; and at every
    moment the only session that is open is the one the handle names, so no
    two sessions are open at once. *)
Theorem orderly_handle_matches_recording
    (env : Env) (st : UserSettings) (notes : list Note)
    (es : list event) (s : state) :
  orderly_run env es (initial st notes) = Some s ->
  run env es (initial st notes) = Some s
  /\ (pending s = [] ->
      (sessionPromiseRef (refs s) <> None <-> appState (ui s) = RECORDING))
  /\ (pending s = [StartAwaitMicrophone] ->
      appState (ui s) = RECORDING /\ sessionPromiseRef (refs s) = None)
  /\ (forall sid text cats,
         pending s = [StopAwaitSession sid text cats] ->
         appState (ui s) = PROCESSING
         /\ sessionPromiseRef (refs s) = Some sid)
  /\ (forall sid x,
         session_at s sid = Some x -> session_open x = true ->
         sessionPromiseRef (refs s) = Some sid)
  /\ (forall i j xi xj,
         session_at s i = Some xi -> session_at s j = Some xj ->
         session_open xi = true -> session_open xj = true -> i = j).
Proof.
  intros H.
  destruct (orderly_run_handle_agrees env es _ _ H
              (initial_handle_agrees st notes)) as [Hopen Hwait].
  unfold waiting_agrees in Hwait.
  split; [now apply orderly_run_is_run|].
  split; [intros E; now rewrite E in Hwait|].
  split; [intros E; now rewrite E in Hwait|].
  split; [intros sid text cats E; now rewrite E in Hwait|].
  split; [exact Hopen|].
  intros i j xi xj Hi Hj Oi Oj.
  pose proof (Hopen i xi Hi Oi) as Ei. pose proof (Hopen j xj Hj Oj) as Ej.
  congruence.
Qed.

Lemma orderly_handle_matches_recording_witness :
  (sessionPromiseRef (refs Scenario.recording_milk) <> None
   <-> appState (ui Scenario.recording_milk) = RECORDING)
  /\ sessionPromiseRef (refs Scenario.recording_milk) = Some 0%nat.
Proof.
  destruct (orderly_handle_matches_recording Scenario.notes_env
              Scenario.onboarded []
              [Click; Resume 0 GotStream; SessionOpen 0;
               Message 0 (Some (Some "buy milk"))]
              Scenario.recording_milk)
    as (_ & Hq & _ & _ & Ho & _).
  - vm_compute. reflexivity.
  - split; [apply Hq; reflexivity|].
    apply (Ho 0%nat (open_session new_session)); reflexivity.
Defined.

(** C2, as stated, fails.  After the first click the state is [RECORDING]
    and there is no session, context or stream yet.  After the click that
    stops, the state is [PROCESSING] and the session is still there.  A
    stop clicked while the microphone is being asked for leaves the start to
    open its session in [IDLE], and the next start opens a second one: both
    are open at once.  And after a live-session error the state is [IDLE]
    with the session open and the handle set. *)
Lemma recording_state_and_session_disagree :
  (exists s,
      run Scenario.notes_env [Click] Scenario.fresh = Some s
      /\ appState (ui s) = RECORDING
      /\ sessionPromiseRef (refs s) = None
      /\ sessions s = [] /\ contexts s = [] /\ nodes s = [])
  /\ (exists s,
         run Scenario.notes_env [Click; Resume 0 GotStream; Click]
           Scenario.fresh = Some s
         /\ appState (ui s) = PROCESSING
         /\ sessionPromiseRef (refs s) = Some 0%nat
         /\ map session_open (sessions s) = [true]
         /\ map microphone_live (sessions s) = [true])
  /\ (exists s,
         run Scenario.notes_env
           [Click; Click; Resume 0 GotStream; Click; Resume 0 GotStream;
            SessionOpen 0; SessionOpen 1] Scenario.fresh = Some s
         /\ map status (sessions s) = [Open; Open]
         /\ map microphone_live (sessions s) = [true; true])
  /\ (exists s,
         run Scenario.notes_env
           [Click; Resume 0 GotStream; SessionOpen 0; SessionError 0]
           Scenario.fresh = Some s
         /\ appState (ui s) = IDLE
         /\ sessionPromiseRef (refs s) = Some 0%nat
         /\ map status (sessions s) = [Open]).
Proof.
  repeat split; eexists; (split; [vm_compute; reflexivity|]); cbn; auto 10.
Qed.

End HandleClaims.

(* ================================================================== *)
(** * Further properties of the audio frame encoder *)
(* ================================================================== *)

Section EncoderExtras.

Import AudioUtils Vocabulary.

Lemma every_b64_char (i : Z) : 0 <= i < 64 -> b64_symbol (b64_char i) = true.
Proof.
  intros H. unfold b64_symbol. destruct (b64_index_char i H) as [E _].
  now rewrite E.
Qed.

Lemma btoa_symbols (s : string) : every b64_symbol (btoa s) = true.
Proof.
  induction s as [| a | a b | a b c s IH] using string_ind3.
  - reflexivity.
  - pose proof (Z_of_byte_range a) as Ha.
    cbn [btoa every]. rewrite !every_b64_char; [reflexivity | |];
      Z.div_mod_to_equations; lia.
  - pose proof (Z_of_byte_range a) as Ha. pose proof (Z_of_byte_range b) as Hb.
    cbn [btoa every]. rewrite !every_b64_char; [reflexivity | | |];
      Z.div_mod_to_equations; lia.
  - pose proof (Z_of_byte_range a) as Ha. pose proof (Z_of_byte_range b) as Hb.
    pose proof (Z_of_byte_range c) as Hc.
    cbn [btoa every]. cbv zeta. rewrite IH.
    rewrite !every_b64_char; [reflexivity | | | |];
      Z.div_mod_to_equations; lia.
Qed.

Lemma btoa_length (s : string) :
  String.length (btoa s) = (4 * ((String.length s + 2) / 3))%nat.
Proof.
  induction s as [| a | a b | a b c s IH] using string_ind3;
    try reflexivity.
  cbn [btoa String.length]. cbv zeta. cbn [String.length]. rewrite IH.
  replace (S (S (S (String.length s))) + 2)%nat
    with ((String.length s + 2) + 1 * 3)%nat by lia.
  rewrite Nat.div_add by lia. lia.
Qed.

(** X1.  [encode] loses nothing and gives transport-safe text: decoding the
    base64 text gives the bytes back, the text has four characters for every
    three bytes (rounded up), and each of them is a letter of the base64
    alphabet or the padding sign. *)
Theorem encode_round_trip (bytes : string) :
  atob (encode bytes) = Some bytes
  /\ String.length (encode bytes)
     = (4 * ((String.length bytes + 2) / 3))%nat
  /\ every b64_symbol (encode bytes) = true.
Proof.
  rewrite encode_is_btoa.
  split; [apply atob_btoa|]. split; [apply btoa_length | apply btoa_symbols].
Qed.

Lemma bytes_of_int16_length (xs : list Z) :
  String.length (bytes_of_int16 xs) = (2 * List.length xs)%nat.
Proof. induction xs as [|x xs IH]; cbn; lia. Qed.

(** X2.  A payload of [createBlob] carries exactly one 16-bit value per
    sample of the frame: it decodes to as many values as the frame has
    samples, each within the signed 16-bit range, and its length is that of
    the base64 text of two bytes per sample. *)
Theorem createBlob_frame (samples : list float32) :
  exists values,
    decode_pcm (data (createBlob samples)) = Some values
    /\ List.length values = List.length samples
    /\ Forall (fun v => -32768 <= v <= 32767) values
    /\ String.length (data (createBlob samples))
       = (4 * ((2 * List.length samples + 2) / 3))%nat.
Proof.
  eexists. split; [apply decode_createBlob|].
  split; [apply length_map|]. split.
  - apply Forall_forall. intros v Hv. apply in_map_iff in Hv as (x & <- & _).
    apply ToInt16_range.
  - unfold createBlob; cbn [data]. rewrite encode_is_btoa, btoa_length.
    now rewrite bytes_of_int16_length, length_map.
Qed.

Lemma truncate_floor_ceiling (q : Q) :
  truncate q = if 0 <=? Qnum q then Qfloor q else Qceiling q.
Proof.
  destruct q as [a d]. unfold truncate, Qceiling, Qfloor. cbn.
  destruct (0 <=? a) eqn:E.
  - apply Z.leb_le in E. apply Z.quot_div_nonneg; lia.
  - apply Z.leb_gt in E.
    rewrite <- (Z.opp_involutive a) at 1. rewrite Z.quot_opp_l by lia.
    rewrite Z.quot_div_nonneg by lia. reflexivity.
Qed.

Lemma Qnum_nonneg (q : Q) : 0 <= Qnum q <-> (0 <= q)%Q.
Proof. destruct q as [a d]. unfold Qle. cbn. lia. Qed.

Lemma truncate_mono (x y : Q) : (x <= y)%Q -> truncate x <= truncate y.
Proof.
  intros H. rewrite !truncate_floor_ceiling.
  destruct (0 <=? Qnum x) eqn:Ex, (0 <=? Qnum y) eqn:Ey.
  - now apply Qfloor_resp_le.
  - apply Z.leb_le, Qnum_nonneg in Ex. apply Z.leb_gt in Ey.
    exfalso. assert (0 <= y)%Q by (eapply Qle_trans; eauto).
    apply Qnum_nonneg in H0. lia.
  - apply Z.leb_gt in Ex. apply Z.leb_le in Ey.
    destruct x as [a d], y as [b e]. unfold Qceiling, Qfloor. cbn in *.
    pose proof (Z.div_pos (- a) (Z.pos d) ltac:(lia) ltac:(lia)).
    pose proof (Z.div_pos b (Z.pos e) ltac:(lia) ltac:(lia)). lia.
  - now apply Qceiling_resp_le.
Qed.

Lemma pcm_in_range (q : Q) :
  (-1 <= q)%Q -> (q < 1)%Q -> pcm q = truncate (q * 32768).
Proof.
  intros Hlo Hhi. unfold pcm. cbn [f32_mul_pow15 ToInt16].
  apply wrap16_small. now apply truncate_in_range.
Qed.

(** X3.  Inside the nominal range the conversion is a plain quantizer: for
    [-1 <= q < 1] the stored value is [q * 32768] with its fraction dropped
    (so it lies within one step of the scaled sample, on the side of zero),
    and a louder sample never gets a smaller value. *)
Theorem pcm_quantizes (q q' : Q) :
  (-1 <= q)%Q -> (q <= q')%Q -> (q' < 1)%Q ->
  pcm q <= pcm q'
  /\ ((0 <= q)%Q ->
      (inject_Z (pcm q) <= q * 32768)%Q
      /\ (q * 32768 < inject_Z (pcm q + 1))%Q)
  /\ ((q <= 0)%Q ->
      (inject_Z (pcm q - 1) < q * 32768)%Q
      /\ (q * 32768 <= inject_Z (pcm q))%Q).
Proof.
  intros Hlo Hle Hhi.
  assert (Hq : (q < 1)%Q) by (eapply Qle_lt_trans; eauto).
  assert (Hq' : (-1 <= q')%Q) by (eapply Qle_trans; eauto).
  rewrite (pcm_in_range q Hlo Hq), (pcm_in_range q' Hq' Hhi).
  split; [|split].
  - apply truncate_mono. apply Qmult_le_compat_r; [exact Hle | discriminate].
  - intros H0. rewrite truncate_floor_ceiling.
    assert (E : (0 <=? Qnum (q * 32768)) = true).
    { apply Z.leb_le, Qnum_nonneg. apply Qmult_le_0_compat; [exact H0|].
      discriminate. }
    rewrite E. split; [apply Qfloor_le | apply Qlt_floor].
  - intros H0. rewrite truncate_floor_ceiling.
    destruct (0 <=? Qnum (q * 32768)) eqn:E.
    + apply Z.leb_le, Qnum_nonneg in E.
      assert (Ez : (q * 32768 == 0)%Q).
      { apply Qle_antisym; [|exact E].
        setoid_replace 0%Q with (0 * 32768)%Q by reflexivity.
        apply Qmult_le_compat_r; [exact H0 | discriminate]. }
      rewrite (Qfloor_comp _ _ Ez). rewrite Ez. cbn. split; reflexivity || discriminate.
    + split; [apply Qceiling_lt | apply Qle_ceiling].
Qed.

Lemma pcm_quantizes_witness :
  pcm (-1 # 3) <= pcm (1 # 3) /\ pcm (1 # 3) = 10922 /\ pcm (-1 # 3) = -10922.
Proof.
  split; [|split; reflexivity].
  apply (pcm_quantizes (-1 # 3) (1 # 3)); unfold Qle, Qlt; cbn; lia.
Defined.

(** X4.  Above the nominal range nothing is clamped: every sample [q] with
    [1 <= q < 2] is stored as a negative value, [65536] below its scaled
    and truncated self. *)
Theorem pcm_overflow_goes_negative (q : Q) :
  (1 <= q)%Q -> (q < 2)%Q ->
  pcm q = truncate (q * 32768) - 65536 /\ -32768 <= pcm q < 0.
Proof.
  intros Hlo Hhi. unfold pcm. cbn [f32_mul_pow15 ToInt16].
  assert (H : 32768 <= truncate (q * 32768) < 65536).
  { destruct q as [a d]. unfold Qle, Qlt, truncate in *. cbn in *.
    rewrite Pos.mul_1_r.
    pose proof (Z.quot_rem' (a * 32768) (Z.pos d)) as E.
    pose proof (Z.rem_nonneg (a * 32768) (Z.pos d) ltac:(lia) ltac:(lia)).
    pose proof (Z.rem_bound_pos (a * 32768) (Z.pos d) ltac:(lia) ltac:(lia)).
    nia. }
  unfold wrap16. rewrite Z.mod_small by lia.
  destruct (32768 <=? truncate (q * 32768)) eqn:E;
    [apply Z.leb_le in E | apply Z.leb_gt in E]; lia.
Qed.

Lemma pcm_overflow_goes_negative_witness : pcm (3 # 2) = -16384.
Proof.
  rewrite (proj1 (pcm_overflow_goes_negative (3 # 2) ltac:(unfold Qle; cbn; lia)
                    ltac:(unfold Qlt; cbn; lia))).
  reflexivity.
Defined.

End EncoderExtras.

(* ================================================================== *)
(** * Strings: reversal and trimming *)
(* ================================================================== *)

Section StringFacts.

Import Js Vocabulary.

Lemma append_nil_r (s : string) : s ++ "" = s.
Proof. induction s; cbn; congruence. Qed.

Lemma append_assoc (a b c : string) : (a ++ b) ++ c = a ++ (b ++ c).
Proof. induction a; cbn; congruence. Qed.

Lemma rev_append_spec (s acc : string) : rev_append s acc = rev s ++ acc.
Proof.
  unfold rev. revert acc. induction s as [|c s IH]; intros acc; [reflexivity|].
  cbn [rev_append]. rewrite IH, (IH (String c "")), append_assoc. reflexivity.
Qed.

Lemma rev_cons (c : ascii) (s : string) : rev (String c s) = rev s ++ String c "".
Proof. unfold rev at 1. cbn [rev_append]. apply rev_append_spec. Qed.

Lemma rev_app (a b : string) : rev (a ++ b) = rev b ++ rev a.
Proof.
  induction a as [|c a IH]; cbn [append].
  - now rewrite append_nil_r.
  - now rewrite !rev_cons, IH, append_assoc.
Qed.

Lemma rev_involutive (s : string) : rev (rev s) = s.
Proof.
  induction s as [|c s IH]; [reflexivity|].
  rewrite rev_cons, rev_app, IH. reflexivity.
Qed.

Lemma every_app (p : ascii -> bool) (a b : string) :
  every p (a ++ b) = every p a && every p b.
Proof.
  induction a as [|c a IH]; [reflexivity|].
  cbn [append every]. now rewrite IH, andb_assoc.
Qed.

Lemma every_rev (p : ascii -> bool) (s : string) : every p (rev s) = every p s.
Proof.
  induction s as [|c s IH]; [reflexivity|].
  rewrite rev_cons, every_app, IH. cbn [every].
  rewrite andb_true_r. apply andb_comm.
Qed.

(** [trimStart] drops a prefix of white space and stops at the first code
    unit that is none. *)
Lemma trimStart_split (s : string) :
  exists l, s = l ++ trimStart s
            /\ every is_white_space l = true
            /\ starts_clean (trimStart s) = true.
Proof.
  induction s as [|c s (l & E & Hl & Hc)].
  - exists "". auto.
  - cbn [trimStart]. destruct (is_white_space c) eqn:Ec.
    + exists (String c l). cbn [append every]. rewrite Ec, Hl.
      now rewrite <- E.
    + exists "". cbn. now rewrite Ec.
Qed.

Lemma trimStart_clean (s : string) : starts_clean s = true -> trimStart s = s.
Proof.
  destruct s as [|c s]; [reflexivity|]. cbn.
  now destruct (is_white_space c).
Qed.

Lemma trimStart_white (l s : string) :
  every is_white_space l = true -> trimStart (l ++ s) = trimStart s.
Proof.
  induction l as [|c l IH]; [reflexivity|]. cbn [every append trimStart].
  intros H. apply andb_true_iff in H as [Hc Hl]. now rewrite Hc, IH.
Qed.

Lemma trimStart_all_white (s : string) :
  every is_white_space s = true <-> trimStart s = "".
Proof.
  split.
  - intros H. rewrite <- (append_nil_r s). now rewrite trimStart_white.
  - intros E. destruct (trimStart_split s) as (l & Es & Hl & _).
    rewrite E, append_nil_r in Es. now subst.
Qed.

Lemma trimStart_app_clean (t r : string) :
  trimStart t <> "" -> trimStart (t ++ r) = trimStart t ++ r.
Proof.
  induction t as [|c t IH]; [cbn; congruence|]. cbn [trimStart append].
  destruct (is_white_space c); auto.
Qed.

Lemma trimEnd_white (s r : string) :
  every is_white_space r = true -> trimEnd (s ++ r) = trimEnd s.
Proof.
  intros H. unfold trimEnd. rewrite rev_app, trimStart_white; [reflexivity|].
  now rewrite every_rev.
Qed.

Lemma trim_all_white (s : string) :
  every is_white_space s = true <-> trim s = "".
Proof.
  unfold trim, trimEnd. split.
  - intros H. apply trimStart_all_white in H. now rewrite H.
  - intros E. apply trimStart_all_white.
    assert (E' : trimStart (rev (trimStart s)) = "").
    { rewrite <- (rev_involutive (trimStart _)), E. reflexivity. }
    apply trimStart_all_white in E'. rewrite every_rev in E'.
    destruct (trimStart_split s) as (l & _ & _ & Hc).
    destruct (trimStart s) as [|c u]; [reflexivity|].
    cbn in Hc, E'. destruct (is_white_space c); discriminate.
Qed.

(** White space around a text does not change what [trim] makes of it. *)
Lemma trim_padded (l t r : string) :
  every is_white_space l = true -> every is_white_space r = true ->
  trim (l ++ t ++ r) = trim t.
Proof.
  intros Hl Hr. unfold trim. rewrite trimStart_white by exact Hl.
  destruct (trimStart t) as [|c u] eqn:E.
  - assert (Ht : every is_white_space (t ++ r) = true).
    { rewrite every_app, Hr. apply trimStart_all_white in E. now rewrite E. }
    apply trimStart_all_white in Ht. now rewrite Ht.
  - rewrite trimStart_app_clean by congruence. rewrite E.
    now apply trimEnd_white.
Qed.

(** What [trim] returns begins and ends with no white space, so trimming it
    again changes nothing. *)
Lemma trim_clean (s : string) :
  starts_clean (trim s) = true /\ starts_clean (rev (trim s)) = true.
Proof.
  unfold trim, trimEnd.
  destruct (trimStart_split s) as (_ & _ & _ & Hu).
  set (u := trimStart s) in *.
  destruct (trimStart_split (rev u)) as (l & E & Hl & Hw).
  set (w := trimStart (rev u)) in *.
  rewrite rev_involutive. split; [|exact Hw].
  assert (Eu : u = rev w ++ rev l).
  { rewrite <- (rev_involutive u), E, rev_app. reflexivity. }
  destruct (rev w) as [|c v] eqn:Ew; [reflexivity|].
  rewrite Eu in Hu. exact Hu.
Qed.

Lemma trim_idempotent (s : string) : trim (trim s) = trim s.
Proof.
  destruct (trim_clean s) as [H1 H2]. unfold trim at 1, trimEnd.
  rewrite (trimStart_clean _ H1), (trimStart_clean _ H2).
  apply rev_involutive.
Qed.

End StringFacts.

(* ================================================================== *)
(** * Regular expressions: the test decides the language *)
(* ================================================================== *)

Section RegexFacts.

Import Regex Vocabulary.

Lemma append_eq_nil (a b : string) : a ++ b = "" -> a = "" /\ b = "".
Proof. destruct a; cbn; [auto | discriminate]. Qed.

Lemma nullable_matches (r : regex) : nullable r = true <-> matches r "".
Proof.
  split.
  - induction r; cbn; intros H; try discriminate.
    + constructor.
    + apply andb_true_iff in H as [H1 H2].
      change "" with ("" ++ ""). constructor; auto.
    + apply orb_true_iff in H as [H|H]; [apply MAltL | apply MAltR]; auto.
    + constructor.
  - intros H. remember "" as s eqn:Es. induction H; cbn; auto; try discriminate.
    + apply append_eq_nil in Es as [-> ->]. now rewrite IHmatches1, IHmatches2.
    + now rewrite IHmatches.
    + rewrite IHmatches by exact Es. apply orb_true_r.
Qed.

Lemma deriv_sound (c : ascii) (r : regex) (s : string) :
  matches (deriv c r) s -> matches r (String c s).
Proof.
  revert s. induction r; intros s H; cbn in H.
  - inversion H.
  - inversion H.
  - destruct (p c) eqn:E; inversion H; subst. now constructor.
  - destruct (nullable r1) eqn:N.
    + inversion H as [| | | ? ? ? H1 | ? ? ? H2 | |]; subst.
      * inversion H1; subst.
        change (String c (s1 ++ s2)) with (String c s1 ++ s2).
        constructor; auto.
      * change (String c s) with ("" ++ String c s).
        constructor; [now apply nullable_matches | auto].
    + inversion H; subst.
      change (String c (s1 ++ s2)) with (String c s1 ++ s2).
      constructor; auto.
  - inversion H; subst; [apply MAltL | apply MAltR]; auto.
  - inversion H; subst.
    change (String c (s1 ++ s2)) with (String c s1 ++ s2).
    constructor; auto.
Qed.

Lemma deriv_complete (c : ascii) (r : regex) (s0 : string) :
  matches r s0 -> forall s, s0 = String c s -> matches (deriv c r) s.
Proof.
  induction 1 as [| p d Hp | r1 r2 s1 s2 H1 IH1 H2 IH2 | r1 r2 s1 H1 IH1
                  | r1 r2 s2 H2 IH2 | r | r s1 s2 H1 IH1 H2 IH2];
    intros s E; cbn.
  - discriminate.
  - injection E as <- <-. rewrite Hp. constructor.
  - destruct s1 as [|d s1]; cbn in E.
    + apply nullable_matches in H1. rewrite H1. apply MAltR. auto.
    + injection E as -> <-.
      destruct (nullable r1); [apply MAltL|]; constructor; auto.
  - apply MAltL. auto.
  - apply MAltR. auto.
  - discriminate.
  - destruct s1 as [|d s1]; cbn in E.
    + apply IH2 in E. exact E.
    + injection E as -> <-. constructor; auto.
Qed.

Lemma test_matches (r : regex) (s : string) :
  test r s = true <-> matches r s.
Proof.
  revert r. induction s as [|c s IH]; intros r; cbn [test].
  - apply nullable_matches.
  - rewrite IH. split; [apply deriv_sound|].
    intros H. eapply deriv_complete; eauto.
Qed.

Lemma matches_class (p : ascii -> bool) (s : string) :
  matches (Class p) s <-> exists c, s = String c "" /\ p c = true.
Proof.
  split.
  - inversion 1; subst. eauto.
  - intros (c & -> & H). now constructor.
Qed.

Lemma matches_star_class (p : ascii -> bool) (s : string) :
  matches (Star (Class p)) s <-> every p s = true.
Proof.
  split.
  - intros H. remember (Star (Class p)) as r eqn:Er.
    induction H; try discriminate; [reflexivity|].
    injection Er as ->. apply matches_class in H as (c & -> & Hc).
    cbn [append every]. rewrite Hc. cbn. auto.
  - induction s as [|c s IH]; cbn [every]; intros H; [constructor|].
    apply andb_true_iff in H as [Hc Hs].
    change (String c s) with (String c "" ++ s).
    constructor; [now constructor | auto].
Qed.

Lemma matches_plus_class (p : ascii -> bool) (s : string) :
  matches (Plus (Class p)) s <-> s <> "" /\ every p s = true.
Proof.
  unfold Plus. split.
  - inversion 1 as [| | ? ? s1 s2 H1 H2 | | | |]; subst.
    apply matches_class in H1 as (c & -> & Hc).
    apply matches_star_class in H2. cbn [append every]. rewrite Hc, H2.
    split; [discriminate | reflexivity].
  - intros [Hn H]. destruct s as [|c s]; [contradiction|].
    cbn [every] in H. apply andb_true_iff in H as [Hc Hs].
    change (String c s) with (String c "" ++ s).
    constructor; [now constructor | now apply matches_star_class].
Qed.

Lemma matches_char (a : ascii) (s : string) :
  matches (Char a) s <-> s = String a "".
Proof.
  unfold Char. rewrite matches_class. split.
  - intros (c & -> & E). apply Ascii.eqb_eq in E. now subst.
  - intros ->. exists a. split; [reflexivity | apply Ascii.eqb_refl].
Qed.

Lemma matches_seq (r1 r2 : regex) (s : string) :
  matches (Seq r1 r2) s <->
  exists s1 s2, s = s1 ++ s2 /\ matches r1 s1 /\ matches r2 s2.
Proof.
  split.
  - inversion 1; subst. eauto.
  - intros (s1 & s2 & -> & H1 & H2). now constructor.
Qed.

End RegexFacts.

(* ================================================================== *)
(** * The onboarding form *)
(* ================================================================== *)

Section OnboardingExtras.

Import Types App Onboarding AppShell Vocabulary.

Lemma every_non_space_app (a b : string) :
  every non_space (a ++ b) = true <->
  every non_space a = true /\ every non_space b = true.
Proof. rewrite every_app. apply andb_true_iff. Qed.

(** X5.  The default address the form accepts is exactly a text of the shape
    [a@b.c] in which [a], [b] and [c] are not empty and nothing is white
    space (the pieces may themselves hold further ['@'] and ['.']). *)
Theorem default_email_shape (e : string) :
  email_refused e = false <->
  exists a b c,
    e = a ++ "@" ++ b ++ "." ++ c /\ solid a /\ solid b /\ solid c.
Proof.
  unfold email_refused, solid. split.
  - intros H. apply orb_false_iff in H as [_ H].
    apply negb_false_iff, test_matches in H. unfold email_pattern in H.
    apply matches_seq in H as (a & r1 & -> & Ha & H).
    apply matches_seq in H as (at_ & r2 & -> & Hat & H).
    apply matches_seq in H as (b & r3 & -> & Hb & H).
    apply matches_seq in H as (dot & c & -> & Hdot & Hc).
    apply matches_char in Hat, Hdot. subst.
    apply matches_plus_class in Ha, Hb, Hc.
    exists a, b, c. auto.
  - intros (a & b & c & -> & Ha & Hb & Hc).
    apply orb_false_iff. split.
    + destruct a as [|x a]; [now destruct Ha | reflexivity].
    + apply negb_false_iff, test_matches. unfold email_pattern.
      repeat (apply matches_seq; do 2 eexists; split; [reflexivity|]; split);
        try (apply matches_plus_class; assumption);
        try (now apply matches_char).
Qed.

Lemma default_email_shape_witness :
  email_refused "me@example.com" = false
  /\ exists a b c, "dictate.me@mail.example"
                   = a ++ "@" ++ b ++ "." ++ c /\ solid a /\ solid b /\ solid c.
Proof.
  split; [reflexivity|].
  apply (proj1 (default_email_shape "dictate.me@mail.example")). reflexivity.
Defined.

(** X6.  [handleSubmit] calls [onComplete] exactly when the address is
    accepted (and, in the copy with the category buttons, a category is
    selected).  A refusal shows a message and changes nothing else; an
    acceptance clears the message and hands on the address as typed, the
    parsed other addresses and a list of categories that is never empty. *)
Theorem handleSubmit_outcome (v : variant) (f : form) :
  form_defaultEmail (fst (handleSubmit v f)) = form_defaultEmail f
  /\ form_otherEmails (fst (handleSubmit v f)) = form_otherEmails f
  /\ form_selectedCategories (fst (handleSubmit v f))
     = form_selectedCategories f
  /\ (snd (handleSubmit v f) = None <->
      email_refused (form_defaultEmail f) = true
      \/ (v = QuickDictate /\ form_selectedCategories f = []))
  /\ (snd (handleSubmit v f) = None ->
      form_error (fst (handleSubmit v f)) <> "")
  /\ (forall a, snd (handleSubmit v f) = Some a ->
        form_error (fst (handleSubmit v f)) = ""
        /\ ans_defaultEmail a = form_defaultEmail f
        /\ Js.truthy (ans_defaultEmail a) = true
        /\ ans_otherEmails a = parse_otherEmails (form_otherEmails f)
        /\ ans_categories a <> []
        /\ ans_categories a
           = match v with
             | QuickNotes => ["Ideas"; "Follow ups"; "To-do"; "Notes"]
             | QuickDictate => form_selectedCategories f
             end).
Proof.
  unfold handleSubmit.
  destruct (email_refused (form_defaultEmail f)) eqn:E.
  - cbn. repeat split; auto; try discriminate.
  - assert (Ht : Js.truthy (form_defaultEmail f) = true).
    { unfold email_refused in E. apply orb_false_iff in E as [E _].
      now apply negb_false_iff in E. }
    destruct v; [|destruct (form_selectedCategories f) as [|c cs] eqn:Es];
      cbn; rewrite ?Es; repeat split; auto; try discriminate;
      try (intros [H|[H1 H2]]; discriminate);
      try (intros a [= <-]; cbn; repeat split; auto; discriminate).
  all: injection H as <-; cbn; solve [auto | discriminate].
Qed.

Lemma handleSubmit_outcome_witness :
  exists a,
    snd (handleSubmit QuickNotes
           {| form_defaultEmail := "me@example.com";
              form_otherEmails := " work@example.com, ,ideas@example.com ";
              form_selectedCategories := []; form_error := "" |}) = Some a
    /\ ans_otherEmails a = ["work@example.com"; "ideas@example.com"]
    /\ ans_categories a <> [].
Proof.
  eexists. split; [reflexivity|].
  destruct (handleSubmit_outcome QuickNotes
              {| form_defaultEmail := "me@example.com";
                 form_otherEmails := " work@example.com, ,ideas@example.com ";
                 form_selectedCategories := []; form_error := "" |})
    as (_ & _ & _ & _ & _ & H).
  destruct (H _ eq_refl) as (_ & _ & _ & Ho & Hc & _).
  split; [exact Ho | exact Hc].
Defined.

Lemma split_comma_nonempty (s : string) : split_comma s <> [].
Proof.
  induction s as [|c s IH]; cbn; [discriminate|].
  destruct (Ascii.eqb c ","); [discriminate|].
  destruct (split_comma s); discriminate.
Qed.

Lemma split_comma_pieces (s : string) :
  Forall (fun piece => every not_comma piece = true) (split_comma s).
Proof.
  induction s as [|c s IH]; cbn [split_comma].
  - repeat constructor.
  - destruct (Ascii.eqb c ",") eqn:E; [constructor; auto|].
    destruct (split_comma s) as [|piece pieces];
      [repeat constructor; cbn; unfold not_comma; now rewrite E|].
    inversion IH; subst. constructor; auto.
    cbn. unfold not_comma at 1. now rewrite E.
Qed.

Lemma split_comma_join (s : string) :
  GeminiService.join "," (split_comma s) = s.
Proof.
  induction s as [|c s IH]; [reflexivity|]. cbn [split_comma].
  destruct (Ascii.eqb c ",") eqn:E.
  - apply Ascii.eqb_eq in E. subst c.
    pose proof (split_comma_nonempty s) as Hn.
    destruct (split_comma s) as [|piece pieces]; [contradiction|].
    change (GeminiService.join "," ("" :: piece :: pieces))
      with ("" ++ "," ++ GeminiService.join "," (piece :: pieces)).
    now rewrite IH.
  - destruct (split_comma s) as [|piece pieces] eqn:Es;
      [now destruct (split_comma_nonempty s)|].
    destruct pieces as [|p2 ps].
    + cbn in *. now rewrite IH.
    + change (GeminiService.join "," (String c piece :: p2 :: ps))
        with (String c (piece ++ "," ++ GeminiService.join "," (p2 :: ps))).
      change (GeminiService.join "," (piece :: p2 :: ps))
        with (piece ++ "," ++ GeminiService.join "," (p2 :: ps)) in IH.
      now rewrite IH.
Qed.

Lemma every_trimStart (p : ascii -> bool) (s : string) :
  every p s = true -> every p (Js.trimStart s) = true.
Proof.
  intros H. destruct (trimStart_split s) as (l & E & _).
  rewrite E, every_app in H. now apply andb_true_iff in H.
Qed.

Lemma every_trim (p : ascii -> bool) (s : string) :
  every p s = true -> every p (Js.trim s) = true.
Proof.
  intros H. unfold Js.trim, Js.trimEnd.
  rewrite every_rev. apply every_trimStart. rewrite every_rev.
  now apply every_trimStart.
Qed.

(** X7.  The other addresses are read off the text field loss-free and
    clean: joining the pieces of the split with commas gives the text back,
    and every address kept is a piece of it, trimmed: it is not empty, holds
    no comma, and neither begins nor ends with white space. *)
Theorem parse_otherEmails_clean (text : string) :
  GeminiService.join "," (split_comma text) = text
  /\ (List.length (parse_otherEmails text)
      <= List.length (split_comma text))%nat
  /\ forall e, In e (parse_otherEmails text) ->
       (exists piece, In piece (split_comma text) /\ e = Js.trim piece)
       /\ e <> ""
       /\ every not_comma e = true
       /\ starts_clean e = true
       /\ starts_clean (Js.rev e) = true
       /\ Js.trim e = e.
Proof.
  split; [apply split_comma_join|].
  split.
  { unfold parse_otherEmails.
    rewrite <- (length_map Js.trim (split_comma text)).
    apply filter_length_le. }
  intros e He. unfold parse_otherEmails in He.
  apply filter_In in He as [He Ht]. apply in_map_iff in He as (piece & <- & Hp).
  split; [eauto|]. split; [intros E; rewrite E in Ht; discriminate|].
  split.
  { apply every_trim. pose proof (split_comma_pieces text) as H.
    rewrite Forall_forall in H. auto. }
  destruct (trim_clean piece) as [H1 H2].
  split; [exact H1|]. split; [exact H2 | apply trim_idempotent].
Qed.

Lemma parse_otherEmails_clean_witness :
  Js.trim "work@example.com" = "work@example.com".
Proof.
  destruct (parse_otherEmails_clean " work@example.com ,, a@b.c") as (_ & _ & H).
  destruct (H "work@example.com") as (_ & _ & _ & _ & _ & E);
    [left; reflexivity | exact E].
Defined.

Lemma toggle_In (c d : string) (prev : list string) :
  In d (toggle c prev) <->
  if String.eqb d c then ~ In c prev else In d prev.
Proof.
  unfold toggle. destruct (Js.includes prev c) eqn:E.
  - apply includes_In in E. rewrite filter_In.
    destruct (String.eqb d c) eqn:Ed.
    + cbn. split; [intros [_ H]; discriminate | tauto].
    + cbn. tauto.
  - apply includes_not_In in E. rewrite in_app_iff. cbn.
    destruct (String.eqb d c) eqn:Ed.
    + apply String.eqb_eq in Ed. subst. tauto.
    + apply String.eqb_neq in Ed. split; [|tauto].
      intros [H|[H|[]]]; [exact H | congruence].
Qed.

(** X8.  Pressing a category button flips that category and no other: the
    category is selected afterwards exactly if it was not before, every
    other category keeps its place among the others, pressing twice gives
    the selection back, and a selection without repetition stays so. *)
Theorem toggle_flips (c : string) (prev : list string) :
  NoDup prev ->
  NoDup (toggle c prev)
  /\ (In c (toggle c prev) <-> ~ In c prev)
  /\ (forall d, d <> c -> (In d (toggle c prev) <-> In d prev))
  /\ filter (fun d => negb (String.eqb d c)) (toggle c prev)
     = filter (fun d => negb (String.eqb d c)) prev
  /\ (forall d, In d (toggle c (toggle c prev)) <-> In d prev)
  /\ (~ In c prev -> toggle c (toggle c prev) = prev).
Proof.
  intros Hnd.
  assert (Hf : forall l, ~ In c l ->
                 filter (fun d => negb (String.eqb d c)) l = l).
  { induction l as [|x l IH]; [reflexivity|]. cbn. intros H.
    destruct (String.eqb x c) eqn:E.
    - apply String.eqb_eq in E. tauto.
    - cbn. rewrite IH; tauto. }
  split; [|split; [|split; [|split; [|split]]]].
  - unfold toggle. destruct (Js.includes prev c) eqn:E.
    + now apply NoDup_filter.
    + apply includes_not_In in E. apply NoDup_app; auto.
      * repeat constructor. intros [].
      * intros x Hx [<-|[]]. contradiction.
  - rewrite toggle_In, String.eqb_refl. tauto.
  - intros d Hd. rewrite toggle_In. apply String.eqb_neq in Hd. now rewrite Hd.
  - unfold toggle. destruct (Js.includes prev c) eqn:E.
    + clear. induction prev as [|x l IH]; [reflexivity|]. cbn.
      destruct (String.eqb x c) eqn:Ek; cbn; rewrite ?Ek; cbn; congruence.
    + rewrite filter_app. cbn. rewrite String.eqb_refl. cbn.
      apply app_nil_r.
  - intros d. rewrite toggle_In.
    destruct (String.eqb d c) eqn:Ed.
    + apply String.eqb_eq in Ed. subst d.
      rewrite toggle_In, String.eqb_refl.
      destruct (in_dec string_dec c prev); tauto.
    + rewrite toggle_In, Ed. tauto.
  - intros Hn. unfold toggle at 2.
    apply includes_not_In in Hn. rewrite Hn. unfold toggle.
    assert (Hi : Js.includes (prev ++ [c])%list c = true).
    { apply includes_In, in_or_app. right. now left. }
    rewrite Hi, filter_app. cbn. rewrite String.eqb_refl. cbn.
    rewrite app_nil_r. apply Hf. now apply includes_not_In.
Qed.

Lemma toggle_flips_witness :
  toggle "Ideas" (toggle "Ideas" ["Work"; "To-Do"]) = ["Work"; "To-Do"].
Proof.
  refine (proj2 (proj2 (proj2 (proj2 (proj2
            (toggle_flips "Ideas" ["Work"; "To-Do"] _))))) _).
  - repeat constructor; cbn; intuition discriminate.
  - cbn. intuition discriminate.
Defined.

End OnboardingExtras.

(* ================================================================== *)
(** * Further properties of the controller *)
(* ================================================================== *)

Section CategorizerExtras.

Import GeminiService Vocabulary.

(** What either copy of [categorizeNote] returns is one of the user's
    categories or its fallback. *)
Lemma categorizeNote_falls_back_both
    (key : option string) (backend : string -> generation)
    (text : string) (cats : list string) (c : string) :
  (GeminiService.categorizeNote key backend text cats = Returned c ->
   In c cats \/ c = "Notes")
  /\ (GeminiServiceGeneral.categorizeNote key backend text cats = Returned c ->
      In c cats \/ c = "General Note").
Proof.
  split.
  - unfold GeminiService.categorizeNote.
    destruct (key_missing key); [discriminate|].
    destruct (backend _) as [[t|]|]; cbv zeta;
      try (intros [= <-]; now right).
    destruct (Js.includes cats (Js.trim t)) eqn:E; intros [= <-];
      [left; now apply includes_In | now right].
  - unfold GeminiServiceGeneral.categorizeNote.
    destruct (key_missing key); [discriminate|].
    destruct (backend _) as [[t|]|]; cbv zeta;
      try (intros [= <-]; now right).
    destruct (Js.includes _ (Js.trim t)) eqn:E; intros [= <-];
      [|now right].
    apply includes_In, in_app_or in E as [E|[E|[]]]; [now left | now right].
Qed.

End CategorizerExtras.

Section ControllerExtras.

Import Types GeminiService App AppShell Vocabulary.

Lemma step_settings (env : Env) (e : event) (s s' : state) :
  step env e s = Some s' ->
  settings (ui s')
  = match e with
    | OnboardingComplete newSettings _ => finalSettings newSettings
    | _ => settings (ui s)
    end.
Proof.
  intros H. destruct e; step_cases H; try reflexivity.
Qed.

(** The form is there only while the onboarding is not complete. *)
Lemma step_onboarding_hidden (env : Env) (e : event) (s s' : state) :
  step env e s = Some s' -> shown s = true -> onboards e = false.
Proof.
  intros H Hs. destruct e; try reflexivity.
  unfold step in H. destruct (_ && _); [discriminate|].
  rewrite Hs in H. discriminate.
Qed.

Lemma step_shown (env : Env) (e : event) (s s' : state) :
  step env e s = Some s' -> shown s = true ->
  settings (ui s') = settings (ui s).
Proof.
  intros H Hs. pose proof (step_onboarding_hidden env e s s' H Hs) as Ho.
  rewrite (step_settings env e s s' H). destruct e; try reflexivity.
  discriminate.
Qed.

Lemma step_notes (env : Env) (e : event) (s s' : state) :
  step env e s = Some s' ->
  match e with
  | SaveNote uuid now =>
      exists n, savedNotes (ui s') = n :: savedNotes (ui s)
                /\ id n = uuid /\ timestamp n = now
  | DeleteSavedNote id0 =>
      savedNotes (ui s')
      = filter (fun n => negb (String.eqb (id n) id0)) (savedNotes (ui s))
  | _ => savedNotes (ui s') = savedNotes (ui s)
  end.
Proof.
  intros H. destruct e; step_cases H; cbn; try reflexivity; eauto.
  rewrite andb_false_r in *. discriminate.
Qed.

Lemma step_flag (env : Env) (e : event) (s s' : state) :
  step env e s = Some s' ->
  justEmailed (ui s')
  = match e with
    | ShareNote _ _ => true
    | SaveNote _ _ | Discard => false
    | _ => justEmailed (ui s)
    end.
Proof.
  intros H. destruct e; step_cases H; cbn;
    solve [reflexivity | rewrite andb_false_r in *; discriminate].
Qed.

(** X9.  The settings change at the onboarding only, and the saved notes
    only where a note is saved or deleted.  A run without an onboarding
    leaves the settings as they are; from a state that shows the controls
    no run holds an onboarding, so none changes the settings.  A run
    without a save or delete leaves the saved notes as they are, and
    whatever the run, a note found afterwards was there before or was saved
    in the run, under the identifier and with the time its save supplied. *)
Theorem run_keeps_settings_and_notes
    (env : Env) (es : list event) (s s' : state) :
  run env es s = Some s' ->
  (forallb (fun e => negb (onboards e)) es = true ->
   settings (ui s') = settings (ui s))
  /\ (shown s = true ->
      forallb (fun e => negb (onboards e)) es = true
      /\ settings (ui s') = settings (ui s))
  /\ (forallb (fun e => negb (edits_notes e)) es = true ->
      savedNotes (ui s') = savedNotes (ui s))
  /\ (forall n, In n (savedNotes (ui s')) ->
        In n (savedNotes (ui s))
        \/ exists uuid now,
             In (SaveNote uuid now) es /\ id n = uuid /\ timestamp n = now).
Proof.
  revert s. induction es as [|e es IH]; intros s H; cbn [run] in H.
  - injection H as <-. auto.
  - destruct (step env e s) as [s1|] eqn:E; [|discriminate].
    destruct (IH s1 H) as (Hs & Hsh & Hn & Hp).
    pose proof (step_settings env e s s1 E) as Es.
    pose proof (step_notes env e s s1 E) as En.
    split; [|split; [|split]].
    + cbn [forallb]. intros Hf. apply andb_true_iff in Hf as [He Hes].
      rewrite (Hs Hes), Es. destruct e; try reflexivity; discriminate.
    + intros Hshown.
      pose proof (step_onboarding_hidden env e s s1 E Hshown) as Ho.
      pose proof (step_shown env e s s1 E Hshown) as Ek.
      assert (Hshown1 : shown s1 = true).
      { unfold shown in *. now rewrite Ek. }
      destruct (Hsh Hshown1) as [Hf Hk]. cbn [forallb].
      rewrite Ho, Hf. split; [reflexivity | congruence].
    + cbn [forallb]. intros Hf. apply andb_true_iff in Hf as [He Hes].
      rewrite (Hn Hes). destruct e; try exact En; discriminate.
    + intros n Hin. destruct (Hp n Hin) as [H1|(uuid & now & Hi & Hid)].
      * destruct e; try (left; now rewrite <- En).
        -- destruct En as (n0 & En & Hid & Ht). rewrite En in H1.
           destruct H1 as [<-|H1]; [|now left].
           right. exists uuid, now. cbn. auto.
        -- rewrite En in H1. apply filter_In in H1 as [H1 _]. now left.
      * right. exists uuid, now. cbn. auto.
Qed.

Lemma run_keeps_settings_and_notes_witness :
  exists s',
    run Scenario.no_key_env
      [Click; Resume 0 SessionReady; Resume 0 ContextClosed;
       Resume 0 (Categorized Rejected)] Scenario.recording_milk = Some s'
    /\ settings (ui s') = Scenario.onboarded
    /\ savedNotes (ui s') = [].
Proof.
  assert (Hex : exists s',
             run Scenario.no_key_env
               [Click; Resume 0 SessionReady; Resume 0 ContextClosed;
                Resume 0 (Categorized Rejected)] Scenario.recording_milk
             = Some s') by (eexists; vm_compute; reflexivity).
  destruct Hex as [s' Hrun]. exists s'. split; [exact Hrun|].
  destruct (run_keeps_settings_and_notes _ _ _ _ Hrun) as (_ & Hs & Hn & _).
  split; [exact (proj2 (Hs eq_refl)) | exact (Hn eq_refl)].
Defined.

(** X10.  The "just emailed" flag is raised by a share and lowered by a save
    or a discard, and by nothing else: every other event, and so every run
    without those three, leaves it as it is -- also the click that starts a
    new recording from the review of a note. *)
Theorem flag_moves_only_on_share_save_discard
    (env : Env) (es : list event) (s s' : state) :
  run env es s = Some s' ->
  (forall e s1 s2, step env e s1 = Some s2 ->
     justEmailed (ui s2)
     = match e with
       | ShareNote _ _ => true
       | SaveNote _ _ | Discard => false
       | _ => justEmailed (ui s1)
       end)
  /\ (forallb (fun e => negb (moves_flag e)) es = true ->
      justEmailed (ui s') = justEmailed (ui s)).
Proof.
  intros H. split; [intros e s1 s2; apply step_flag|].
  revert s H. induction es as [|e es IH]; intros s H Hf; cbn [run] in H.
  - now injection H as <-.
  - destruct (step env e s) as [s1|] eqn:E; [|discriminate].
    cbn [forallb] in Hf. apply andb_true_iff in Hf as [He Hes].
    rewrite (IH s1 H Hes), (step_flag env e s s1 E).
    destruct e; try reflexivity; discriminate.
Qed.

Lemma flag_moves_only_on_share_save_discard_witness :
  exists s',
    run Scenario.notes_env [Click; Resume 0 NoStream]
      Scenario.review_milk_mailed = Some s'
    /\ justEmailed (ui s') = true.
Proof.
  assert (Hex : exists s',
             run Scenario.notes_env [Click; Resume 0 NoStream]
               Scenario.review_milk_mailed = Some s')
    by (eexists; vm_compute; reflexivity).
  destruct Hex as [s' Hrun]. exists s'. split; [exact Hrun|].
  exact (proj2 (flag_moves_only_on_share_save_discard _ _ _ _ Hrun) eq_refl).
Defined.

(** ** Fragments *)

Lemma replace_dot_space_other (c : ascii) (s : string) :
  Ascii.eqb c "." = false ->
  Js.replace_dot_space (String c s) = String c (Js.replace_dot_space s).
Proof.
  intros E. destruct s as [|d s]; [reflexivity|].
  rewrite replace_dot_space_cons2, E. reflexivity.
Qed.

(** Normalizing what was normalized before, with more text behind it, is
    normalizing the whole in one go. *)
Lemma replace_dot_space_absorb (a b : string) :
  Js.replace_dot_space (Js.replace_dot_space a ++ b)
  = Js.replace_dot_space (a ++ b).
Proof.
  induction a as [| c | c d a IH1 IH2] using string_ind2.
  - reflexivity.
  - reflexivity.
  - rewrite replace_dot_space_cons2.
    change (String c (String d a) ++ b) with (String c (String d (a ++ b))).
    rewrite (replace_dot_space_cons2 c d (a ++ b)).
    destruct (Ascii.eqb c "." && Ascii.eqb d " ")%bool eqn:E.
    + change (String "." (String Js.LF (Js.replace_dot_space a)) ++ b)
        with (String "." (String Js.LF (Js.replace_dot_space a ++ b))).
      rewrite replace_dot_space_cons2.
      replace (Ascii.eqb Js.LF " ") with false by reflexivity.
      rewrite andb_false_r.
      rewrite replace_dot_space_other by reflexivity. now rewrite IH1.
    + pose proof (replace_dot_space_head (String d a)) as Hh.
      destruct (Js.replace_dot_space (String d a)) as [|d' t] eqn:Er;
        [discriminate Hh|].
      destruct Hh as [t' Ht]. injection Ht as <- _.
      change (String c (String d t) ++ b) with (String c (String d (t ++ b))).
      rewrite replace_dot_space_cons2, E. f_equal.
      change (String d (t ++ b)) with (String d t ++ b).
      change (String d (a ++ b)) with (String d a ++ b).
      exact IH2.
Qed.

Lemma concat_empty_cons (x : string) (xs : list string) :
  String.concat "" (x :: xs) = x ++ String.concat "" xs.
Proof.
  destruct xs as [|y ys]; cbn [String.concat].
  - now rewrite append_nil_r.
  - reflexivity.
Qed.

(** The buffer after a list of fragments, as [onmessage] builds it. *)
Lemma run_messages
    (env : Env) (sid : nat) (x : session) (texts : list (option string))
    (s : state) :
  mounted s = true ->
  session_at s sid = Some x -> status x = Open ->
  exists s',
    run env (map (fun t => Message sid (Some t)) texts) s = Some s'
    /\ currentTranscription (ui s')
       = fold_left (fun b t => Js.replace_dot_space (b ++ text_or_undefined t))
           texts (currentTranscription (ui s))
    /\ same_but_buffer s s'.
Proof.
  revert s. induction texts as [|t texts IH]; intros s Hm Hx Ho.
  - exists s. split; [reflexivity|]. split; [reflexivity|].
    unfold same_but_buffer. repeat split.
  - cbn [map run]. unfold step at 1. rewrite Hm, Hx, Ho. cbn [negb].
    destruct (IH (onmessage (Some t) s)) as (s' & Hrun & Hb & Hs);
      try assumption.
    exists s'. split; [exact Hrun|]. split; [exact Hb | exact Hs].
Qed.

Lemma fold_fragments (texts : list (option string)) (b : string) :
  Js.has_dot_space b = false ->
  fold_left (fun b t => Js.replace_dot_space (b ++ text_or_undefined t))
    texts b
  = Js.replace_dot_space (b ++ heard texts).
Proof.
  revert b. induction texts as [|t texts IH]; intros b Hb.
  - unfold heard. cbn. rewrite append_nil_r.
    symmetry. now apply replace_dot_space_fixed.
  - cbn [fold_left]. rewrite IH by apply replace_dot_space_clean.
    rewrite replace_dot_space_absorb. unfold heard. cbn [map].
    now rewrite concat_empty_cons, append_assoc.
Qed.

(** X11.  Fragments add up: after any list of transcription messages from an
    open session, taken in from a buffer without a period-space pair, the
    buffer is the normalization of the old buffer followed by all the
    fragments in their order -- applying the rewrite to the whole buffer at
    every arrival gives what one rewrite at the end would -- and nothing
    else of the state has changed. *)
Theorem fragments_accumulate
    (env : Env) (sid : nat) (x : session) (texts : list (option string))
    (s : state) :
  mounted s = true ->
  session_at s sid = Some x -> status x = Open ->
  Js.has_dot_space (currentTranscription (ui s)) = false ->
  exists s',
    run env (map (fun t => Message sid (Some t)) texts) s = Some s'
    /\ currentTranscription (ui s')
       = Js.replace_dot_space (currentTranscription (ui s) ++ heard texts)
    /\ same_but_buffer s s'.
Proof.
  intros Hm Hx Ho Hc.
  destruct (run_messages env sid x texts s Hm Hx Ho) as (s' & Hrun & Hb & Hs).
  exists s'. split; [exact Hrun|]. split; [|exact Hs].
  rewrite Hb. now apply fold_fragments.
Qed.

Lemma fragments_accumulate_witness :
  exists s',
    run Scenario.notes_env
      [Message 0 (Some (Some " Then eggs.")); Message 0 (Some (Some " Done"))]
      Scenario.recording_milk = Some s'
    /\ currentTranscription (ui s')
       = "buy milk Then eggs." ++ String Js.LF "Done".
Proof.
  destruct (fragments_accumulate Scenario.notes_env 0
              (open_session new_session)
              [Some " Then eggs."; Some " Done"] Scenario.recording_milk)
    as (s' & Hrun & Hb & _); try reflexivity.
  exists s'. split; [exact Hrun | exact Hb].
Defined.

(** ** The stop, whatever the transcript *)

Lemma run_release_audio_any (env : Env) (tr : string) (cats : list string)
    (s : state) :
  mounted s = true ->
  run env
    match audioContextRef (refs s), scriptProcessorRef (refs s),
          mediaStreamSourceRef (refs s) with
    | Some ctx, Some _, Some _ =>
        if context_closed s ctx then []
        else [Resume (List.length (pending s)) ContextClosed]
    | _, _, _ => []
    end
    (stop_release_audio tr cats s)
  = Some (stop_evaluate tr cats (release_audio s)).
Proof.
  intros Hm. unfold stop_release_audio, release_audio.
  destruct (audioContextRef (refs s)) as [c|]; [|reflexivity].
  destruct (scriptProcessorRef (refs s)) as [pn|]; [|reflexivity].
  destruct (mediaStreamSourceRef (refs s)) as [mn|]; [|reflexivity].
  cbv zeta. set (s1 := set_nodes _ s).
  change (context_closed s1 c) with (context_closed s c).
  destruct (context_closed s c); [reflexivity|].
  cbn [run]. change (List.length (pending s)) with (List.length (pending s1)).
  rewrite step_resume_suspended by exact Hm. reflexivity.
Qed.

Lemma run_stop_cleanup_any (env : Env) (s : state) :
  mounted s = true ->
  shown s = true ->
  appState (ui s) = RECORDING ->
  (forall sid, sessionPromiseRef (refs s) = Some sid ->
     exists x, session_at s sid = Some x /\ resolved x = true) ->
  run env (stop_cleanup_events s) s
  = Some (stop_evaluate (currentTranscription (ui s))
            (categories (settings (ui s))) (released s)).
Proof.
  intros Hm Hsh Ha Hres.
  unfold stop_cleanup_events, released. cbv zeta. cbn [run].
  rewrite (step_click_stop env s Hm Hsh Ha). unfold stop_begin. cbv zeta.
  set (s1 := on_ui (setAppState PROCESSING) s).
  set (tr := currentTranscription (ui s)) in *.
  set (cats := categories (settings (ui s))).
  unfold close_handle.
  change (sessionPromiseRef (refs s1)) with (sessionPromiseRef (refs s)).
  destruct (sessionPromiseRef (refs s)) as [sid|] eqn:Es.
  - destruct (Hres sid eq_refl) as (x & Hx & Hr).
    cbn [List.app run].
    change (List.length (pending s)) with (List.length (pending s1)).
    rewrite step_resume_suspended by exact Hm.
    cbn [resume]. change (session_at s1 sid) with (session_at s sid).
    rewrite Hx, Hr. unfold stop_close_session.
    exact (run_release_audio_any env tr cats
             (set_sessionPromiseRef None
                (set_sessions (update_nth sid close_session (sessions s1)) s1))
             Hm).
  - cbn [List.app]. exact (run_release_audio_any env tr cats s1 Hm).
Qed.

Lemma blank_trim_length (tr : string) :
  every Js.is_white_space tr = true ->
  (0 <? String.length (Js.trim tr))%nat = false.
Proof. intros H. apply trim_all_white in H. now rewrite H. Qed.

Lemma resolved_exists (s : state) :
  (forall sid, sessionPromiseRef (refs s) = Some sid ->
     exists x, session_at s sid = Some x /\ resolved x = true) ->
  forall sid, sessionPromiseRef (refs s) = Some sid ->
    exists x, session_at s sid = Some x.
Proof. intros H sid E. destruct (H sid E) as (x & Hx & _). eauto. Qed.

(** X12.  A stop whose transcript is empty or all white space ends in
    [IDLE] by itself: once the cleanup is through (handle null, session
    closed, audio released) the buffer is emptied, no call of the
    categorizer is waited for, and error, note under review and saved notes
    are what they were. *)
Theorem stop_blank_transcript (env : Env) (s : state) :
  mounted s = true ->
  shown s = true ->
  appState (ui s) = RECORDING ->
  (forall sid, sessionPromiseRef (refs s) = Some sid ->
     exists x, session_at s sid = Some x /\ resolved x = true) ->
  every Js.is_white_space (currentTranscription (ui s)) = true ->
  exists s',
    run env (stop_cleanup_events s) s = Some s'
    /\ appState (ui s') = IDLE
    /\ currentTranscription (ui s') = ""
    /\ pending s' = pending s
    /\ cleanup_done s s'
    /\ error (ui s') = error (ui s)
    /\ currentNote (ui s') = currentNote (ui s)
    /\ savedNotes (ui s') = savedNotes (ui s).
Proof.
  intros Hm Hsh Ha Hres Hb.
  destruct (released_frame s) as (Hp & _ & Hu & _).
  pose proof (released_cleanup_done s (resolved_exists s Hres)) as Hc.
  eexists. split; [now apply run_stop_cleanup_any|].
  unfold stop_evaluate. rewrite (blank_trim_length _ Hb).
  repeat match goal with |- _ /\ _ => split end;
    try exact Hc; cbn; rewrite ?Hp, ?Hu; reflexivity.
Qed.

Lemma stop_blank_transcript_witness :
  exists s',
    run Scenario.notes_env
      [Click; Resume 0 SessionReady; Resume 0 ContextClosed]
      (on_ui (setCurrentTranscription (fun _ => "  "))
         Scenario.recording_milk) = Some s'
    /\ appState (ui s') = IDLE /\ pending s' = [].
Proof.
  destruct (stop_blank_transcript Scenario.notes_env
              (on_ui (setCurrentTranscription (fun _ => "  "))
                 Scenario.recording_milk))
    as (s' & Hrun & Ha & _ & Hp & _).
  - reflexivity.
  - reflexivity.
  - reflexivity.
  - intros sid [= <-]. eexists. split; reflexivity.
  - reflexivity.
  - exists s'. split; [exact Hrun|]. split; [exact Ha | exact Hp].
Defined.

Lemma run_stop_categorize (env : Env) (s : state) (g : generation) :
  mounted s = true ->
  shown s = true ->
  appState (ui s) = RECORDING ->
  (forall sid, sessionPromiseRef (refs s) = Some sid ->
     exists x, session_at s sid = Some x /\ resolved x = true) ->
  (0 < String.length (Js.trim (currentTranscription (ui s))))%nat ->
  run env (stop_cleanup_events s
           ++ [Resume (List.length (pending s)) (Categorized g)]) s
  = Some (stop_finish
            (categorize env g (currentTranscription (ui s))
               (categories (settings (ui s))))
            (currentTranscription (ui s)) (released s)).
Proof.
  intros Hm Hsh Ha Hres Hnb.
  destruct (released_frame s) as (Hp & Hmr & _).
  rewrite run_app, run_stop_cleanup_any by assumption.
  rewrite stop_evaluate_nonblank by exact Hnb. cbn [run].
  rewrite <- Hp. rewrite step_resume_suspended by (now rewrite Hmr).
  reflexivity.
Qed.

(** X13.  A stop whose transcript is not blank and whose categorizer
    returns ends in [REVIEW]: the note under review has the transcript of
    the click and the returned category, which is one of the user's
    categories or the fallback of the copy; the buffer is empty, the error
    is what it was, the cleanup is through and nothing waits any more. *)
Theorem stop_categorized
    (env : Env) (s : state) (g : generation) (c : string) :
  mounted s = true ->
  shown s = true ->
  appState (ui s) = RECORDING ->
  (forall sid, sessionPromiseRef (refs s) = Some sid ->
     exists x, session_at s sid = Some x /\ resolved x = true) ->
  (0 < String.length (Js.trim (currentTranscription (ui s))))%nat ->
  categorize env g (currentTranscription (ui s))
    (categories (settings (ui s))) = Returned c ->
  exists s',
    run env (stop_cleanup_events s
             ++ [Resume (List.length (pending s)) (Categorized g)]) s
    = Some s'
    /\ appState (ui s') = REVIEW
    /\ currentNote (ui s')
       = Some {| draft_text := currentTranscription (ui s);
                 draft_category := c; draft_emailSent := None |}
    /\ (In c (categories (settings (ui s)))
        \/ c = match app env with
               | QuickNotes => "Notes"
               | QuickDictate => "General Note"
               end)
    /\ currentTranscription (ui s') = ""
    /\ error (ui s') = error (ui s)
    /\ savedNotes (ui s') = savedNotes (ui s)
    /\ pending s' = pending s
    /\ cleanup_done s s'.
Proof.
  intros Hm Hsh Ha Hres Hnb Hcat.
  destruct (released_frame s) as (Hp & Hmr & Hu & _).
  pose proof (released_cleanup_done s (resolved_exists s Hres)) as Hc.
  eexists. split.
  { rewrite run_stop_categorize by assumption. rewrite Hcat. reflexivity. }
  unfold stop_finish.
  repeat match goal with |- _ /\ _ => split end;
    try exact Hc; try (cbn; rewrite ?Hp, ?Hu; reflexivity).
  unfold categorize in Hcat.
  destruct (app env);
    [ apply (proj1 (categorizeNote_falls_back_both _ _ _ _ _)) in Hcat
    | apply (proj2 (categorizeNote_falls_back_both _ _ _ _ _)) in Hcat ];
    exact Hcat.
Qed.

Lemma stop_categorized_witness :
  exists s',
    run Scenario.notes_env
      [Click; Resume 0 SessionReady; Resume 0 ContextClosed;
       Resume 0 (Categorized (Responded (Some (" To-do" ++ String Js.LF ""))))]
      Scenario.recording_milk = Some s'
    /\ currentNote (ui s')
       = Some {| draft_text := "buy milk"; draft_category := "To-do";
                 draft_emailSent := None |}.
Proof.
  destruct (stop_categorized Scenario.notes_env Scenario.recording_milk
              (Responded (Some (" To-do" ++ String Js.LF ""))) "To-do")
    as (s' & Hrun & _ & Hn & _).
  - reflexivity.
  - reflexivity.
  - reflexivity.
  - intros sid [= <-]. eexists. split; reflexivity.
  - apply Nat.ltb_lt. reflexivity.
  - reflexivity.
  - exists s'. split; [exact Hrun | exact Hn].
Defined.

(** ** The start *)

Lemma step_click_start (env : Env) (s : state) :
  mounted s = true -> shown s = true ->
  appState (ui s) <> RECORDING -> appState (ui s) <> PROCESSING ->
  step env Click s = Some (start_begin s).
Proof.
  intros Hm Hs Hr Hp. unfold step, handleToggleRecording. rewrite Hm, Hs.
  destruct (appState (ui s)); try contradiction; reflexivity.
Qed.

(** X14.  A start that is refused the microphone ends where no recording
    is: the state is [IDLE] with the microphone error shown, no session,
    context or node was made and no ref was touched, and the call waits no
    more.  The start has all the same emptied the buffer and dropped the
    note that was under review. *)
Theorem start_denied (env : Env) (s : state) :
  mounted s = true -> shown s = true ->
  appState (ui s) <> RECORDING -> appState (ui s) <> PROCESSING ->
  exists s',
    run env [Click; Resume (List.length (pending s)) NoStream] s = Some s'
    /\ appState (ui s') = IDLE
    /\ error (ui s')
       = Some "Could not access microphone. Please grant permission and try again."
    /\ resources s' = resources s
    /\ pending s' = pending s
    /\ currentNote (ui s') = None
    /\ currentTranscription (ui s') = ""
    /\ savedNotes (ui s') = savedNotes (ui s).
Proof.
  intros Hm Hs Hr Hp. eexists. split.
  { cbn [run]. rewrite step_click_start by assumption. unfold start_begin.
    set (s1 := on_ui _ s).
    change (List.length (pending s)) with (List.length (pending s1)).
    rewrite step_resume_suspended by exact Hm. reflexivity. }
  cbn. repeat split.
Qed.

Lemma start_denied_witness :
  exists s',
    run Scenario.notes_env [Click; Resume 0 NoStream] Scenario.review_milk
    = Some s'
    /\ appState (ui s') = IDLE /\ currentNote (ui s') = None.
Proof.
  destruct (start_denied Scenario.notes_env Scenario.review_milk)
    as (s' & Hrun & Ha & _ & _ & _ & Hn & _);
    try reflexivity; try discriminate.
  exists s'. split; [exact Hrun|]. split; [exact Ha | exact Hn].
Defined.

(** ** The unmounting *)

Lemma unmount_frame (s : state) :
  ui (unmount s) = ui s /\ refs (unmount s) = refs s
  /\ nodes (unmount s) = nodes s /\ pending (unmount s) = pending s
  /\ mounted (unmount s) = false
  /\ List.length (sessions (unmount s)) = List.length (sessions s)
  /\ List.length (contexts (unmount s)) = List.length (contexts s).
Proof.
  unfold unmount. destruct s as [u [sp ac pr ms] ss cs ns p fx mt].
  unfold context_closed. cbn.
  destruct sp as [sid|], ac as [c|]; cbn;
    try (destruct (nth c cs true)); cbn;
    rewrite ?length_update_nth; repeat split.
Qed.

Lemma update_nth_snoc {A : Type} (f : A -> A) (l : list A) (x : A) :
  update_nth (List.length l) f (l ++ [x])%list = (l ++ [f x])%list.
Proof. induction l as [|y l IH]; cbn; congruence. Qed.

Lemma nth_snoc {A : Type} (l : list A) (x d : A) :
  nth (List.length l) (l ++ [x])%list d = x.
Proof. induction l as [|y l IH]; cbn; auto. Qed.

(** X15.  The cleanup at unmounting never fails and leaves the state cells
    and the refs alone: a context held by [audioContextRef] is closed
    afterwards, a session held by the handle is closed if its promise has
    resolved and is marked to be closed when it resolves otherwise, and with
    neither a handle nor a context nothing changes at all.  Afterwards no
    event of the page happens any more, but nothing that was awaited is
    cancelled: a session that was marked is closed as soon as it opens, and
    a start that was waiting for the microphone still goes on when the
    microphone is granted and makes a new context and a new session, which
    the cleanup has not seen and which stay open. *)
Theorem unmount_cleanup (env : Env) (s : state) :
  mounted s = true ->
  exists s',
    step env Unmount s = Some s'
    /\ ui s' = ui s /\ refs s' = refs s
    /\ nodes s' = nodes s /\ pending s' = pending s
    /\ (forall ctx, audioContextRef (refs s) = Some ctx ->
          context_closed s' ctx = true)
    /\ (forall sid x, sessionPromiseRef (refs s) = Some sid ->
          session_at s sid = Some x ->
          exists x', session_at s' sid = Some x'
            /\ if resolved x then session_open x' = false
               else close_when_resolved x' = true /\ status x' = status x)
    /\ (sessionPromiseRef (refs s) = None ->
        audioContextRef (refs s) = None ->
        sessions s' = sessions s /\ contexts s' = contexts s)
    /\ (forall e, from_page e = true -> step env e s' = None)
    /\ (forall sid x, sessionPromiseRef (refs s) = Some sid ->
          session_at s sid = Some x ->
          status x = Connecting -> resolved x = false ->
          exists s2 x2,
            step env (SessionOpen sid) s' = Some s2
            /\ session_at s2 sid = Some x2 /\ session_open x2 = false)
    /\ (forall n, nth_error (pending s) n = Some StartAwaitMicrophone ->
          exists s2,
            step env (Resume n GotStream) s' = Some s2
            /\ audioContextRef (refs s2) = Some (List.length (contexts s))
            /\ context_closed s2 (List.length (contexts s)) = false
            /\ sessionPromiseRef (refs s2) = Some (List.length (sessions s))
            /\ session_at s2 (List.length (sessions s)) = Some new_session).
Proof.
  intros Hm. exists (unmount s).
  destruct (unmount_frame s) as (Hu & Hr & Hn & Hp & Hmt & Hls & Hlc).
  assert (Hmarked : forall sid x, sessionPromiseRef (refs s) = Some sid ->
            session_at s sid = Some x ->
            exists x', session_at (unmount s) sid = Some x'
              /\ if resolved x then session_open x' = false
                 else close_when_resolved x' = true /\ status x' = status x).
  { clear. destruct s as [u [sp ac pr ms] ss cs ns p fx mt].
    unfold unmount, context_closed, session_at. cbn.
    intros sid x [= ->] Hx.
    destruct ac as [c|]; cbn; try (destruct (nth c cs true)); cbn;
      rewrite nth_error_update_nth, Nat.eqb_refl, Hx; cbn;
      (eexists; split; [reflexivity|]);
      destruct (resolved x) eqn:Hres; rewrite ?Hres; cbn; auto;
      unfold session_open; cbn; destruct (status x); reflexivity. }
  split; [unfold step; cbn [from_page andb]; now rewrite Hm|].
  split; [exact Hu|]. split; [exact Hr|]. split; [exact Hn|].
  split; [exact Hp|].
  split; [|split; [exact Hmarked|split; [|split; [|split]]]].
  - clear. destruct s as [u [sp ac pr ms] ss cs ns p fx mt].
    unfold unmount, context_closed. cbn. intros ctx [= ->].
    destruct sp as [sid|]; cbn; destruct (nth ctx cs true) eqn:Hc; cbn;
      auto using nth_update_nth_default.
  - clear. destruct s as [u [sp ac pr ms] ss cs ns p fx mt].
    unfold unmount. cbn. intros -> ->. split; reflexivity.
  - intros e He. unfold step. now rewrite He, Hmt.
  - intros sid x Hh Hx Hc Hres.
    destruct (Hmarked sid x Hh Hx) as (x' & Hx' & Hmark).
    rewrite Hres in Hmark. destruct Hmark as [Hcl Hst].
    unfold step. cbn [from_page andb]. rewrite Hx', Hst, Hc.
    do 2 eexists. split; [reflexivity|].
    clear - Hx' Hcl. set (s1 := unmount s) in *. clearbody s1.
    destruct s1 as [u1 [sp1 ac1 pr1 ms1] ss1 cs1 ns1 p1 fx1 mt1].
    unfold session_at, onopen in *. cbn in Hx' |- *.
    destruct ac1; cbn;
      rewrite nth_error_update_nth, Nat.eqb_refl, Hx'; cbn;
      (split; [reflexivity|]);
      unfold resolve_session; rewrite Hcl;
      unfold session_open; reflexivity.
  - intros n Hpn. unfold step. cbn [from_page andb]. rewrite Hp, Hpn.
    cbn [resume]. eexists. split; [reflexivity|].
    clear - Hls Hlc. set (s1 := unmount s) in *. clearbody s1.
    destruct s1 as [u1 [sp1 ac1 pr1 ms1] ss1 cs1 ns1 p1 fx1 mt1].
    unfold start_with_stream, context_closed, session_at. cbn in *.
    rewrite <- Hls, <- Hlc. repeat split.
    + apply nth_snoc.
    + apply nth_error_snoc.
Qed.

Lemma unmount_cleanup_witness :
  exists s',
    step Scenario.notes_env Unmount Scenario.recording_milk = Some s'
    /\ context_closed s' 0 = true
    /\ step Scenario.notes_env Click s' = None.
Proof.
  destruct (unmount_cleanup Scenario.notes_env Scenario.recording_milk)
    as (s' & Hstep & _ & _ & _ & _ & Hctx & _ & _ & Hdead & _);
    [reflexivity|].
  exists s'. split; [exact Hstep|]. split; [|now apply Hdead].
  apply Hctx. reflexivity.
Defined.

(** ** A whole dictation *)

Lemma run_start (env : Env) (s : state) :
  mounted s = true -> shown s = true ->
  appState (ui s) <> RECORDING -> appState (ui s) <> PROCESSING ->
  run env [Click; Resume (List.length (pending s)) GotStream;
           SessionOpen (List.length (sessions s))] s
  = Some (started s).
Proof.
  intros Hm Hs Hr Hp. cbn [run].
  rewrite step_click_start by assumption. unfold start_begin.
  set (s1 := on_ui _ s).
  change (List.length (pending s)) with (List.length (pending s1)).
  rewrite step_resume_suspended by exact Hm. cbn [resume].
  unfold step. cbn [from_page andb]. unfold session_at.
  change (sessions (start_with_stream s1))
    with (sessions s ++ [new_session])%list.
  rewrite nth_error_snoc. cbn [status new_session]. rewrite update_nth_snoc.
  unfold started. cbv zeta. fold s1.
  change (sessions (start_with_stream s1))
    with (sessions s ++ [new_session])%list.
  rewrite update_nth_snoc. reflexivity.
Qed.

Lemma started_frame (s : state) :
  ui (started s)
  = setAppState RECORDING
      (setCurrentTranscription (fun _ => "")
         (setCurrentNote None (setError None (ui s))))
  /\ refs (started s)
     = {| sessionPromiseRef := Some (List.length (sessions s));
          audioContextRef := Some (List.length (contexts s));
          scriptProcessorRef := Some (S (List.length (nodes s)));
          mediaStreamSourceRef := Some (List.length (nodes s)) |}
  /\ sessions (started s) = (sessions s ++ [open_session new_session])%list
  /\ contexts (started s) = (contexts s ++ [false])%list
  /\ nodes (started s) = (nodes s ++ [true; true])%list
  /\ pending (started s) = pending s
  /\ effects (started s) = effects s
  /\ mounted (started s) = mounted s.
Proof.
  unfold started, onopen, start_with_stream. cbn.
  rewrite update_nth_snoc. repeat split.
Qed.

(** X16.  A start that is granted the microphone and whose session opens:
    the state is [RECORDING] with an empty buffer, no note under review and
    no error; the handle names a new, open session behind those that were
    there, the three audio refs name a new open context and two new
    connected nodes, nothing that existed is touched, the call waits no more,
    and from now on every audio frame goes to that session, encoded by
    [createBlob]. *)
Theorem start_opens_session (env : Env) (s : state) :
  mounted s = true -> shown s = true ->
  appState (ui s) <> RECORDING -> appState (ui s) <> PROCESSING ->
  exists s',
    run env [Click; Resume (List.length (pending s)) GotStream;
             SessionOpen (List.length (sessions s))] s = Some s'
    /\ appState (ui s') = RECORDING
    /\ currentTranscription (ui s') = ""
    /\ currentNote (ui s') = None
    /\ error (ui s') = None
    /\ savedNotes (ui s') = savedNotes (ui s)
    /\ sessionPromiseRef (refs s') = Some (List.length (sessions s))
    /\ sessions s' = (sessions s ++ [open_session new_session])%list
    /\ audioContextRef (refs s') = Some (List.length (contexts s))
    /\ contexts s' = (contexts s ++ [false])%list
    /\ mediaStreamSourceRef (refs s') = Some (List.length (nodes s))
    /\ scriptProcessorRef (refs s') = Some (S (List.length (nodes s)))
    /\ nodes s' = (nodes s ++ [true; true])%list
    /\ pending s' = pending s
    /\ forall inputData,
         AppShell.onaudioprocess inputData s'
         = Some (List.length (sessions s), AudioUtils.createBlob inputData).
Proof.
  intros Hm Hs Hr Hp. exists (started s).
  split; [now apply run_start|].
  destruct (started_frame s) as (Hu & Hrf & Hss & Hcs & Hns & Hpd & _).
  unfold AppShell.onaudioprocess. rewrite Hu, Hrf, Hss, Hcs, Hns, Hpd.
  repeat split.
Qed.

Lemma start_opens_session_witness :
  exists s',
    run Scenario.notes_env [Click; Resume 0 GotStream; SessionOpen 0]
      Scenario.fresh = Some s'
    /\ appState (ui s') = RECORDING
    /\ sessions s' = [open_session new_session]
    /\ nodes s' = [true; true].
Proof.
  destruct (start_opens_session Scenario.notes_env Scenario.fresh)
    as (s' & Hrun & Ha & _ & _ & _ & _ & _ & Hss & _ & _ & _ & _ & Hns & _);
    try reflexivity; try discriminate.
  exists s'. split; [exact Hrun|]. split; [exact Ha|].
  split; [exact Hss | exact Hns].
Defined.

(** X17.  A whole dictation: start, the microphone granted, the session
    open, any fragments, the stop with its awaited promises settling in
    turn, and a categorizer that returns.  It ends in [REVIEW] on a note
    whose text is the normalization of the fragments put end to end and
    whose category is the one returned; the buffer is empty, the handle is
    null, the session is closed, the context is closed and both nodes are
    disconnected, no call waits, audio frames are sent nowhere, and the
    saved notes are what they were. *)
Theorem dictation_cycle
    (env : Env) (s : state) (texts : list (option string))
    (g : generation) (c : string) :
  let k := List.length (pending s) in
  let sid := List.length (sessions s) in
  let heard_text := Js.replace_dot_space (heard texts) in
  mounted s = true -> shown s = true ->
  appState (ui s) <> RECORDING -> appState (ui s) <> PROCESSING ->
  (0 < String.length (Js.trim heard_text))%nat ->
  categorize env g heard_text (categories (settings (ui s))) = Returned c ->
  exists s',
    run env
      ([Click; Resume k GotStream; SessionOpen sid]
       ++ map (fun t => Message sid (Some t)) texts
       ++ [Click; Resume k SessionReady; Resume k ContextClosed;
           Resume k (Categorized g)])%list s = Some s'
    /\ appState (ui s') = REVIEW
    /\ currentNote (ui s')
       = Some {| draft_text := heard_text; draft_category := c;
                 draft_emailSent := None |}
    /\ currentTranscription (ui s') = ""
    /\ savedNotes (ui s') = savedNotes (ui s)
    /\ sessionPromiseRef (refs s') = None
    /\ (exists x, session_at s' sid = Some x /\ session_open x = false)
    /\ context_closed s' (List.length (contexts s)) = true
    /\ node_connected s' (List.length (nodes s)) = false
    /\ node_connected s' (S (List.length (nodes s))) = false
    /\ pending s' = pending s
    /\ forall inputData, AppShell.onaudioprocess inputData s' = None.
Proof.
  cbv zeta. intros Hm Hs Hr Hp Hnb Hcat.
  destruct (started_frame s)
    as (Hu1 & Hrf1 & Hss1 & Hcs1 & Hns1 & Hpd1 & _ & Hm1).
  destruct (run_messages env (List.length (sessions s)) (open_session new_session) texts (started s))
    as (s2 & Hrun2 & Hb2 & Hsame).
  { now rewrite Hm1. }
  { unfold session_at. rewrite Hss1. apply nth_error_snoc. }
  { reflexivity. }
  rewrite Hu1 in Hb2. cbn [currentTranscription setAppState
                             setCurrentTranscription] in Hb2.
  rewrite fold_fragments in Hb2 by reflexivity.
  change (EmptyString ++ heard texts) with (heard texts) in Hb2.
  destruct Hsame as (Ha2 & _ & Hsv2 & _ & Hst2 & _ & Hrf2 & Hss2 & Hcs2
                     & Hns2 & Hpd2 & _ & Hm2).
  assert (Hev : stop_cleanup_events s2
                = [Click; Resume (List.length (pending s)) SessionReady;
                   Resume (List.length (pending s)) ContextClosed]).
  { unfold stop_cleanup_events, context_closed.
    rewrite Hrf2, Hrf1, Hcs2, Hcs1, Hpd2, Hpd1.
    cbn [sessionPromiseRef audioContextRef scriptProcessorRef
         mediaStreamSourceRef].
    rewrite nth_snoc. reflexivity. }
  assert (Hres : forall sid0, sessionPromiseRef (refs s2) = Some sid0 ->
            exists x, session_at s2 sid0 = Some x /\ resolved x = true).
  { intros sid0. rewrite Hrf2, Hrf1. intros [= <-].
    exists (open_session new_session). split; [|reflexivity].
    unfold session_at. rewrite Hss2, Hss1. apply nth_error_snoc. }
  assert (Hm2' : mounted s2 = true) by (now rewrite Hm2, Hm1).
  assert (Hsh2 : shown s2 = true).
  { unfold shown in *. rewrite Hst2, Hu1. exact Hs. }
  assert (Ha2' : appState (ui s2) = RECORDING) by (now rewrite Ha2, Hu1).
  assert (Hst : categories (settings (ui s2)) = categories (settings (ui s))).
  { now rewrite Hst2, Hu1. }
  pose proof (run_stop_categorize env s2 g Hm2' Hsh2 Ha2' Hres) as Hstop.
  rewrite Hb2, Hst, Hcat, Hev, Hpd2, Hpd1 in Hstop.
  specialize (Hstop Hnb).
  destruct (released_frame s2) as (Hp3 & _ & Hu3 & _).
  destruct (released_cleanup_done s2 (resolved_exists s2 Hres))
    as (Hh3 & Hx3 & Hau3).
  destruct (Hau3 _ _ _ (f_equal audioContextRef (eq_trans Hrf2 Hrf1))
              (f_equal scriptProcessorRef (eq_trans Hrf2 Hrf1))
              (f_equal mediaStreamSourceRef (eq_trans Hrf2 Hrf1)))
    as (Hn1 & Hn2 & Hc3).
  eexists. split.
  { rewrite run_app, (run_start env s Hm Hs Hr Hp).
    rewrite run_app, Hrun2. exact Hstop. }
  unfold stop_finish, AppShell.onaudioprocess.
  repeat match goal with |- _ /\ _ => split end;
    try exact Hh3; try exact Hc3; try exact Hn1; try exact Hn2;
    try (cbn; rewrite ?Hu3; cbn; reflexivity).
  - cbn. rewrite Hu3. cbn. now rewrite Hsv2, Hu1.
  - apply Hx3. now rewrite Hrf2, Hrf1.
  - cbn. now rewrite Hp3, Hpd2, Hpd1.
  - intros inputData.
    change (sessionPromiseRef (refs (released s2)) = None) in Hh3.
    cbn. now rewrite Hh3.
Qed.

Lemma dictation_cycle_witness :
  exists s',
    run Scenario.notes_env
      [Click; Resume 0 GotStream; SessionOpen 0;
       Message 0 (Some (Some "Call Ann. ")); Message 0 (Some (Some "Then Bob"));
       Click; Resume 0 SessionReady; Resume 0 ContextClosed;
       Resume 0 (Categorized (Responded (Some "Follow ups")))]
      Scenario.fresh = Some s'
    /\ currentNote (ui s')
       = Some {| draft_text := "Call Ann." ++ String Js.LF "Then Bob";
                 draft_category := "Follow ups"; draft_emailSent := None |}.
Proof.
  destruct (dictation_cycle Scenario.notes_env Scenario.fresh
              [Some "Call Ann. "; Some "Then Bob"]
              (Responded (Some "Follow ups")) "Follow ups")
    as (s' & Hrun & _ & Hn & _);
    try reflexivity; try discriminate.
  - apply Nat.ltb_lt. reflexivity.
  - exists s'. split; [exact Hrun | exact Hn].
Defined.

End ControllerExtras.

(* ================================================================== *)
(** * The rewrite of the buffer, place by place *)
(* ================================================================== *)

Section TranscriptExtras.

Import Js Vocabulary.

(** X18.  The rewrite of the buffer keeps its length and touches one kind
    of place only: a space that stands right after a period becomes a line
    feed; every other code unit stays what and where it was. *)
Theorem replace_dot_space_pointwise (s : string) :
  String.length (replace_dot_space s) = String.length s
  /\ forall i,
       String.get i (replace_dot_space s)
       = match String.get i s with
         | Some c =>
             if (Ascii.eqb c " " && after_period s i)%bool
             then Some LF else Some c
         | None => None
         end.
Proof.
  induction s as [| c | c d s [IHl1 IHg1] [IHl2 IHg2]] using string_ind2.
  - split; [reflexivity|]. intros i. now destruct i.
  - split; [reflexivity|]. intros [|i]; cbn.
    + now rewrite andb_false_r.
    + now destruct i.
  - rewrite replace_dot_space_cons2.
    destruct (Ascii.eqb c "." && Ascii.eqb d " ")%bool eqn:E.
    + apply andb_true_iff in E as [Ec Ed].
      apply Ascii.eqb_eq in Ec, Ed. subst c d. split.
      * cbn [String.length]. now rewrite IHl1.
      * intros [|[|i]]; [reflexivity | reflexivity |].
        change (String.get (S (S i)) (String "." (String LF (replace_dot_space s))))
          with (String.get i (replace_dot_space s)).
        change (String.get (S (S i)) (String "." (String " " s)))
          with (String.get i s).
        rewrite IHg1. destruct (String.get i s) as [x|]; [|reflexivity].
        destruct i as [|i]; reflexivity.
    + split.
      * cbn [String.length]. rewrite IHl2. reflexivity.
      * intros [|i].
        { cbn. now rewrite andb_false_r. }
        change (String.get (S i) (String c (replace_dot_space (String d s))))
          with (String.get i (replace_dot_space (String d s))).
        change (String.get (S i) (String c (String d s)))
          with (String.get i (String d s)).
        rewrite IHg2. destruct (String.get i (String d s)) as [x|] eqn:Ex;
          [|reflexivity].
        destruct i as [|i]; [|reflexivity].
        injection Ex as <-. cbn. rewrite andb_false_r.
        rewrite andb_comm in E. now rewrite E.
Qed.

End TranscriptExtras.

(* ================================================================== *)
(** * The answer of the model *)
(* ================================================================== *)

Section AnswerExtras.

Import GeminiService Vocabulary.

(** X19.  White space around the answer of the model does not count: in
    both copies an answer that is one of the user's categories with white
    space before and after it is returned as that category, stripped. *)
Theorem categorizeNote_answer_padded
    (key : option string) (backend : string -> generation)
    (text : string) (cats : list string) (before c after : string) :
  key_missing key = false ->
  every Js.is_white_space before = true ->
  every Js.is_white_space after = true ->
  Js.trim c = c ->
  In c cats ->
  (backend (GeminiService.prompt text cats)
   = Responded (Some (before ++ c ++ after)) ->
   GeminiService.categorizeNote key backend text cats = Returned c)
  /\ (backend (GeminiServiceGeneral.prompt text cats)
      = Responded (Some (before ++ c ++ after)) ->
      GeminiServiceGeneral.categorizeNote key backend text cats = Returned c).
Proof.
  intros Hk Hb Ha Hc Hin. split; intros Hr.
  - unfold GeminiService.categorizeNote. rewrite Hk, Hr. cbv zeta.
    rewrite trim_padded, Hc by assumption.
    destruct (Js.includes cats c) eqn:E; [reflexivity|].
    apply includes_not_In in E. contradiction.
  - unfold GeminiServiceGeneral.categorizeNote. rewrite Hk, Hr. cbv zeta.
    rewrite trim_padded, Hc by assumption.
    destruct (Js.includes (cats ++ ["General Note"]) c) eqn:E; [reflexivity|].
    apply includes_not_In in E. exfalso. apply E, in_or_app. now left.
Qed.

Lemma categorizeNote_answer_padded_witness :
  GeminiService.categorizeNote (Some "key")
    (fun _ => Responded (Some (" " ++ "Ideas" ++ String Js.LF "")))
    "a thought" ["Ideas"; "Notes"] = Returned "Ideas".
Proof.
  apply (categorizeNote_answer_padded (Some "key")
           (fun _ => Responded (Some (" " ++ "Ideas" ++ String Js.LF "")))
           "a thought" ["Ideas"; "Notes"] " " "Ideas" (String Js.LF ""));
    try reflexivity.
  cbn. auto.
Defined.

End AnswerExtras.

(* ================================================================== *)
(** * The saved notes *)
(* ================================================================== *)

Section NotesExtras.

Import Types GeminiService App AppShell Vocabulary.

(** Dropping saved notes neither repeats an identifier nor brings one in. *)
Lemma kept_ids_In (keep : Note -> bool) (notes : list Note) (i : string) :
  In i (map id (filter keep notes)) -> In i (map id notes).
Proof.
  intros Hin. apply in_map_iff in Hin as (n & <- & Hn).
  apply filter_In in Hn as [Hn _]. now apply in_map.
Qed.

Lemma kept_ids_NoDup (keep : Note -> bool) (notes : list Note) :
  NoDup (map id notes) -> NoDup (map id (filter keep notes)).
Proof.
  induction notes as [|n notes IH]; cbn; [auto|]. intros H.
  apply NoDup_cons_iff in H as [Hn Hrest]. destruct (keep n); cbn; auto.
  constructor; auto. intros Hin. now apply Hn, (kept_ids_In keep).
Qed.

Lemma NoDup_app_parts {A : Type} (l1 l2 : list A) :
  NoDup (l1 ++ l2) ->
  NoDup l1 /\ NoDup l2 /\ forall a, In a l1 -> ~ In a l2.
Proof.
  induction l1 as [|x l1 IH]; cbn; intros H.
  - repeat split; [constructor | assumption | tauto].
  - apply NoDup_cons_iff in H as [Hx H]. destruct (IH H) as (H1 & H2 & H3).
    repeat split; [| assumption |].
    + constructor; [|assumption]. intros Hin. apply Hx, in_or_app. now left.
    + intros a [<-|Ha] Hin; [apply Hx, in_or_app; now right|].
      now apply (H3 a).
Qed.

(** X20.  Identifiers stay distinct: if the identifiers drawn in a run are
    distinct from one another and from those of the notes saved before, no
    two saved notes share an identifier afterwards, and every identifier
    that is there was drawn in the run or was there before. *)
Theorem ids_stay_distinct (env : Env) (es : list event) (s s' : state) :
  run env es s = Some s' ->
  NoDup (drawn es ++ ids s) ->
  NoDup (ids s') /\ incl (ids s') (drawn es ++ ids s).
Proof.
  revert s. induction es as [|e es IH]; intros s Hrun Hnd.
  - injection Hrun as <-. split; [exact Hnd | apply incl_refl].
  - cbn [run] in Hrun. destruct (step env e s) as [s1|] eqn:E; [|discriminate].
    pose proof (step_notes env e s s1 E) as Hn.
    assert (Hgo : NoDup (drawn es ++ ids s1)
                  /\ incl (drawn es ++ ids s1) (drawn (e :: es) ++ ids s)).
    { unfold ids in *. destruct e; cbn [drawn] in *;
        try (rewrite Hn; split; [exact Hnd | apply incl_refl]).
      - destruct Hn as (n & Hn & Hid & _). rewrite Hn. cbn [map].
        rewrite Hid, <- app_assoc in *. split; [exact Hnd | apply incl_refl].
      - rewrite Hn. apply NoDup_app_parts in Hnd as (H1 & H2 & H3). split.
        + apply NoDup_app; [assumption | now apply kept_ids_NoDup |].
          intros a Ha Hin. apply (H3 a Ha). now apply kept_ids_In in Hin.
        + intros a Ha. apply in_app_or in Ha as [Ha|Ha]; apply in_or_app;
            [now left | right; now apply kept_ids_In in Ha]. }
    destruct Hgo as [Hnd1 Hincl]. destruct (IH s1 Hrun Hnd1) as [H1 H2].
    split; [exact H1|]. intros a Ha. apply Hincl, H2, Ha.
Qed.

Lemma ids_stay_distinct_witness :
  exists s',
    run Scenario.notes_env [SaveNote "id-2" 5] Scenario.review_milk_mailed
    = Some s'
    /\ NoDup (ids s').
Proof.
  assert (Hex : exists s',
             run Scenario.notes_env [SaveNote "id-2" 5]
               Scenario.review_milk_mailed = Some s')
    by (eexists; vm_compute; reflexivity).
  destruct Hex as [s' Hrun]. exists s'. split; [exact Hrun|].
  apply (ids_stay_distinct _ _ _ _ Hrun).
  repeat constructor; cbn; intuition discriminate.
Defined.

Lemma filter_absent (id0 : string) (l : list Note) :
  ~ In id0 (map id l) ->
  filter (fun note => negb (String.eqb (id note) id0)) l = l.
Proof.
  induction l as [|n l IH]; cbn; [auto|]. intros H.
  destruct (String.eqb (id n) id0) eqn:E.
  - apply String.eqb_eq in E. exfalso. apply H. now left.
  - cbn. f_equal. apply IH. intros Hin. apply H. now right.
Qed.

(** X21.  Saving the note under review with an identifier no saved note has
    and then deleting by that identifier gives back the saved notes as they
    were; the review is over all the same. *)
Theorem save_then_delete_restores
    (env : Env) (uuid : string) (now : Z) (s : state) :
  mounted s = true -> reviewing s = true ->
  ~ In uuid (ids s) ->
  exists s',
    run env [SaveNote uuid now; DeleteSavedNote uuid] s = Some s'
    /\ savedNotes (ui s') = savedNotes (ui s)
    /\ currentNote (ui s') = None
    /\ appState (ui s') = IDLE
    /\ justEmailed (ui s') = false.
Proof.
  intros Hm Hrev Hfresh.
  assert (Hsh : shown s = true).
  { unfold reviewing in Hrev. now destruct (shown s). }
  assert (Hnote : exists note, currentNote (ui s) = Some note).
  { unfold reviewing in Hrev. destruct (currentNote (ui s)); eauto.
    rewrite andb_false_r in Hrev. discriminate. }
  destruct Hnote as [note En].
  assert (E1 : step env (SaveNote uuid now) s
               = Some (handleSaveNote (app env) uuid now s)).
  { unfold step. now rewrite Hm, Hrev. }
  set (s1 := handleSaveNote (app env) uuid now s) in *.
  assert (E2 : step env (DeleteSavedNote uuid) s1
               = Some (handleDeleteSavedNote uuid s1)).
  { unfold step, s1, handleSaveNote. rewrite En.
    change (mounted (on_ui _ s)) with (mounted s).
    change (shown (on_ui _ s)) with (shown s).
    now rewrite Hm, Hsh. }
  exists (handleDeleteSavedNote uuid s1). split.
  { cbn [run]. now rewrite E1, E2. }
  unfold s1, handleSaveNote. rewrite En. cbn.
  rewrite String.eqb_refl. cbn.
  unfold ids in Hfresh. rewrite filter_absent by exact Hfresh. repeat split.
Qed.

Lemma save_then_delete_restores_witness :
  exists s',
    run Scenario.notes_env [SaveNote "id-2" 5; DeleteSavedNote "id-2"]
      Scenario.review_milk_mailed = Some s'
    /\ savedNotes (ui s') = [Scenario.idea].
Proof.
  destruct (save_then_delete_restores Scenario.notes_env "id-2" 5
              Scenario.review_milk_mailed)
    as (s' & Hrun & Hs & _); try reflexivity.
  - cbn. intuition discriminate.
  - exists s'. split; [exact Hrun | exact Hs].
Defined.

(** X22.  What leaves is what is kept: in either copy, the body of every
    mail and the text of every native share a request of the card produces
    are the text the note would be saved with, under the subject
    ["Note: "] and the category; a mail goes to a recipient that is not
    empty; an alert means that no address was given and none is configured;
    and nothing is ever logged as an error. *)
Theorem mailed_is_saved
    (env : Env) (email : option string) (shared : bool)
    (uuid : string) (now : Z) (s : state) (note : Draft) :
  currentNote (ui s) = Some note ->
  exists n,
    savedNotes (ui (handleSaveNote (app env) uuid now s))
    = n :: savedNotes (ui s)
    /\ text n = outgoing (app env) note
    /\ category n = draft_category note
    /\ forall fx, In fx (effects (share env email shared s)) ->
         In fx (effects s)
         \/ match fx with
            | Navigate url =>
                exists recipient,
                  Js.truthy recipient = true
                  /\ url = mailto env recipient ("Note: " ++ category n)
                             (text n)
            | NativeShare title body =>
                title = "Note: " ++ category n /\ body = text n
            | Alert _ =>
                truthy_opt email = false
                /\ Js.truthy (defaultEmail (settings (ui s))) = false
            | ConsoleLog _ => navigator_share env = true /\ shared = false
            | ConsoleError _ => False
            end.
Proof.
  intros En. unfold handleSaveNote, share, handleEmailNote, handleShareNote.
  rewrite En. eexists. split; [reflexivity|].
  split; [reflexivity|]. split; [reflexivity|].
  intros fx. cbn [text category]. unfold outgoing.
  destruct (app env); cbv zeta.
  - destruct (truthy_opt email) eqn:Ee.
    + destruct email as [e|]; [|discriminate]. cbn in Ee |- *. rewrite Ee.
      cbn. intros [<-|H]; [right; eauto | now left].
    + destruct (Js.truthy (defaultEmail (settings (ui s)))) eqn:Ed; cbn;
        (intros [<-|H]; [right; eauto | now left]).
  - destruct (truthy_opt email) eqn:Ee.
    + destruct email as [e|]; [|discriminate]. cbn in Ee |- *.
      intros [<-|H]; [right; eauto | now left].
    + destruct (navigator_share env) eqn:Ens.
      * destruct shared; cbn;
          intros H; repeat (destruct H as [<-|H]; [right; auto|]); now left.
      * destruct (Js.truthy (defaultEmail (settings (ui s)))) eqn:Ed; cbn;
          (intros [<-|H]; [right; eauto | now left]).
Qed.

Lemma mailed_is_saved_witness :
  exists n,
    savedNotes (ui (handleSaveNote QuickNotes "id-2" 5
                      Scenario.review_milk_mailed))
    = [n; Scenario.idea]
    /\ effects (share Scenario.notes_env None false
                  Scenario.review_milk_mailed)
       = [Navigate (mailto Scenario.notes_env "me@example.com"
                      "Note: To-do" (text n))].
Proof.
  destruct (mailed_is_saved Scenario.notes_env None false "id-2" 5
              Scenario.review_milk_mailed Scenario.milk eq_refl)
    as (n & Hs & Ht & _ & _).
  exists n. split; [exact Hs|]. rewrite Ht. reflexivity.
Defined.

Lemma allEmails_In (st : UserSettings) (e : string) :
  In e (allEmails st) <->
  Js.truthy e = true /\ (e = defaultEmail st \/ In e (otherEmails st)).
Proof.
  unfold allEmails. rewrite filter_In. cbn [In]. intuition.
Qed.

(** X23.  An entry of the address menu of the card mails to the address it
    shows, which is the default address or one of the other addresses of
    the settings and is not empty: the request always takes the branch of
    the handler with an address given, in either copy. *)
Theorem menu_entry_mails_to_entry
    (env : Env) (shared : bool) (s : state) (note : Draft) (e : string) :
  currentNote (ui s) = Some note ->
  In (Some e) (card_requests (settings (ui s))) ->
  Js.truthy e = true
  /\ (e = defaultEmail (settings (ui s))
      \/ In e (otherEmails (settings (ui s))))
  /\ effects (share env (Some e) shared s)
     = Navigate (mailto env e ("Note: " ++ draft_category note)
                   (outgoing (app env) note)) :: effects s.
Proof.
  intros En Hin. unfold card_requests in Hin.
  destruct Hin as [Hin|Hin]; [discriminate|].
  apply in_map_iff in Hin as (e' & [= ->] & Hin).
  apply allEmails_In in Hin as [Ht Hwhere].
  split; [exact Ht|]. split; [exact Hwhere|].
  unfold share, handleEmailNote, handleShareNote, outgoing. rewrite En.
  destruct (app env); cbn; rewrite Ht; cbn; rewrite ?Ht; reflexivity.
Qed.

Lemma menu_entry_mails_to_entry_witness :
  effects (share Scenario.dictate_share_env (Some "me@example.com") true
             Scenario.review_milk_mailed)
  = [Navigate (mailto Scenario.dictate_share_env "me@example.com"
                 "Note: To-do" "buy milk")].
Proof.
  apply (menu_entry_mails_to_entry Scenario.dictate_share_env true
           Scenario.review_milk_mailed Scenario.milk "me@example.com").
  - reflexivity.
  - cbn. auto.
Defined.

End NotesExtras.

(* ================================================================== *)
(** * Errors of the session, and the settings of the form *)
(* ================================================================== *)

Section SessionExtras.

Import Types GeminiService App Onboarding AppShell Vocabulary.

(** X24.  An error of the live session releases nothing.  The state goes to
    [IDLE] with the dictation error shown, and handle, sessions, contexts,
    nodes, buffer and waiting calls are what they were; the next click
    therefore starts a recording, and once the microphone is granted the
    handle names a new session while the session that reported the error is
    left as it was, open. *)
Theorem session_error_releases_nothing
    (env : Env) (sid : nat) (x : session) (s : state) :
  mounted s = true -> shown s = true ->
  session_at s sid = Some x -> session_open x = true ->
  exists s1 s2,
    step env (SessionError sid) s = Some s1
    /\ appState (ui s1) = IDLE
    /\ error (ui s1) = Some "An error occurred during dictation."
    /\ resources s1 = resources s
    /\ pending s1 = pending s
    /\ currentTranscription (ui s1) = currentTranscription (ui s)
    /\ run env [Click; Resume (List.length (pending s)) GotStream] s1
       = Some s2
    /\ appState (ui s2) = RECORDING
    /\ sessionPromiseRef (refs s2) = Some (List.length (sessions s))
    /\ session_at s2 sid = Some x
    /\ sid <> List.length (sessions s).
Proof.
  intros Hm Hsh Hx Ho.
  assert (E1 : step env (SessionError sid) s = Some (onerror s)).
  { unfold step. rewrite Hm, Hx. cbn [negb]. unfold session_open in Ho.
    destruct (status x); try discriminate; reflexivity. }
  assert (Hlt : (sid < List.length (sessions s))%nat).
  { apply nth_error_Some. unfold session_at in Hx. congruence. }
  exists (onerror s). eexists. split; [exact E1|].
  split; [reflexivity|]. split; [reflexivity|]. split; [reflexivity|].
  split; [reflexivity|]. split; [reflexivity|]. split.
  { cbn [run]. rewrite step_click_start; try assumption;
      try (cbn; discriminate).
    unfold start_begin. set (s1 := on_ui _ (onerror s)).
    change (List.length (pending s)) with (List.length (pending s1)).
    rewrite step_resume_suspended by exact Hm. reflexivity. }
  cbn. repeat split; [|lia].
  unfold session_at in *. cbn. rewrite nth_error_app1 by exact Hlt. exact Hx.
Qed.

Lemma session_error_releases_nothing_witness :
  exists s1 s2,
    step Scenario.notes_env (SessionError 0) Scenario.recording_milk = Some s1
    /\ run Scenario.notes_env [Click; Resume 0 GotStream] s1 = Some s2
    /\ sessionPromiseRef (refs s2) = Some 1%nat
    /\ session_at s2 0 = Some (open_session new_session).
Proof.
  destruct (session_error_releases_nothing Scenario.notes_env 0
              (open_session new_session) Scenario.recording_milk)
    as (s1 & s2 & H1 & _ & _ & _ & _ & _ & H2 & _ & Hh & Hx & _);
    try reflexivity.
  exists s1, s2. repeat split; assumption.
Defined.

Lemma handleSubmit_accepts (v : variant) (f f' : form) (a : answers) :
  handleSubmit v f = (f', Some a) ->
  Js.truthy (ans_defaultEmail a) = true
  /\ (v = QuickNotes -> ans_categories a = defaultCategories QuickNotes).
Proof.
  unfold handleSubmit.
  destruct (email_refused (form_defaultEmail f)) eqn:E; [discriminate|].
  assert (Ht : Js.truthy (form_defaultEmail f) = true).
  { unfold email_refused in E. apply orb_false_iff in E as [E _].
    now apply negb_false_iff in E. }
  destruct v; [|destruct (form_selectedCategories f)];
    intros [= <- <-]; cbn; split; auto; discriminate.
Qed.

Lemma step_alerts (env : Env) (e : event) (s s' : state) :
  step env e s = Some s' ->
  Js.truthy (defaultEmail (settings (ui s))) = true ->
  forall fx, is_alert fx = true ->
    In fx (effects s') -> In fx (effects s).
Proof.
  intros H Ht fx Ha.
  destruct e; step_cases H; cbn; intros Hin;
    repeat (destruct Hin as [<-|Hin];
            [try discriminate Ha; try congruence|]);
    try assumption.
  destruct email as [e|]; cbn in *; [|congruence].
  destruct (Js.truthy e) eqn:Ee; congruence.
Qed.

(** X25.  Once the form of the onboarding has been accepted and its answers
    taken in -- whether or not they could be stored -- the controls are
    shown, the settings are the answers of the form for the rest of the run,
    and no event ever raises the alert about a missing default address. *)
Theorem onboarded_never_alerts
    (v : variant) (f f' : form) (a : answers) (storage_works : bool)
    (env : Env) (es : list event) (s s' : state) :
  handleSubmit v f = (f', Some a) ->
  run env es (fst (handleOnboardingComplete a storage_works s)) = Some s' ->
  shown s' = true
  /\ settings (ui s') = finalSettings a
  /\ defaultEmail (settings (ui s')) = form_defaultEmail f
  /\ forall fx, is_alert fx = true ->
       In fx (effects s') -> In fx (effects s).
Proof.
  intros Hsub Hrun.
  destruct (handleSubmit_accepts v f f' a Hsub) as [Ht _].
  assert (Hd : ans_defaultEmail a = form_defaultEmail f).
  { revert Hsub. unfold handleSubmit.
    destruct (email_refused _); [discriminate|].
    destruct v; [|destruct (form_selectedCategories f)];
      intros [= _ <-]; reflexivity. }
  set (s0 := fst (handleOnboardingComplete a storage_works s)) in *.
  assert (H0 : settings (ui s0) = finalSettings a
               /\ forall fx, is_alert fx = true ->
                    In fx (effects s0) -> In fx (effects s)).
  { unfold s0, handleOnboardingComplete. destruct storage_works; cbn.
    - split; auto.
    - split; [reflexivity|]. intros fx Ha [<-|H]; [discriminate | exact H]. }
  clearbody s0. destruct H0 as [Hset Hfx].
  revert s0 Hrun Hset Hfx. induction es as [|e es IH]; intros s0 Hrun Hset Hfx.
  - injection Hrun as <-. unfold shown. rewrite Hset. cbn.
    repeat split; auto.
  - cbn [run] in Hrun. destruct (step env e s0) as [s1|] eqn:E; [|discriminate].
    apply (IH s1 Hrun).
    + rewrite (step_shown env e s0 s1 E); [exact Hset|].
      unfold shown. now rewrite Hset.
    + intros fx Ha Hin. apply Hfx; [exact Ha|].
      apply (step_alerts env e s0 s1 E); try assumption.
      now rewrite Hset.
Qed.

Lemma onboarded_never_alerts_witness :
  exists a s',
    snd (handleSubmit QuickNotes
           {| form_defaultEmail := "me@example.com"; form_otherEmails := "";
              form_selectedCategories := []; form_error := "" |}) = Some a
    /\ run Scenario.notes_env [ShareNote None false]
         (fst (handleOnboardingComplete a false Scenario.review_milk))
       = Some s'
    /\ forall fx, is_alert fx = true -> ~ In fx (effects s').
Proof.
  pose (f := {| form_defaultEmail := "me@example.com"; form_otherEmails := "";
                form_selectedCategories := []; form_error := "" |}).
  pose (a := {| ans_defaultEmail := "me@example.com"; ans_otherEmails := [];
                ans_categories := defaultCategories QuickNotes |}).
  assert (Hsub : handleSubmit QuickNotes f = (f, Some a))
    by (vm_compute; reflexivity).
  assert (Hex : exists s',
            run Scenario.notes_env [ShareNote None false]
              (fst (handleOnboardingComplete a false Scenario.review_milk))
            = Some s')
    by (eexists; vm_compute; reflexivity).
  destruct Hex as [s' Hrun]. exists a, s'.
  split; [exact (f_equal snd Hsub)|]. split; [exact Hrun|].
  intros fx Ha Hin.
  destruct (onboarded_never_alerts QuickNotes f f a false _ _ _ _ Hsub Hrun)
    as (_ & _ & _ & Hfx).
  exact (Hfx fx Ha Hin).
Defined.

(** X26.  In the copy with the grouped listing, whatever the model answers,
    the category of a note dictated after the form was accepted is one of
    the four of the priority list of the listing. *)
Theorem onboarded_categories_are_listed
    (f f' : form) (a : answers) (key : option string)
    (backend : string -> generation) (text c : string) :
  handleSubmit QuickNotes f = (f', Some a) ->
  GeminiService.categorizeNote key backend text (ans_categories a)
  = Returned c ->
  SavedNotesList.listed c = true
  /\ In c SavedNotesList.categoryOrder.
Proof.
  intros Hsub Hcat.
  destruct (handleSubmit_accepts _ _ _ _ Hsub) as [_ Hc].
  rewrite (Hc eq_refl) in Hcat.
  apply (proj1 (categorizeNote_falls_back_both _ _ _ _ _)) in Hcat.
  cbn in Hcat.
  destruct Hcat as [[<-|[<-|[<-|[<-|[]]]]]| ->]; split;
    try reflexivity; cbn; auto 6.
Qed.

Lemma onboarded_categories_are_listed_witness :
  SavedNotesList.listed "Notes" = true
  /\ In "Notes" SavedNotesList.categoryOrder.
Proof.
  apply (onboarded_categories_are_listed
           {| form_defaultEmail := "me@example.com"; form_otherEmails := "";
              form_selectedCategories := []; form_error := "" |}
           _ _ (Some "key") (fun _ => Responded (Some "Shopping"))
           "buy milk" "Notes" eq_refl eq_refl).
Defined.

Lemma step_microphone (env : Env) (e : event) (s s' : state) (sid : nat)
    (x : session) :
  step env e s = Some s' ->
  session_at s sid = Some x ->
  exists x',
    session_at s' sid = Some x'
    /\ microphone_live x'
       = if closes sid e then false else microphone_live x.
Proof.
  intros H Hx.
  assert (Hlt : (sid < List.length (sessions s))%nat).
  { apply nth_error_Some. unfold session_at in Hx. congruence. }
  unfold session_at in *.
  destruct e; step_cases H; cbn;
    rewrite ?nth_error_update_nth, ?nth_error_app1 by exact Hlt;
    repeat match goal with
           | |- context [Nat.eqb ?a ?b] => destruct (Nat.eqb a b) eqn:?
           end;
    rewrite ?Hx; cbn; eauto;
    try (destruct (resolved x); cbn; eauto);
    try (unfold resolve_session; destruct (close_when_resolved x); cbn;
         now eauto).
  all: exfalso;
    match goal with
    | H1 : Nat.eqb ?a ?b = true, H2 : Nat.eqb ?b ?a = false |- _ =>
        rewrite Nat.eqb_sym in H2; congruence
    end.
Qed.

(** X27.  The microphone is let go by [onclose] alone.  Through any run the
    stream of a session stays live unless the run holds the closing of
    that very session, after which it is stopped: neither the stop of the
    recording, nor an error, nor the unmounting stops the tracks. *)
Theorem microphone_released_only_on_close
    (env : Env) (es : list event) (s s' : state) (sid : nat) (x : session) :
  run env es s = Some s' ->
  session_at s sid = Some x ->
  exists x',
    session_at s' sid = Some x'
    /\ microphone_live x'
       = (microphone_live x && negb (existsb (closes sid) es))%bool.
Proof.
  revert s x. induction es as [|e es IH]; intros s x Hrun Hx.
  - injection Hrun as <-. exists x. split; [exact Hx|].
    cbn. now rewrite andb_true_r.
  - cbn [run] in Hrun. destruct (step env e s) as [s1|] eqn:E; [|discriminate].
    destruct (step_microphone env e s s1 sid x E Hx) as (x1 & Hx1 & Hm1).
    destruct (IH s1 x1 Hrun Hx1) as (x' & Hx' & Hm').
    exists x'. split; [exact Hx'|]. rewrite Hm', Hm1. cbn [existsb].
    destruct (closes sid e); cbn; [now rewrite andb_false_r | reflexivity].
Qed.

Lemma microphone_released_only_on_close_witness :
  exists s' x',
    run Scenario.notes_env
      [Click; Resume 0 SessionReady; Resume 0 ContextClosed;
       Resume 0 (Categorized (Responded (Some "To-do")))]
      Scenario.recording_milk = Some s'
    /\ appState (ui s') = REVIEW
    /\ session_at s' 0 = Some x'
    /\ microphone_live x' = true.
Proof.
  assert (Hex : exists s',
             run Scenario.notes_env
               [Click; Resume 0 SessionReady; Resume 0 ContextClosed;
                Resume 0 (Categorized (Responded (Some "To-do")))]
               Scenario.recording_milk = Some s'
             /\ appState (ui s') = REVIEW)
    by (eexists; split; vm_compute; reflexivity).
  destruct Hex as (s' & Hrun & Ha).
  destruct (microphone_released_only_on_close _ _ _ _ 0
              (open_session new_session) Hrun eq_refl) as (x' & Hx' & Hm').
  exists s', x'. repeat split; assumption.
Defined.

End SessionExtras.

(* ================================================================== *)
(** * The listing shows every note *)
(* ================================================================== *)

Section ListingExtras.

Import Types SavedNotesList Vocabulary.

Lemma flat_map_filter_nil (cs : list string) :
  flat_map (fun c => filter (in_category c) (@nil Note)) cs = [].
Proof. induction cs as [|c cs IH]; cbn; auto. Qed.

Lemma flat_map_filter_skip (cs : list string) (n : Note) (l : list Note) :
  ~ In (category n) cs ->
  flat_map (fun c => filter (in_category c) (n :: l)) cs
  = flat_map (fun c => filter (in_category c) l) cs.
Proof.
  induction cs as [|c cs IH]; cbn [flat_map]; [auto|]. intros H.
  rewrite IH by (intros Hin; apply H; now right).
  cbn [filter]. unfold in_category at 1.
  destruct (String.eqb (category n) c) eqn:E; [|reflexivity].
  apply String.eqb_eq in E. exfalso. apply H. now left.
Qed.

Lemma flat_map_filter_cons (cs : list string) (n : Note) (l : list Note) :
  NoDup cs -> In (category n) cs ->
  Permutation (flat_map (fun c => filter (in_category c) (n :: l)) cs)
              (n :: flat_map (fun c => filter (in_category c) l) cs).
Proof.
  induction cs as [|c cs IH]; cbn [flat_map]; intros Hnd Hin; [destruct Hin|].
  apply NoDup_cons_iff in Hnd as [Hc Hnd].
  destruct (String.eqb (category n) c) eqn:E.
  - apply String.eqb_eq in E. subst c.
    rewrite flat_map_filter_skip by exact Hc.
    cbn [filter]. unfold in_category at 1. rewrite String.eqb_refl.
    apply Permutation_refl.
  - destruct Hin as [Hin|Hin].
    { subst c. rewrite String.eqb_refl in E. discriminate. }
    eapply Permutation_trans;
      [apply Permutation_app_head, IH; assumption|].
    cbn [filter]. unfold in_category at 1. rewrite E.
    apply Permutation_sym, Permutation_middle.
Qed.

Lemma flat_map_filter_perm (cs : list string) (notes : list Note) :
  NoDup cs -> incl (map category notes) cs ->
  Permutation (flat_map (fun c => filter (in_category c) notes) cs) notes.
Proof.
  intros Hnd. induction notes as [|n notes IH]; intros Hincl.
  - rewrite flat_map_filter_nil. apply Permutation_refl.
  - eapply Permutation_trans.
    + apply flat_map_filter_cons; [exact Hnd|]. apply Hincl. now left.
    + apply perm_skip, IH. intros c Hc. apply Hincl. now right.
Qed.

Lemma lookup_pushed (notes : list Note) (c : string) :
  In c (own_keys (fold_left push_own notes [])) ->
  lookup (fold_left push_own notes []) c
  = Some (filter (in_category c) notes).
Proof.
  intros Hin. rewrite lookup_fold_push. cbn [lookup]. unfold grown.
  destruct (filter (in_category c) notes) eqn:E; [|reflexivity].
  exfalso. apply lookup_keys in Hin. apply Hin.
  rewrite lookup_fold_push. cbn [lookup]. unfold grown. now rewrite E.
Qed.

Lemma keys_categories (notes : list Note) (c : string) :
  In c (own_keys (fold_left push_own notes [])) <->
  In c (map category notes).
Proof.
  rewrite lookup_keys, lookup_fold_push.
  rewrite <- filter_in_category_nonempty. cbn [lookup]. unfold grown.
  destruct (filter (in_category c) notes); split; congruence.
Qed.

Lemma sortedCategories_perm (g : groups) :
  Permutation (sortedCategories g) (own_keys g).
Proof.
  unfold sortedCategories.
  destruct (sort_shape (Object_keys g)) as (L & E & _ & _ & HP).
  rewrite E, HP.
  eapply Permutation_trans;
    [apply filter_partition_perm | apply Object_keys_perm].
Qed.

Lemma sortedCategories_NoDup (notes : list Note) :
  NoDup (sortedCategories (fold_left push_own notes [])).
Proof.
  eapply Permutation_NoDup;
    [symmetry; apply sortedCategories_perm|].
  apply keys_fold_NoDup. constructor.
Qed.

Lemma render_groups (notes : list Note) :
  notes <> [] ->
  Forall (fun n => inherited (category n) = false) notes ->
  render notes
  = Normal (Some (map (fun c => (c, filter (in_category c) notes))
                    (sortedCategories (fold_left push_own notes [])))).
Proof.
  intros Hne Hplain. unfold render, groupedNotes.
  rewrite (reduce_plain notes [] Hplain).
  destruct notes as [|n0 l]; [contradiction|].
  do 2 f_equal. apply map_ext_in. intros c Hc.
  rewrite lookup_pushed; [reflexivity|].
  eapply Permutation_in; [apply sortedCategories_perm | exact Hc].
Qed.

Lemma render_throws (notes : list Note) :
  Exists (fun n => inherited (category n) = true) notes ->
  render notes = TypeError.
Proof.
  intros H. unfold render, groupedNotes.
  rewrite (reduce_throws notes [] (Forall_nil _) H).
  destruct notes; [inversion H | reflexivity].
Qed.

Lemma plain_or_inherited (notes : list Note) :
  Forall (fun n => inherited (category n) = false) notes
  \/ Exists (fun n => inherited (category n) = true) notes.
Proof.
  induction notes as [|n notes [IH|IH]]; auto.
  destruct (inherited (category n)) eqn:E; auto.
Qed.

(** X28.  The grouped listing shows every saved note exactly once, or
    throws.  It throws exactly when the category of some note is the name
    of a property the accumulator inherits; it renders nothing exactly when
    there is no note; otherwise the notes of all its groups together are
    the saved notes, rearranged, no heading comes twice, no group is empty,
    and every note stands under the heading of its own category. *)
Theorem render_shows_each_note_once (notes : list Note) :
  match render notes with
  | TypeError => Exists (fun n => inherited (category n) = true) notes
  | Normal None => notes = []
  | Normal (Some sections) =>
      notes <> []
      /\ Forall (fun n => inherited (category n) = false) notes
      /\ Permutation (List.concat (map snd sections)) notes
      /\ NoDup (map fst sections)
      /\ Forall (fun g => snd g <> []
                          /\ Forall (fun n => category n = fst g) (snd g))
           sections
  end.
Proof.
  destruct (plain_or_inherited notes) as [Hplain|Hthrow];
    [|now rewrite render_throws].
  destruct notes as [|n0 l] eqn:En; [reflexivity|]. rewrite <- En in *.
  assert (Hne : notes <> []) by (rewrite En; discriminate). clear En.
  rewrite render_groups by assumption.
  split; [exact Hne|]. split; [exact Hplain|]. split; [|split].
  - rewrite map_map. cbn [snd]. rewrite <- flat_map_concat_map.
    apply flat_map_filter_perm; [apply sortedCategories_NoDup|].
    intros c Hc. apply keys_categories in Hc.
    eapply Permutation_in; [symmetry; apply sortedCategories_perm | exact Hc].
  - rewrite map_map. cbn [fst]. rewrite map_id. apply sortedCategories_NoDup.
  - apply Forall_forall. intros g Hg.
    apply in_map_iff in Hg as (c & <- & Hc). cbn [fst snd]. split.
    + apply filter_in_category_nonempty, keys_categories.
      eapply Permutation_in; [apply sortedCategories_perm | exact Hc].
    + apply Forall_forall. intros n Hn. apply filter_In in Hn as [_ Hn].
      now apply String.eqb_eq in Hn.
Qed.

End ListingExtras.
